(** * Parace backend: a shallow embedding of the server and its verification

    The embedding follows the four Python modules of the backend:
    - [Player]          (player.py)          the per-connection record,
    - [WorldGenerator]  (world_generator.py) procedural terrain, roads, scenery,
    - [GameState]       (game_state.py)      the tick-driven coordinator,
    - [App]             (app.py)             the WebSocket gateway.
    It is followed by the definitions the statements are written with
    (Specification) and by the proofs (Verification).

    Conventions of the embedding.
    - A Python [float] is a real number (Stdlib [R]): rounding and NaN are
      outside the model.  A Python [int] is a [Z].
    - A Python exception is [None] in the option monad:  [py_div] is [/]
      with its ZeroDivisionError, [py_sqrt] is [math.sqrt] with its
      ValueError, [py_index] is list subscription with its IndexError.
    - In the four modules [**] is exact.  The OverflowError of [**] on
      floats is the subject of the module [Checked], which embeds the
      functions that use [**] once more, with the exception they raise.
    - The [noise] package, [random.Random] and the builtin [hash] are not
      part of the repository; they are the fields of the class [Externals].
    - A [dict] that is iterated is an insertion-ordered association list
      with unique keys; the chunk cache, which is only looked up, is a
      [gmap]. *)

From Stdlib Require Import Reals Lra Lia ZArith Ascii.
From stdpp Require Import base option list strings gmap pretty.

#[local] Open Scope Z_scope.
#[local] Open Scope R_scope.

(** ** Python numerics *)

Module Py.

Definition Rltb (a b : R) : bool := if Rlt_dec a b then true else false.
Definition Rleb (a b : R) : bool := if Rle_dec a b then true else false.
Definition Reqb (a b : R) : bool := if Req_dec_T a b then true else false.

(** [a / b] on floats: ZeroDivisionError when [b == 0]. *)
Definition py_div (a b : R) : option R :=
  if Reqb b 0 then None else Some (a / b).

(** [math.sqrt]: ValueError (math domain error) on a negative argument. *)
Definition py_sqrt (a : R) : option R :=
  if Rltb a 0 then None else Some (sqrt a).

(** [l[i]] for an int [i]: negative indices count from the end,
    IndexError outside [-len l, len l). *)
Definition py_index {A} (l : list A) (i : Z) : option A :=
  if (0 <=? i)%Z then l !! Z.to_nat i
  else if (- Z.of_nat (length l) <=? i)%Z then l !! Z.to_nat (Z.of_nat (length l) + i)
  else None.

(** [range(n)] and [range(a, b)]. *)
Definition range2 (a b : Z) : list Z :=
  map (fun k => (a + Z.of_nat k)%Z) (seq 0 (Z.to_nat (b - a))).
Definition range (n : Z) : list Z := range2 0 n.

(** A vector [{"x": _, "y": _, "z": _}]. *)
Record Vec3 := mkVec3 { vx : R; vy : R; vz : R }.

End Py.
Export Py.

(** ** player.py *)

Module Player.

(** The entries of the [vehicle_types] table. *)
Record VehicleStats := mkStats {
  maxSpeed : R; acceleration_stat : R; handling : R; braking : R;
  mass : R; drag : R; color : string }.

Definition stats_default : VehicleStats := mkStats 40 10 0.5 0.7 1000 0.3 "#FF5500".
Definition stats_sports : VehicleStats := mkStats 60 15 0.8 0.9 1200 0.25 "#0055FF".
Definition stats_truck : VehicleStats := mkStats 30 5 0.3 0.5 2500 0.5 "#005500".

(** [vehicle_types.get(vehicle_type, vehicle_types["default"])]. *)
Definition _get_vehicle_stats (vehicle_type : string) : VehicleStats :=
  if String.eqb vehicle_type "default" then stats_default
  else if String.eqb vehicle_type "sports" then stats_sports
  else if String.eqb vehicle_type "truck" then stats_truck
  else stats_default.

(** A [Player] object.  [websocket] is the handle of the connection. *)
Record t := mk {
  id : string;
  name : string;
  vehicle_type : string;
  websocket : nat;
  position : Vec3;
  rotation : Vec3;
  velocity : Vec3;
  acceleration : Vec3;
  vehicle_stats : VehicleStats;
  score : Z;
  distance_traveled : Z;
  race_position : Z;
  best_lap_time : option R;
  current_lap_start : option R;
  last_update : R;
  ping : Z;
  checkpoints_passed : list Z;
  current_checkpoint : Z }.

Definition zero3 : Vec3 := mkVec3 0 0 0.

(** [Player.__init__]; [now] is the reading of [time.time()]. *)
Definition init (id name vehicle_type : string) (websocket : nat) (now : R) : t :=
  {| id := id; name := name; vehicle_type := vehicle_type; websocket := websocket;
     position := zero3; rotation := zero3; velocity := zero3; acceleration := zero3;
     vehicle_stats := _get_vehicle_stats vehicle_type;
     score := 0; distance_traveled := 0; race_position := 0;
     best_lap_time := None; current_lap_start := None;
     last_update := now; ping := 0;
     checkpoints_passed := []; current_checkpoint := 0 |}.

Definition set_best_lap_time (v : option R) (p : t) : t :=
  mk (id p) (name p) (vehicle_type p) (websocket p) (position p) (rotation p)
     (velocity p) (acceleration p) (vehicle_stats p) (score p) (distance_traveled p)
     (race_position p) v (current_lap_start p) (last_update p) (ping p)
     (checkpoints_passed p) (current_checkpoint p).

Definition set_current_lap_start (v : option R) (p : t) : t :=
  mk (id p) (name p) (vehicle_type p) (websocket p) (position p) (rotation p)
     (velocity p) (acceleration p) (vehicle_stats p) (score p) (distance_traveled p)
     (race_position p) (best_lap_time p) v (last_update p) (ping p)
     (checkpoints_passed p) (current_checkpoint p).

Definition set_checkpoints (l : list Z) (c : Z) (p : t) : t :=
  mk (id p) (name p) (vehicle_type p) (websocket p) (position p) (rotation p)
     (velocity p) (acceleration p) (vehicle_stats p) (score p) (distance_traveled p)
     (race_position p) (best_lap_time p) (current_lap_start p) (last_update p) (ping p)
     l c.

(** The fields a [position] message writes. *)
Definition set_kinematics (pos rot vel : Vec3) (upd : R) (p : t) : t :=
  mk (id p) (name p) (vehicle_type p) (websocket p) pos rot
     vel (acceleration p) (vehicle_stats p) (score p) (distance_traveled p)
     (race_position p) (best_lap_time p) (current_lap_start p) upd (ping p)
     (checkpoints_passed p) (current_checkpoint p).

(** [self.best_lap_time is None or lap_time < self.best_lap_time]. *)
Definition is_new_best (lap_time : R) (best : option R) : bool :=
  match best with
  | None => true
  | Some b => Rltb lap_time b
  end.

Definition update_lap_time (self : t) (current_time : R) : t :=
  match current_lap_start self with
  | Some start =>
      let lap_time := current_time - start in
      let self := if is_new_best lap_time (best_lap_time self)
                  then set_best_lap_time (Some lap_time) self else self in
      set_current_lap_start (Some current_time) self
  | None => set_current_lap_start (Some current_time) self
  end.

Definition reset_checkpoints (self : t) : t := set_checkpoints [] 0 self.

Definition pass_checkpoint (self : t) (checkpoint_id : Z) (current_time : R) : t :=
  if bool_decide (checkpoint_id ∈ checkpoints_passed self) then self
  else
    let self := set_checkpoints (checkpoints_passed self ++ [checkpoint_id]) checkpoint_id self in
    if (checkpoint_id =? 0)%Z then update_lap_time self current_time else self.

(** A run of [update_lap_time] calls, one per crossing of the line. *)
Definition crossings (self : t) (times : list R) : t :=
  fold_left update_lap_time times self.

(** The durations of the laps completed during such a run: a lap is
    completed by every crossing that finds [current_lap_start] set. *)
Fixpoint lap_durations (start : option R) (times : list R) : list R :=
  match times with
  | [] => []
  | t :: rest =>
      match start with
      | Some s => (t - s) :: lap_durations (Some t) rest
      | None => lap_durations (Some t) rest
      end
  end.

End Player.

(** ** world_generator.py *)

Module WorldGenerator.

(** A road point [{"x": _, "z": _}]; a road is a polyline. *)
Record Point2 := mkPoint2 { px : R; pz : R }.
Definition Road : Type := list Point2.

(** What the module imports from outside the repository. *)
Class Externals := {
  (** [noise.pnoise2(x, y, octaves, persistence, lacunarity, repeatx, repeaty, base)] *)
  pnoise2 : R -> R -> Z -> R -> R -> Z -> Z -> Z -> R;
  (** the state of a [random.Random] instance *)
  Rng : Type;
  (** [random.Random(seed)] *)
  rng_seed : Z -> Rng;
  (** [rng.random()] *)
  rng_random : Rng -> R * Rng;
  (** [rng.randint(a, b)] *)
  rng_randint : Z -> Z -> Rng -> Z * Rng;
  (** the index [rng.choice] draws for a sequence of the given length *)
  rng_choice : nat -> Rng -> nat * Rng;
  (** [hash((a, b))] of a pair of ints *)
  py_hash : Z -> Z -> Z }.

(** The documented contracts of these collaborators. *)
Class ExternalsOk (E : Externals) : Prop := {
  pnoise2_range : forall x y o p l rx ry b, -1 <= pnoise2 x y o p l rx ry b <= 1;
  random_range : forall s, 0 <= fst (rng_random s) < 1;
  randint_range : forall a b s, (a <= b)%Z -> (a <= fst (rng_randint a b s) <= b)%Z;
  choice_range : forall n s, (0 < n)%nat -> (fst (rng_choice n s) < n)%nat }.

(** [float('inf')] or a finite distance. *)
Inductive Dist := Inf | Fin (d : R).

(** [min(min_distance, line_dist)] *)
Definition dist_min (m : Dist) (d : R) : Dist :=
  match m with
  | Inf => Fin d
  | Fin m' => if Rltb d m' then Fin d else Fin m'
  end.

(** The pairs [road[i], road[i + 1]] for [i in range(len(road) - 1)]. *)
Fixpoint segments (road : Road) : list (Point2 * Point2) :=
  match road with
  | p1 :: ((p2 :: _) as rest) => (p1, p2) :: segments rest
  | _ => []
  end.

Definition _point_to_line_distance (x z x1 z1 x2 z2 : R) : option R :=
  let A := x2 - x1 in
  let B := z2 - z1 in
  let C := x - x1 in
  let D := z - z1 in
  let dot := A * A + B * B in
  if Reqb dot 0 then py_sqrt (C * C + D * D)
  else
    param ← py_div (A * C + B * D) dot;
    if Rltb param 0 then py_sqrt (C * C + D * D)
    else if Rltb 1 param then py_sqrt ((x - x2) ^ 2 + (z - z2) ^ 2)
    else
      let proj_x := x1 + param * A in
      let proj_z := z1 + param * B in
      py_sqrt ((x - proj_x) ^ 2 + (z - proj_z) ^ 2).

(** The loop of [_get_road_factor]: the least distance to a segment. *)
Fixpoint min_over_segments (x z : R) (segs : list (Point2 * Point2)) (min_distance : Dist)
  : option Dist :=
  match segs with
  | [] => Some min_distance
  | (p1, p2) :: rest =>
      line_dist ← _point_to_line_distance x z (px p1) (pz p1) (px p2) (pz p2);
      min_over_segments x z rest (dist_min min_distance line_dist)
  end.

Fixpoint min_over_roads (x z : R) (roads : list Road) (min_distance : Dist) : option Dist :=
  match roads with
  | [] => Some min_distance
  | road :: rest =>
      m ← min_over_segments x z (segments road) min_distance;
      min_over_roads x z rest m
  end.

(** [{"start": p1, "end": p2}] *)
Record RoadSeg := mkRoadSeg { seg_start : Point2; seg_end : Point2 }.

Record Vertex := mkVertex { v_position : Vec3; v_normal : Vec3; v_u : R; v_v : R }.

(** The entries of a chunk's object list.  A tree's rotation is a float,
    a building's is the int [rng.randint(0, 3) * 90]. *)
Inductive SceneObject :=
| Tree (treeType : string) (position : Vec3) (rotation_y : R) (scale : R)
| Building (buildingType : string) (position : Vec3) (rotation_y : Z) (scale : R).

Record Chunk := mkChunk {
  c_position : Z * Z;
  c_size : Z;
  c_resolution : Z;
  c_heightmap : list (list R);
  c_vertices : list Vertex;
  c_indices : list Z;
  c_roads : list RoadSeg;
  c_objects : list SceneObject }.

(** A [WorldGenerator] object. *)
Record t := mk {
  seed : Z;
  world_size : Z;
  chunk_size : Z;
  terrain_scale : R;
  terrain_height : Z;
  road_width : Z;
  road_smoothness : R;
  chunks : gmap string Chunk;
  roads : list Road }.

Definition set_chunks (c : gmap string Chunk) (g : t) : t :=
  mk (seed g) (world_size g) (chunk_size g) (terrain_scale g) (terrain_height g)
     (road_width g) (road_smoothness g) c (roads g).

Definition _calculate_normal (heightmap : list (list R)) (x z resolution : Z) : option Vec3 :=
  let x_prev := if (x =? 0)%Z then x else (x - 1)%Z in
  let x_next := if (x =? resolution)%Z then x else (x + 1)%Z in
  let z_prev := if (z =? 0)%Z then z else (z - 1)%Z in
  let z_next := if (z =? resolution)%Z then z else (z + 1)%Z in
  h_up ← py_index heightmap z_prev ≫= (fun row => py_index row x);
  h_down ← py_index heightmap z_next ≫= (fun row => py_index row x);
  h_left ← py_index heightmap z ≫= (fun row => py_index row x_prev);
  h_right ← py_index heightmap z ≫= (fun row => py_index row x_next);
  let nx := h_left - h_right in
  let nz := h_up - h_down in
  length ← py_sqrt (nx * nx + 4 + nz * nz);
  nx ← py_div nx length;
  ny ← py_div 2 length;
  nz ← py_div nz length;
  Some (mkVec3 nx ny nz).

Section Generator.
Context {E : Externals}.

(** Code that draws from a [random.Random] instance and may raise. *)
Definition M (A : Type) : Type := Rng -> option (A * Rng).

#[export] Instance M_ret : MRet M := fun A a s => Some (a, s).
#[export] Instance M_bind : MBind M := fun A B k m s =>
  match m s with
  | Some (a, s') => k a s'
  | None => None
  end.

Definition lift {A} (o : option A) : M A :=
  fun s => match o with Some a => Some (a, s) | None => None end.
Definition random : M R := fun s => Some (rng_random s).
Definition randint (a b : Z) : M Z := fun s => Some (rng_randint a b s).
Definition choice {A} (l : list A) : M A :=
  fun s => let '(i, s') := rng_choice (length l) s in
           match l !! i with Some a => Some (a, s') | None => None end.

(** [for x in l: acc = body(x, acc)] *)
Fixpoint for_each {A S} (l : list A) (body : A -> S -> M S) (acc : S) : M S :=
  match l with
  | [] => mret acc
  | x :: rest => acc' ← body x acc; for_each rest body acc'
  end.

Definition _get_road_factor (self : t) (x z : R) : option R :=
  min_distance ← min_over_roads x z (roads self) Inf;
  match min_distance with
  | Inf => Some 1.0
  | Fin d =>
      if Rltb (IZR (road_width self)) d then Some 1.0
      else py_div d (IZR (road_width self))
  end.

Definition _get_road_height (self : t) (x z : R) : R :=
  let nx := x * terrain_scale self * 0.2 in
  let nz := z * terrain_scale self * 0.2 in
  let base_height := pnoise2 nx nz 2 0.5 2.0 1024 1024 (seed self) in
  (base_height + 1) * 0.5 * IZR (terrain_height self) * 0.2.

(** The height before the road adjustment ([terrain_height] at line 57). *)
Definition noise_terrain_height (self : t) (x z : R) : R :=
  let nx := x * terrain_scale self in
  let nz := z * terrain_scale self in
  let base_height := pnoise2 nx nz 6 0.5 2.0 1024 1024 (seed self) in
  (base_height + 1) * 0.5 * IZR (terrain_height self).

Definition get_terrain_height (self : t) (x z : R) : option R :=
  let terrain_height := noise_terrain_height self x z in
  road_factor ← _get_road_factor self x z;
  if Rltb road_factor 1.0 then
    let road_height := _get_road_height self x z in
    Some (terrain_height * road_factor + road_height * (1 - road_factor))
  else Some terrain_height.

(** *** Road network *)

(** One vertex of the circular main road. *)
Definition circle_point (ws : Z) (segments i : Z) (circle_road : Road) : M Road :=
  let radius := IZR ws * 0.3 in
  let center_x := IZR ws * 0.5 in
  let center_z := IZR ws * 0.5 in
  let angle := (IZR i / IZR segments) * 2 * PI in
  let x := center_x + cos angle * radius in
  let z := center_z + sin angle * radius in
  if (0 <? i)%Z && (i <? segments)%Z then
    r1 ← random;
    let x := x + (r1 - 0.5) * radius * 0.2 in
    r2 ← random;
    let z := z + (r2 - 0.5) * radius * 0.2 in
    mret (circle_road ++ [mkPoint2 x z])
  else mret (circle_road ++ [mkPoint2 x z]).

Definition circle_road (ws : Z) : M Road :=
  let segments := 36%Z in
  for_each (range (segments + 1)) (circle_point ws segments) [].

(** One intermediate point of a radial road. *)
Definition radial_point (ws : Z) (end_x end_z : R) (num_points j : Z) (radial_road : Road)
  : M Road :=
  let center_x := IZR ws * 0.5 in
  let center_z := IZR ws * 0.5 in
  t ← lift (py_div (IZR j) (IZR num_points));
  let x := center_x + (end_x - center_x) * t in
  let z := center_z + (end_z - center_z) * t in
  let deviation := IZR ws * 0.05 * (1 - t) in
  r1 ← random;
  let x := x + (r1 - 0.5) * deviation in
  r2 ← random;
  let z := z + (r2 - 0.5) * deviation in
  mret (radial_road ++ [mkPoint2 x z]).

Definition radial_road (ws : Z) (num_radial i : Z) (roads : list Road) : M (list Road) :=
  let center_x := IZR ws * 0.5 in
  let center_z := IZR ws * 0.5 in
  let radial_road := [mkPoint2 center_x center_z] in
  q ← lift (py_div (IZR i) (IZR num_radial));
  let angle := q * 2 * PI in
  let end_x := center_x + cos angle * IZR ws * 0.5 in
  let end_z := center_z + sin angle * IZR ws * 0.5 in
  num_points ← randint 3 6;
  radial_road ← for_each (range2 1 num_points)
                         (radial_point ws end_x end_z num_points) radial_road;
  let radial_road := radial_road ++ [mkPoint2 end_x end_z] in
  mret (roads ++ [radial_road]).

(** One step of a freeform road; the loop carries [angle] and the road. *)
Definition random_step (ws : Z) (i : Z) (st : R * Road) : M (R * Road) :=
  let '(angle, random_road) := st in
  r ← random;
  let angle := angle + (r - 0.5) * 0.5 in
  segment_length ← randint 100 300;
  last ← lift (py_index random_road (-1));
  let x := px last + cos angle * IZR segment_length in
  let z := pz last + sin angle * IZR segment_length in
  let x := Rmax 0 (Rmin x (IZR ws)) in
  let z := Rmax 0 (Rmin z (IZR ws)) in
  mret (angle, random_road ++ [mkPoint2 x z]).

Definition random_road (ws : Z) (_i : Z) (roads : list Road) : M (list Road) :=
  r1 ← random;
  let start_x := r1 * IZR ws in
  r2 ← random;
  let start_z := r2 * IZR ws in
  let random_road := [mkPoint2 start_x start_z] in
  length ← randint 3 8;
  r3 ← random;
  let angle := r3 * 2 * PI in
  st ← for_each (range2 1 length) (random_step ws) (angle, random_road);
  mret (roads ++ [st.2]).

Definition road_network (ws : Z) : M (list Road) :=
  let roads := [] in
  c ← circle_road ws;
  let roads := roads ++ [c] in
  num_radial ← randint 4 8;
  roads ← for_each (range num_radial) (radial_road ws num_radial) roads;
  num_random ← randint 5 10;
  for_each (range num_random) (random_road ws) roads.

(** [_generate_road_network], which reads [self.seed] and
    [self.world_size] of the object under construction. *)
Definition _generate_road_network (seed ws : Z) : option (list Road) :=
  fst <$> road_network ws (rng_seed seed).

(** [WorldGenerator.__init__].  (Its [random.seed(seed)] reseeds the
    module-level generator, which no method of this class reads.) *)
Definition init (seed : Z) : option t :=
  roads ← _generate_road_network seed 10000;
  Some {| seed := seed; world_size := 10000; chunk_size := 500;
          terrain_scale := 0.02; terrain_height := 100; road_width := 15;
          road_smoothness := 0.5; chunks := ∅; roads := roads |}.

(** *** Scenery *)

(** The body of the tree loop; the first branch is its [continue]. *)
Definition place_tree (self : t) (world_x world_z : Z) (_i : Z) (objects : list SceneObject)
  : M (list SceneObject) :=
  r1 ← random;
  let x_offset := r1 * IZR (chunk_size self) in
  r2 ← random;
  let z_offset := r2 * IZR (chunk_size self) in
  let x_pos := IZR world_x + x_offset in
  let z_pos := IZR world_z + z_offset in
  road_factor ← lift (_get_road_factor self x_pos z_pos);
  if Rltb road_factor 0.9 then mret objects
  else
    height ← lift (get_terrain_height self x_pos z_pos);
    tree_type ← choice ["pine"; "oak"; "palm"];
    r3 ← random;
    let tree_scale := 0.8 + r3 * 0.4 in
    r4 ← random;
    mret (objects ++ [Tree tree_type (mkVec3 x_pos height z_pos) (r4 * 360) tree_scale]).

(** The body of the building loop. *)
Definition place_building (self : t) (world_x world_z : Z) (_i : Z)
  (objects : list SceneObject) : M (list SceneObject) :=
  r1 ← random;
  let x_offset := r1 * IZR (chunk_size self) in
  r2 ← random;
  let z_offset := r2 * IZR (chunk_size self) in
  let x_pos := IZR world_x + x_offset in
  let z_pos := IZR world_z + z_offset in
  road_factor ← lift (_get_road_factor self x_pos z_pos);
  if Rltb road_factor 0.5 || Rltb 0.9 road_factor then mret objects
  else
    height ← lift (get_terrain_height self x_pos z_pos);
    building_type ← choice ["house"; "shop"; "garage"];
    r3 ← random;
    let building_scale := 1.0 + r3 * 0.5 in
    k ← randint 0 3;
    mret (objects ++
          [Building building_type (mkVec3 x_pos height z_pos) (k * 90)%Z building_scale]).

Definition objects_loop (self : t) (chunk_x chunk_z : Z) : M (list SceneObject) :=
  let objects := [] in
  let world_x := (chunk_x * chunk_size self)%Z in
  let world_z := (chunk_z * chunk_size self)%Z in
  num_trees ← randint 5 20;
  num_buildings ← randint 0 2;
  objects ← for_each (range num_trees) (place_tree self world_x world_z) objects;
  for_each (range num_buildings) (place_building self world_x world_z) objects.

(** [_generate_objects]; the [heightmap] argument is never read. *)
Definition _generate_objects (self : t) (chunk_x chunk_z : Z) (heightmap : list (list R))
  : option (list SceneObject) :=
  let rng := rng_seed (seed self + py_hash chunk_x chunk_z)%Z in
  fst <$> objects_loop self chunk_x chunk_z rng.

(** *** Chunks *)

(** [world + (k / resolution) * self.chunk_size] *)
Definition grid_pos (self : t) (world k resolution : Z) : R :=
  IZR world + (IZR k / IZR resolution) * IZR (chunk_size self).

Definition chunk_heightmap (self : t) (world_x world_z resolution : Z) : option (list (list R)) :=
  mapM (fun z =>
    mapM (fun x =>
      let pos_x := grid_pos self world_x x resolution in
      let pos_z := grid_pos self world_z z resolution in
      get_terrain_height self pos_x pos_z)
    (range (resolution + 1)))
  (range (resolution + 1)).

Definition chunk_vertex (self : t) (world_x world_z resolution : Z)
  (heightmap : list (list R)) (z x : Z) : option Vertex :=
  y ← py_index heightmap z ≫= (fun row => py_index row x);
  normal ← _calculate_normal heightmap x z resolution;
  Some {| v_position := mkVec3 (grid_pos self world_x x resolution) y
                               (grid_pos self world_z z resolution);
          v_normal := normal;
          v_u := IZR x / IZR resolution;
          v_v := IZR z / IZR resolution |}.

Definition chunk_vertices (self : t) (world_x world_z resolution : Z)
  (heightmap : list (list R)) : option (list Vertex) :=
  @concat Vertex <$>
    mapM (fun z => mapM (chunk_vertex self world_x world_z resolution heightmap z)
                        (range (resolution + 1)))
         (range (resolution + 1)).

Definition quad_indices (resolution z x : Z) : list Z :=
  let i0 := (z * (resolution + 1) + x)%Z in
  let i1 := (z * (resolution + 1) + x + 1)%Z in
  let i2 := ((z + 1) * (resolution + 1) + x)%Z in
  let i3 := ((z + 1) * (resolution + 1) + x + 1)%Z in
  [i0; i2; i1] ++ [i1; i2; i3].

Definition chunk_indices (resolution : Z) : list Z :=
  concat (map (fun z => concat (map (quad_indices resolution z) (range resolution)))
              (range resolution)).

(** The line-box test of the road loop, with its chained comparisons. *)
Definition in_chunk_bounds (min_x max_x min_z max_z : R) (p1 p2 : Point2) : bool :=
  ((Rleb min_x (px p1) && Rleb (px p1) max_x) || (Rleb min_x (px p2) && Rleb (px p2) max_x))
  && ((Rleb min_z (pz p1) && Rleb (pz p1) max_z) || (Rleb min_z (pz p2) && Rleb (pz p2) max_z)).

Definition chunk_roads (self : t) (world_x world_z : Z) : list RoadSeg :=
  let min_x := IZR world_x in
  let max_x := IZR (world_x + chunk_size self) in
  let min_z := IZR world_z in
  let max_z := IZR (world_z + chunk_size self) in
  concat (map (fun road =>
    concat (map (fun '(p1, p2) =>
      if in_chunk_bounds min_x max_x min_z max_z p1 p2 then [mkRoadSeg p1 p2] else [])
      (segments road)))
    (roads self)).

Definition _generate_chunk (self : t) (chunk_x chunk_z : Z) : option Chunk :=
  let world_x := (chunk_x * chunk_size self)%Z in
  let world_z := (chunk_z * chunk_size self)%Z in
  let resolution := 16%Z in
  heightmap ← chunk_heightmap self world_x world_z resolution;
  vertices ← chunk_vertices self world_x world_z resolution heightmap;
  let indices := chunk_indices resolution in
  let chunk_roads := chunk_roads self world_x world_z in
  objects ← _generate_objects self chunk_x chunk_z heightmap;
  Some {| c_position := (world_x, world_z);
          c_size := chunk_size self;
          c_resolution := resolution;
          c_heightmap := heightmap;
          c_vertices := vertices;
          c_indices := indices;
          c_roads := chunk_roads;
          c_objects := objects |}.

(** [f"{chunk_x},{chunk_z}"] *)
Definition chunk_key (chunk_x chunk_z : Z) : string :=
  pretty chunk_x +:+ "," +:+ pretty chunk_z.

(** [get_chunk] returns the chunk and the generator with its cache. *)
Definition get_chunk (self : t) (chunk_x chunk_z : Z) : option (Chunk * t) :=
  let chunk_key := chunk_key chunk_x chunk_z in
  match chunks self !! chunk_key with
  | Some chunk => Some (chunk, self)
  | None =>
      chunk ← _generate_chunk self chunk_x chunk_z;
      Some (chunk, set_chunks (<[chunk_key := chunk]> (chunks self)) self)
  end.

(** A history of chunk requests, results dropped. *)
Fixpoint requests (self : t) (reqs : list (Z * Z)) : option t :=
  match reqs with
  | [] => Some self
  | (cx, cz) :: rest =>
      r ← get_chunk self cx cz;
      requests r.2 rest
  end.

End Generator.
End WorldGenerator.

(** ** Dictionaries and the object store *)

(** A [dict] with string keys in insertion order. *)
Module Dict.

Definition t (V : Type) : Type := list (string * V).

Definition keys {V} (d : t V) : list string := map fst d.

(** [k in d] *)
Definition mem {V} (k : string) (d : t V) : bool :=
  existsb (fun kv => String.eqb k kv.1) d.

(** [d.get(k)] *)
Fixpoint get {V} (k : string) (d : t V) : option V :=
  match d with
  | [] => None
  | (k', v) :: rest => if String.eqb k k' then Some v else get k rest
  end.

(** [d[k] = v]: an existing key keeps its place, a new one goes last. *)
Fixpoint set {V} (k : string) (v : V) (d : t V) : t V :=
  match d with
  | [] => [(k, v)]
  | (k', v') :: rest => if String.eqb k k' then (k', v) :: rest else (k', v') :: set k v rest
  end.

(** [del d[k]], for a key that is present. *)
Definition del {V} (k : string) (d : t V) : t V :=
  List.filter (fun kv => negb (String.eqb k kv.1)) d.

(** The invariant of a dict: no key twice. *)
Definition wf {V} (d : t V) : Prop := NoDup (keys d).

End Dict.

(** Player objects are shared between the gateway's connection table, the
    coordinator's player map and the handler of the connection, which
    mutates them.  They live in a store and the tables hold addresses. *)
Module Store.

Abbreviation addr := nat (only parsing).
Abbreviation t := (list Player.t) (only parsing).

(** Allocation of a new object. *)
Definition alloc (p : Player.t) (h : t) : addr * t := (length h, h ++ [p]).

(** Reading through a reference.  References are only made by [alloc];
    the default is for addresses that were never allocated. *)
Definition deref (h : t) (a : addr) : Player.t :=
  default (Player.init EmptyString EmptyString EmptyString 0 0) (h !! a).

(** Writing through a reference. *)
Definition update (a : addr) (f : Player.t -> Player.t) (h : t) : t :=
  <[a := f (deref h a)]> h.

End Store.

(** ** game_state.py *)

Module GameState.

Record Config := mkConfig {
  maxPlayers : Z; worldSize : Z; chunkSize : Z; tickRate : Z; playerTimeout : Z }.

(** A collision event: [time], [players] and the midpoint [position]. *)
Record Event := mkEvent {
  e_time : R; e_players : string * string; e_position : Vec3 }.

(** A [GameState] object, without its [world_generator] (the generator
    above, which the tick never reads). *)
Record t := mk {
  players : Dict.t Store.addr;
  start_time : R;
  current_time : R;
  tick_count : Z;
  world_seed : Z;
  config : Config;
  events : list Event }.

(** [GameState.__init__]: [now] is [time.time()], [seed] the draw of
    [random.randint(1, 1000000)]. *)
Definition init (now : R) (seed : Z) : t :=
  {| players := []; start_time := now; current_time := now; tick_count := 0;
     world_seed := seed;
     config := mkConfig 50 10000 500 20 30;
     events := [] |}.

Definition set_players (ps : Dict.t Store.addr) (g : t) : t :=
  mk ps (start_time g) (current_time g) (tick_count g) (world_seed g) (config g) (events g).
Definition set_clock (now : R) (ticks : Z) (g : t) : t :=
  mk (players g) (start_time g) now ticks (world_seed g) (config g) (events g).
Definition set_events (evs : list Event) (g : t) : t :=
  mk (players g) (start_time g) (current_time g) (tick_count g) (world_seed g) (config g) evs.

(** [add_player]; [u] is the draw of [random.random()].  It writes the
    spawn position into the player object. *)
Definition add_player (h : Store.t) (self : t) (player : Store.addr) (u : R) : Store.t * t :=
  let self := set_players (Dict.set (Player.id (Store.deref h player)) player (players self)) self in
  let spawn_radius := 20 in
  let angle := u * 2 * PI in
  let h := Store.update player (fun p =>
    Player.set_kinematics
      (mkVec3 (cos angle * spawn_radius) 0.5 (sin angle * spawn_radius))
      (mkVec3 0 angle 0) (Player.velocity p) (Player.last_update p) p) h in
  (h, self).

Definition remove_player (self : t) (player_id : string) : t :=
  if Dict.mem player_id (players self)
  then set_players (Dict.del player_id (players self)) self
  else self.

(** The ids collected by the list comprehension of the cleanup. *)
Definition inactive_players (h : Store.t) (self : t) : list string :=
  let inactive_threshold := current_time self - IZR (playerTimeout (config self)) in
  map fst (List.filter
             (fun kv => Rltb (Player.last_update (Store.deref h kv.2)) inactive_threshold)
             (players self)).

Definition _cleanup_inactive_players (h : Store.t) (self : t) : t :=
  fold_left remove_player (inactive_players h self) self.

(** [for x in l: acc = body(x, acc)] for a body that may raise. *)
Fixpoint for_opt {A S} (l : list A) (body : A -> S -> option S) (acc : S) : option S :=
  match l with
  | [] => Some acc
  | x :: rest => acc' ← body x acc; for_opt rest body acc'
  end.

(** The distance computed in the inner loop. *)
Definition distance3 (p1 p2 : Vec3) : option R :=
  py_sqrt ((vx p1 - vx p2) ^ 2 + (vy p1 - vy p2) ^ 2 + (vz p1 - vz p2) ^ 2).

Definition midpoint (p1 p2 : Vec3) : Vec3 :=
  mkVec3 ((vx p1 + vx p2) / 2) ((vy p1 + vy p2) / 2) ((vz p1 + vz p2) / 2).

(** The body of the inner loop of [_process_events]. *)
Definition check_pair (h : Store.t) (now : R) (a b : string * Store.addr)
  (events : list Event) : option (list Event) :=
  let '(player_id, player) := a in
  let '(other_id, other_player) := b in
  if negb (String.eqb player_id other_id) then
    let p1 := Player.position (Store.deref h player) in
    let p2 := Player.position (Store.deref h other_player) in
    distance ← distance3 p1 p2;
    if Rltb distance 2.0
    then Some (events ++ [mkEvent now (player_id, other_id) (midpoint p1 p2)])
    else Some events
  else Some events.

Definition _process_events (h : Store.t) (self : t) : option t :=
  evs ← for_opt (players self)
        (fun a evs => for_opt (players self) (check_pair h (current_time self) a) evs)
        (events self);
  Some (set_events evs self).

(** [update]; [now] is the reading of [time.time()].  The log line of
    every hundredth tick is not modelled. *)
Definition update (h : Store.t) (now : R) (self : t) : option t :=
  let self := set_clock now (tick_count self + 1) self in
  let self := _cleanup_inactive_players h self in
  _process_events h self.

(** What [get_public_state] exposes of a player. *)
Record PublicPlayer := mkPublicPlayer {
  pub_id : string; pub_name : string; pub_position : Vec3; pub_rotation : Vec3;
  pub_vehicleType : string }.

Record PublicState := mkPublicState {
  pub_players : Dict.t PublicPlayer; pub_time : R; pub_playerCount : Z }.

Definition get_public_state (h : Store.t) (self : t) : PublicState :=
  {| pub_players :=
       map (fun kv =>
              let player := Store.deref h kv.2 in
              (kv.1, mkPublicPlayer (Player.id player) (Player.name player)
                                    (Player.position player) (Player.rotation player)
                                    (Player.vehicle_type player)))
           (players self);
     pub_time := current_time self - start_time self;
     pub_playerCount := Z.of_nat (length (players self)) |}.

End GameState.

(** ** app.py *)

Module App.

(** Messages from the server. *)
Inductive Outbound :=
| MsgInit (playerId : string) (gameState : GameState.PublicState) (worldSeed : Z)
| MsgPlayerJoined (playerId playerName vehicleType : string) (position rotation : Vec3)
| MsgPlayerPosition (playerId : string) (position rotation velocity : Vec3)
| MsgChat (playerId playerName message : string)
| MsgPong (timestamp : option R)
| MsgPlayerLeft (playerId : string).

(** The first message of a connection, as a parsed JSON object. *)
Record Hello := mkHello {
  h_playerId : option string; h_playerName : option string; h_vehicleType : option string }.

(** A later message, as a parsed JSON object: the keys the handler reads. *)
Record Message := mkMessage {
  m_type : option string;
  m_position : option Vec3;
  m_rotation : option Vec3;
  m_velocity : option Vec3;
  m_message : option string;
  m_timestamp : option R }.

(** What [receive_text] followed by [json.loads] yields: the transport
    raises [WebSocketDisconnect], or it delivers a text, on which
    [json.loads] raises ([Text None]) or returns the parsed object. *)
Inductive Recv (A : Type) :=
| Disconnected
| Text (parsed : option A).
Arguments Disconnected {A}.
Arguments Text {A} parsed.

(** The exceptions the handler distinguishes. *)
Inductive Exn := WebSocketDisconnect | OtherException.

(** The module-level state, the object store, and the log of the
    [send_json] calls made so far (connection handle, message).  A send
    that fails inside [broadcast_message] is caught there and logged, so
    the calls made do not depend on failures. *)
Record World := mkWorld {
  heap : Store.t;
  connected_players : Dict.t Store.addr;
  game_state : GameState.t;
  sent : list (nat * Outbound) }.

Definition set_heap (h : Store.t) (w : World) : World :=
  mkWorld h (connected_players w) (game_state w) (sent w).
Definition set_connected (c : Dict.t Store.addr) (w : World) : World :=
  mkWorld (heap w) c (game_state w) (sent w).
Definition set_game_state (g : GameState.t) (w : World) : World :=
  mkWorld (heap w) (connected_players w) g (sent w).

(** [websocket.send_json(message)] *)
Definition send_json (websocket : nat) (message : Outbound) (w : World) : World :=
  mkWorld (heap w) (connected_players w) (game_state w) (sent w ++ [(websocket, message)]).

(** [player_id != exclude], where [exclude] may be [None]. *)
Definition differs (player_id : string) (exclude : option string) : bool :=
  match exclude with
  | None => true
  | Some e => negb (String.eqb player_id e)
  end.

Definition broadcast_message (message : Outbound) (exclude : option string) (w : World) : World :=
  fold_left
    (fun w kv =>
       if differs kv.1 exclude
       then send_json (Player.websocket (Store.deref (heap w) kv.2)) message w
       else w)
    (connected_players w) w.

(** [if player_id:] for a variable that is [None] or a string. *)
Definition truthy (player_id : option string) : bool :=
  match player_id with
  | None => false
  | Some s => negb (String.eqb s EmptyString)
  end.

(** The [except WebSocketDisconnect] clause. *)
Definition except_disconnect (player_id : option string) (w : World) : World :=
  match player_id with
  | Some pid =>
      if truthy player_id then
        let w := if Dict.mem pid (connected_players w)
                 then set_connected (Dict.del pid (connected_players w)) w else w in
        let w := set_game_state (GameState.remove_player (game_state w) pid) w in
        broadcast_message (MsgPlayerLeft pid) None w
      else w
  | None => w
  end.

(** The [except Exception] clause. *)
Definition except_exception (player_id : option string) (w : World) : World :=
  match player_id with
  | Some pid =>
      if truthy player_id && Dict.mem pid (connected_players w) then
        let w := set_connected (Dict.del pid (connected_players w)) w in
        set_game_state (GameState.remove_player (game_state w) pid) w
      else w
  | None => w
  end.

Definition handle (e : Exn) (player_id : option string) (w : World) : World :=
  match e with
  | WebSocketDisconnect => except_disconnect player_id w
  | OtherException => except_exception player_id w
  end.

(** The routing of one parsed message in the main loop. *)
Definition route (player_id : string) (player : Store.addr) (websocket : nat)
  (message : Message) (w : World) : World :=
  let message_type := default EmptyString (m_type message) in
  if String.eqb message_type "position" then
    let w := set_heap (Store.update player (fun p =>
               Player.set_kinematics
                 (default (Player.position p) (m_position message))
                 (default (Player.rotation p) (m_rotation message))
                 (default (Player.velocity p) (m_velocity message))
                 (GameState.current_time (game_state w)) p) (heap w)) w in
    let p := Store.deref (heap w) player in
    broadcast_message
      (MsgPlayerPosition player_id (Player.position p) (Player.rotation p) (Player.velocity p))
      (Some player_id) w
  else if String.eqb message_type "chat" then
    let p := Store.deref (heap w) player in
    broadcast_message
      (MsgChat player_id (Player.name p) (default EmptyString (m_message message))) None w
  else if String.eqb message_type "ping" then
    send_json websocket (MsgPong (m_timestamp message)) w
  else w.

(** One iteration of the main loop of [websocket_endpoint] for the
    connection of [player_id], followed by the [except] clause when the
    iteration raises.  The result says whether the handler goes on. *)
Definition loop_step (player_id : string) (player : Store.addr) (websocket : nat)
  (r : Recv Message) (w : World) : World * bool :=
  match r with
  | Disconnected => (handle WebSocketDisconnect (Some player_id) w, false)
  | Text None => (handle OtherException (Some player_id) w, false)
  | Text (Some message) => (route player_id player websocket message w, true)
  end.

(** The handshake of [websocket_endpoint]: [now] is the [time.time()] of
    [Player.__init__], [u] the draw of [add_player].  On success it
    returns the handler's [player_id] and [player]. *)
Definition connect (websocket : nat) (r : Recv Hello) (now u : R) (w : World)
  : World * option (string * Store.addr) :=
  match r with
  | Disconnected => (handle WebSocketDisconnect None w, None)
  | Text None => (handle OtherException None w, None)
  | Text (Some init_json) =>
      let n := pretty (Z.of_nat (length (connected_players w)) + 1)%Z in
      let player_id := default ("player_" +:+ n) (h_playerId init_json) in
      let player_name := default ("Player " +:+ n) (h_playerName init_json) in
      let vehicle_type := default "default" (h_vehicleType init_json) in
      let '(player, h) :=
        Store.alloc (Player.init player_id player_name vehicle_type websocket now) (heap w) in
      let w := set_heap h w in
      let w := set_connected (Dict.set player_id player (connected_players w)) w in
      let '(h, g) := GameState.add_player (heap w) (game_state w) player u in
      let w := set_game_state g (set_heap h w) in
      let w := send_json websocket
                 (MsgInit player_id (GameState.get_public_state (heap w) (game_state w))
                          (GameState.world_seed (game_state w))) w in
      let p := Store.deref (heap w) player in
      let w := broadcast_message
                 (MsgPlayerJoined player_id player_name vehicle_type
                                  (Player.position p) (Player.rotation p)) None w in
      (w, Some (player_id, player))
  end.

(** The main loop over the frames the connection receives, until an
    iteration raises. *)
Fixpoint main_loop (player_id : string) (player : Store.addr) (websocket : nat)
  (frames : list (Recv Message)) (w : World) : World :=
  match frames with
  | [] => w
  | r :: rest =>
      let '(w', go_on) := loop_step player_id player websocket r w in
      if go_on then main_loop player_id player websocket rest w' else w'
  end.

(** [websocket_endpoint] for one connection, run without the other
    coroutines in between: the handshake, then the main loop. *)
Definition websocket_endpoint (websocket : nat) (hello : Recv Hello)
  (frames : list (Recv Message)) (now u : R) (w : World) : World :=
  match connect websocket hello now u w with
  | (w', Some (player_id, player)) => main_loop player_id player websocket frames w'
  | (w', None) => w'
  end.

(** One iteration of [game_loop]; [now] is the clock read by [update]. *)
Definition game_loop_step (now : R) (w : World) : option World :=
  g ← GameState.update (heap w) now (game_state w);
  Some (set_game_state g w).

(** [game_loop] for the ticks at the given clock readings. *)
Fixpoint game_loop (clock : list R) (w : World) : option World :=
  match clock with
  | [] => Some w
  | now :: rest => w' ← game_loop_step now w; game_loop rest w'
  end.

End App.

(** ** Float overflow

    In the modules above a float is a real number and [**] is exact, so
    no call fails in it.  On Python floats [a ** 2] raises OverflowError
    when the square is beyond the largest float.  The two functions of
    the backend that use [**], [_point_to_line_distance] and
    [_process_events], and the callers of the second, are embedded here
    once more: with that exception, and with the name of the exception a
    failing operation raises.  The other float operations ([+], [-], [*])
    do not raise in Python and stay exact. *)

Module Checked.

Inductive Exn := ZeroDivisionError | ValueError | OverflowError.

(** The outcome of a call: it raises or it returns. *)
Inductive Result (A : Type) :=
| Raise (e : Exn)
| Return (a : A).
Arguments Raise {A} e.
Arguments Return {A} a.

#[global] Instance Result_ret : MRet Result := fun A a => Return a.
#[global] Instance Result_bind : MBind Result := fun A B k m =>
  match m with
  | Raise e => Raise e
  | Return a => k a
  end.

(** The largest float, [sys.float_info.max]: (2^53 - 1) * 2^971. *)
Definition float_max : R := IZR ((2 ^ 53 - 1) * 2 ^ 971).

(** [a ** n] on floats, for a literal exponent [n]. *)
Definition py_pow (a : R) (n : nat) : Result R :=
  if Rltb float_max (Rabs (a ^ n)) then Raise OverflowError else Return (a ^ n).

(** [a / b] on floats. *)
Definition py_div (a b : R) : Result R :=
  if Reqb b 0 then Raise ZeroDivisionError else Return (a / b).

(** [math.sqrt] *)
Definition py_sqrt (a : R) : Result R :=
  if Rltb a 0 then Raise ValueError else Return (sqrt a).

(** world_generator.py *)
Definition _point_to_line_distance (x z x1 z1 x2 z2 : R) : Result R :=
  let A := x2 - x1 in
  let B := z2 - z1 in
  let C := x - x1 in
  let D := z - z1 in
  let dot := A * A + B * B in
  if Reqb dot 0 then py_sqrt (C * C + D * D)
  else
    param ← py_div (A * C + B * D) dot;
    if Rltb param 0 then py_sqrt (C * C + D * D)
    else if Rltb 1 param then
      dx ← py_pow (x - x2) 2;
      dz ← py_pow (z - z2) 2;
      py_sqrt (dx + dz)
    else
      let proj_x := x1 + param * A in
      let proj_z := z1 + param * B in
      dx ← py_pow (x - proj_x) 2;
      dz ← py_pow (z - proj_z) 2;
      py_sqrt (dx + dz).

(** game_state.py *)

(** [for x in l: acc = body(x, acc)] for a body that may raise. *)
Fixpoint for_res {A S} (l : list A) (body : A -> S -> Result S) (acc : S) : Result S :=
  match l with
  | [] => Return acc
  | x :: rest => acc' ← body x acc; for_res rest body acc'
  end.

(** The distance computed in the inner loop: the three squares from
    left to right, then the root of their sum. *)
Definition distance3 (p1 p2 : Vec3) : Result R :=
  dx ← py_pow (vx p1 - vx p2) 2;
  dy ← py_pow (vy p1 - vy p2) 2;
  dz ← py_pow (vz p1 - vz p2) 2;
  py_sqrt (dx + dy + dz).

(** The body of the inner loop of [_process_events]. *)
Definition check_pair (h : Store.t) (now : R) (a b : string * Store.addr)
  (events : list GameState.Event) : Result (list GameState.Event) :=
  let '(player_id, player) := a in
  let '(other_id, other_player) := b in
  if negb (String.eqb player_id other_id) then
    let p1 := Player.position (Store.deref h player) in
    let p2 := Player.position (Store.deref h other_player) in
    distance ← distance3 p1 p2;
    if Rltb distance 2.0
    then Return (events ++ [GameState.mkEvent now (player_id, other_id)
                              (mkVec3 ((vx p1 + vx p2) / 2) ((vy p1 + vy p2) / 2)
                                      ((vz p1 + vz p2) / 2))])
    else Return events
  else Return events.

(** When the loops raise, the events appended so far stay in the list
    of the object; the state left behind by a call that raises is not
    part of the result here. *)
Definition _process_events (h : Store.t) (self : GameState.t) : Result GameState.t :=
  evs ← for_res (GameState.players self)
        (fun a evs => for_res (GameState.players self)
                        (check_pair h (GameState.current_time self) a) evs)
        (GameState.events self);
  Return (GameState.set_events evs self).

(** [update]; [now] is the reading of [time.time()]. *)
Definition update (h : Store.t) (now : R) (self : GameState.t) : Result GameState.t :=
  let self := GameState.set_clock now (GameState.tick_count self + 1) self in
  let self := GameState._cleanup_inactive_players h self in
  _process_events h self.

(** app.py: one iteration of [game_loop]. *)
Definition game_loop_step (now : R) (w : App.World) : Result App.World :=
  g ← update (App.heap w) now (App.game_state w);
  Return (App.set_game_state g w).

(** [game_loop] for the ticks at the given clock readings.  The loop
    has no handler: an exception of [update] ends it. *)
Fixpoint game_loop (clock : list R) (w : App.World) : Result App.World :=
  match clock with
  | [] => Return w
  | now :: rest => w' ← game_loop_step now w; game_loop rest w'
  end.

End Checked.

(** * Specification *)

(** ** Lap times *)

Section LapTimeSpec.
Import Player.

(** [m] is the least element of [l], or nothing when [l] is empty. *)
Definition least_of (m : option R) (l : list R) : Prop :=
  match m with
  | None => l = []
  | Some v => In v l /\ forall x, In x l -> v <= x
  end.

(** The durations that count for the best lap: the one already held
    and those of the laps completed since. *)
Definition recorded (p : Player.t) (times : list R) : list R :=
  option_list (best_lap_time p) ++ lap_durations (current_lap_start p) times.

(** A run of [pass_checkpoint] calls, each with its checkpoint id and
    its timestamp. *)
Definition passes (p : Player.t) (calls : list (Z * R)) : Player.t :=
  fold_left (fun p c => pass_checkpoint p c.1 c.2) calls p.

(** Timestamps that do not decrease, from the start of the current lap. *)
Fixpoint ascending (start : option R) (times : list R) : Prop :=
  match times with
  | [] => True
  | t :: rest =>
      match start with Some s => s <= t | None => True end /\ ascending (Some t) rest
  end.

End LapTimeSpec.

(** ** World generator *)

Section GeneratorSpec.
Import WorldGenerator.
Context {E : Externals}.

(** [heightmap[z][x]] *)
Definition sample (heightmap : list (list R)) (z x : Z) : option R :=
  py_index heightmap z ≫= (fun row => py_index row x).

(** A heightmap of [resolution + 1] rows of [resolution + 1] heights. *)
Definition is_grid (heightmap : list (list R)) (resolution : Z) : Prop :=
  Z.of_nat (length heightmap) = (resolution + 1)%Z /\
  Forall (fun row => Z.of_nat (length row) = (resolution + 1)%Z) heightmap.

(** The neighbours of index [k], with the boundary index reused. *)
Definition clamp_prev (k : Z) : Z := Z.max 0 (k - 1).
Definition clamp_next (k resolution : Z) : Z := Z.min resolution (k + 1).

(** The values [__init__] gives to the parameters of a generator. *)
Definition configured (self : t) : Prop :=
  world_size self = 10000%Z /\ chunk_size self = 500%Z /\ terrain_scale self = 0.02 /\
  terrain_height self = 100%Z /\ road_width self = 15%Z.

(** All segments of the network, in the order of the two loops. *)
Definition all_segments (roads : list Road) : list (Point2 * Point2) :=
  concat (map segments roads).

(** [m] is the distance from [(x, z)] to the nearest of [segs]:
    infinite without segments, else attained and least. *)
Definition nearest (x z : R) (segs : list (Point2 * Point2)) (m : Dist) : Prop :=
  match m with
  | Inf => segs = []
  | Fin d =>
      (exists p1 p2, In (p1, p2) segs /\
         _point_to_line_distance x z (px p1) (pz p1) (px p2) (pz p2) = Some d) /\
      (forall p1 p2 d', In (p1, p2) segs ->
         _point_to_line_distance x z (px p1) (pz p1) (px p2) (pz p2) = Some d' -> d <= d')
  end.

(** The first vertex of the main road, the same for every seed. *)
Definition main_road_start : Point2 := mkPoint2 8000 5000.

(** A tree that may be placed: far enough from the roads. *)
Definition tree_ok (self : t) (o : SceneObject) : Prop :=
  match o with
  | Tree _ pos _ _ =>
      exists f, _get_road_factor self (vx pos) (vz pos) = Some f /\ 0.9 <= f
  | Building _ _ _ _ => False
  end.

(** A building that may be placed: near a road but not on it, and
    aligned to the grid. *)
Definition building_ok (self : t) (o : SceneObject) : Prop :=
  match o with
  | Tree _ _ _ _ => False
  | Building _ pos rot _ =>
      (exists f, _get_road_factor self (vx pos) (vz pos) = Some f /\ 0.5 <= f <= 0.9) /\
      (exists k, (0 <= k <= 3)%Z /\ rot = (k * 90)%Z)
  end.

Definition is_tree (o : SceneObject) : bool :=
  match o with Tree _ _ _ _ => true | Building _ _ _ _ => false end.
Definition is_building (o : SceneObject) : bool := negb (is_tree o).

(** The two draws [num_trees] and [num_buildings] of [_generate_objects]
    for a chunk: the first two draws of the generator of the chunk. *)
Definition drawn_trees (self : t) (chunk_x chunk_z : Z) : Z :=
  (rng_randint 5 20 (rng_seed (seed self + py_hash chunk_x chunk_z)%Z)).1.
Definition drawn_buildings (self : t) (chunk_x chunk_z : Z) : Z :=
  (rng_randint 0 2 (rng_randint 5 20 (rng_seed (seed self + py_hash chunk_x chunk_z)%Z)).2).1.

(** A string without a comma. *)
Fixpoint no_comma (s : string) : Prop :=
  match s with
  | EmptyString => True
  | String c rest => c <> ","%char /\ no_comma rest
  end.

(** The cache holds, under the key of a chunk, what the generation of
    that chunk returns. *)
Definition cache_sound (g0 : t) (cache : gmap string Chunk) : Prop :=
  forall cx cz chunk,
    cache !! chunk_key cx cz = Some chunk -> _generate_chunk g0 cx cz = Some chunk.

(** A point of the world square. *)
Definition in_world (p : Point2) : Prop :=
  0 <= px p <= 10000 /\ 0 <= pz p <= 10000.

(** A road of the network: at least three vertices, all in the world. *)
Definition road_ok (road : Road) : Prop :=
  (3 <= length road <= 37)%nat /\ Forall in_world road.

(** A tree as [_generate_objects] builds it for the chunk at
    [(world_x, world_z)]: of a known kind, inside the chunk, on the
    terrain, with rotation and scale in their ranges. *)
Definition tree_placed (self : t) (world_x world_z : Z) (o : SceneObject) : Prop :=
  match o with
  | Tree ty pos rot sc =>
      In ty ["pine"; "oak"; "palm"]%string /\
      IZR world_x <= vx pos < IZR world_x + 500 /\
      IZR world_z <= vz pos < IZR world_z + 500 /\
      get_terrain_height self (vx pos) (vz pos) = Some (vy pos) /\
      0 <= rot < 360 /\ 0.8 <= sc < 1.2
  | Building _ _ _ _ => False
  end.

(** A building as [_generate_objects] builds it. *)
Definition building_placed (self : t) (world_x world_z : Z) (o : SceneObject) : Prop :=
  match o with
  | Tree _ _ _ _ => False
  | Building ty pos rot sc =>
      In ty ["house"; "shop"; "garage"]%string /\
      IZR world_x <= vx pos < IZR world_x + 500 /\
      IZR world_z <= vz pos < IZR world_z + 500 /\
      get_terrain_height self (vx pos) (vz pos) = Some (vy pos) /\
      1 <= sc < 1.5
  end.

(** The box test of the road loop, as a proposition. *)
Definition touches_chunk (min_x max_x min_z max_z : R) (p1 p2 : Point2) : Prop :=
  (min_x <= px p1 <= max_x \/ min_x <= px p2 <= max_x) /\
  (min_z <= pz p1 <= max_z \/ min_z <= pz p2 <= max_z).

End GeneratorSpec.

(** ** Coordinator *)

Section TickSpec.
Import GameState.

(** A player whose last message is older than the timeout. *)
Definition stale (h : Store.t) (self : t) (a : Store.addr) : Prop :=
  Player.last_update (Store.deref h a) < current_time self - IZR (playerTimeout (config self)).

(** The distance between the players at two addresses. *)
Definition distance (h : Store.t) (pa pb : Store.addr) : R :=
  sqrt ((vx (Player.position (Store.deref h pa)) - vx (Player.position (Store.deref h pb))) ^ 2
        + (vy (Player.position (Store.deref h pa)) - vy (Player.position (Store.deref h pb))) ^ 2
        + (vz (Player.position (Store.deref h pa)) - vz (Player.position (Store.deref h pb))) ^ 2).

(** Whether the inner loop records an event for the entries [a], [b]. *)
Definition collides (h : Store.t) (a b : string * Store.addr) : bool :=
  negb (String.eqb a.1 b.1) && Rltb (distance h a.2 b.2) 2.

(** The event it records. *)
Definition collision_event (h : Store.t) (now : R) (a b : string * Store.addr) : Event :=
  mkEvent now (a.1, b.1)
          (midpoint (Player.position (Store.deref h a.2)) (Player.position (Store.deref h b.2))).

(** The events of one iteration of the inner loop. *)
Definition pair_events (h : Store.t) (now : R) (a b : string * Store.addr) : list Event :=
  if collides h a b then [collision_event h now a b] else [].

(** The events of one pass of [_process_events]. *)
Definition collisions (h : Store.t) (now : R) (ps : Dict.t Store.addr) : list Event :=
  flat_map (fun a => flat_map (pair_events h now a) ps) ps.

(** The events of a list that are recorded for the ordered pair [(a, b)]. *)
Definition events_of (a b : string) (l : list Event) : list Event :=
  List.filter (fun e => String.eqb (e_players e).1 a && String.eqb (e_players e).2 b) l.

(** The point halfway between two positions. *)
Definition halfway (p1 p2 : Vec3) : Vec3 :=
  mkVec3 ((vx p1 + vx p2) / 2) ((vy p1 + vy p2) / 2) ((vz p1 + vz p2) / 2).

(** A number whose square is within the range of the floats. *)
Definition squarable (a : R) : Prop := a ^ 2 <= Checked.float_max.

(** Two positions whose distance can be computed: the three squared
    differences of their coordinates are within the range of the floats. *)
Definition comparable (p1 p2 : Vec3) : Prop :=
  squarable (vx p1 - vx p2) /\ squarable (vy p1 - vy p2) /\ squarable (vz p1 - vz p2).

(** Whether one iteration of the inner loop can be carried out: the
    two entries are of the same player, or of players at comparable
    positions. *)
Definition pair_ok (h : Store.t) (a b : string * Store.addr) : Prop :=
  a.1 = b.1 \/
  comparable (Player.position (Store.deref h a.2)) (Player.position (Store.deref h b.2)).

(** The positions of any two different players of a table are comparable. *)
Definition within_range (h : Store.t) (ps : Dict.t Store.addr) : Prop :=
  forall a b pa pb, In (a, pa) ps -> In (b, pb) ps -> a <> b ->
    comparable (Player.position (Store.deref h pa)) (Player.position (Store.deref h pb)).

(** The players a tick at clock reading [now] keeps: those whose last
    update is not older than the timeout. *)
Definition remaining (h : Store.t) (now : R) (self : t) : Dict.t Store.addr :=
  List.filter (fun kv => negb (Rltb (Player.last_update (Store.deref h kv.2))
                                    (now - IZR (playerTimeout (config self)))))
              (players self).

End TickSpec.

(** ** Gateway *)

Section GatewaySpec.
Import App.

(** The recipients of a broadcast: the connections of all entries of
    the table but the excluded one, in the order of the table. *)
Definition recipients (h : Store.t) (table : Dict.t Store.addr) (exclude : option string)
  : list nat :=
  map (fun kv => Player.websocket (Store.deref h kv.2))
      (List.filter (fun kv => differs kv.1 exclude) table).

(** The number of [playerLeft] messages for [pid] among sends. *)
Definition count_left (pid : string) (l : list (nat * Outbound)) : nat :=
  length (List.filter (fun m => match m.2 with
                                | MsgPlayerLeft q => String.eqb q pid
                                | _ => false
                                end) l).

(** The id and the name the handshake gives to a player: the ones of
    the first message or, for a missing one, a placeholder numbered by
    the size of the connection table. *)
Definition joining_id (hello : Hello) (w : World) : string :=
  default ("player_" +:+ pretty (Z.of_nat (length (connected_players w)) + 1)%Z)
          (h_playerId hello).
Definition joining_name (hello : Hello) (w : World) : string :=
  default ("Player " +:+ pretty (Z.of_nat (length (connected_players w)) + 1)%Z)
          (h_playerName hello).

(** The player object after a successful handshake: a new object with
    its spawn position. *)
Definition joined_player (websocket : nat) (hello : Hello) (now u : R) (w : World)
  : Player.t :=
  Player.set_kinematics
    (mkVec3 (cos (u * 2 * PI) * 20) 0.5 (sin (u * 2 * PI) * 20))
    (mkVec3 0 (u * 2 * PI) 0) Player.zero3 now
    (Player.init (joining_id hello w) (joining_name hello w)
                 (default "default"%string (h_vehicleType hello)) websocket now).

(** A frame on which the iteration of the main loop raises. *)
Definition raises (r : Recv Message) : Prop :=
  match r with
  | Text (Some _) => False
  | _ => True
  end.

End GatewaySpec.

(** ** Reference instances *)

(** The simplest collaborators that meet their contracts: flat noise, a
    generator that always draws the least value, a constant hash.  It
    makes statements about all environments checkable on one of them. *)
Definition still : WorldGenerator.Externals :=
  {| WorldGenerator.pnoise2 := fun _ _ _ _ _ _ _ _ => 0;
     WorldGenerator.Rng := unit;
     WorldGenerator.rng_seed := fun _ => tt;
     WorldGenerator.rng_random := fun s => (0, s);
     WorldGenerator.rng_randint := fun a _ s => (a, s);
     WorldGenerator.rng_choice := fun _ s => (0%nat, s);
     WorldGenerator.py_hash := fun _ _ => 0%Z |}.

(** A generator with the parameters of [__init__] and one straight road. *)
Definition one_road : WorldGenerator.t :=
  WorldGenerator.mk 42 10000 500 0.02 100 15 0.5 ∅
    [[WorldGenerator.mkPoint2 0 0; WorldGenerator.mkPoint2 10 0]].

Definition alice : Player.t := Player.init "alice" "Alice" "default" 1 0.
Definition bob : Player.t := Player.init "bob" "Bob" "sports" 2 0.

(** Both players joined at time 0 and have been silent since. *)
Definition lobby : App.World :=
  {| App.heap := [alice; bob];
     App.connected_players := [("alice", 0%nat); ("bob", 1%nat)];
     App.game_state :=
       GameState.set_players [("alice", 0%nat); ("bob", 1%nat)] (GameState.init 0 7);
     App.sent := [] |}.

(** Alice reports a new position and nothing else. *)
Definition move : App.Message :=
  App.mkMessage (Some "position"%string) (Some (mkVec3 1 2 3)) None None None None.

(** * Verification *)

(** ** Numerics *)

Section PyFacts.

Lemma Rltb_true a b : a < b -> Rltb a b = true.
Proof. intros H. unfold Rltb. destruct (Rlt_dec a b); [reflexivity | contradiction]. Qed.

Lemma Rltb_false a b : b <= a -> Rltb a b = false.
Proof. intros H. unfold Rltb. destruct (Rlt_dec a b); [lra | reflexivity]. Qed.

Lemma Rltb_lt a b : Rltb a b = true <-> a < b.
Proof. unfold Rltb. destruct (Rlt_dec a b); split; intros H; congruence || assumption. Qed.

Lemma Rltb_ge a b : Rltb a b = false <-> b <= a.
Proof.
  unfold Rltb. destruct (Rlt_dec a b); split; intros H; congruence || lra.
Qed.

Lemma Reqb_true a b : a = b -> Reqb a b = true.
Proof. intros H. unfold Reqb. destruct (Req_dec_T a b); [reflexivity | contradiction]. Qed.

Lemma Reqb_false a b : a <> b -> Reqb a b = false.
Proof. intros H. unfold Reqb. destruct (Req_dec_T a b); [contradiction | reflexivity]. Qed.

Lemma Reqb_eq a b : Reqb a b = true <-> a = b.
Proof. unfold Reqb. destruct (Req_dec_T a b); split; intros H; congruence || assumption. Qed.

Lemma py_sqrt_nonneg a : 0 <= a -> py_sqrt a = Some (sqrt a).
Proof. intros H. unfold py_sqrt. rewrite Rltb_false; [reflexivity | exact H]. Qed.

Lemma py_div_nonzero a b : b <> 0 -> py_div a b = Some (a / b).
Proof. intros H. unfold py_div. rewrite Reqb_false; [reflexivity | exact H]. Qed.

End PyFacts.

(** ** Lap times (player.py) *)

Section LapTimes.
Import Player.

Lemma update_lap_time_start p t :
  current_lap_start (update_lap_time p t) = Some t.
Proof.
  unfold update_lap_time. destruct (current_lap_start p); [|reflexivity].
  destruct (is_new_best _ _); reflexivity.
Qed.

Lemma update_lap_time_first p t :
  current_lap_start p = None -> best_lap_time (update_lap_time p t) = best_lap_time p.
Proof. intros H. unfold update_lap_time. rewrite H. reflexivity. Qed.

Lemma update_lap_time_lap p t s :
  current_lap_start p = Some s ->
  best_lap_time (update_lap_time p t) =
    if is_new_best (t - s) (best_lap_time p) then Some (t - s) else best_lap_time p.
Proof.
  intros H. unfold update_lap_time. rewrite H.
  destruct (is_new_best _ _); reflexivity.
Qed.

Lemma update_lap_time_cases p t :
  best_lap_time (update_lap_time p t) = best_lap_time p \/
  exists s, current_lap_start p = Some s /\
            best_lap_time (update_lap_time p t) = Some (t - s) /\
            forall b, best_lap_time p = Some b -> t - s < b.
Proof.
  destruct (current_lap_start p) as [s|] eqn:Hs.
  - rewrite (update_lap_time_lap _ _ _ Hs).
    destruct (is_new_best (t - s) (best_lap_time p)) eqn:Hb; [|left; reflexivity].
    right. exists s. repeat split.
    intros b Hbest. rewrite Hbest in Hb. simpl in Hb. apply Rltb_lt in Hb. exact Hb.
  - left. apply update_lap_time_first. exact Hs.
Qed.

Lemma update_lap_time_keeps p t b :
  best_lap_time p = Some b ->
  exists b', best_lap_time (update_lap_time p t) = Some b' /\ b' <= b.
Proof.
  intros Hb. destruct (update_lap_time_cases p t) as [H | (s & _ & H & Hlt)].
  - exists b. rewrite H. split; [exact Hb | lra].
  - exists (t - s). split; [exact H|]. specialize (Hlt b Hb). lra.
Qed.

Lemma crossings_keeps times : forall p b,
  best_lap_time p = Some b ->
  exists b', best_lap_time (crossings p times) = Some b' /\ b' <= b.
Proof.
  induction times as [|t times IH]; intros p b Hb; simpl.
  - exists b. split; [exact Hb | lra].
  - destruct (update_lap_time_keeps p t b Hb) as (b1 & H1 & Hle1).
    destruct (IH _ _ H1) as (b2 & H2 & Hle2).
    exists b2. split; [exact H2 | lra].
Qed.

Lemma recorded_cons p t times :
  forall m, least_of m (recorded (update_lap_time p t) times) ->
  least_of m (recorded p (t :: times)).
Proof.
  intros m. unfold recorded. simpl. rewrite update_lap_time_start.
  set (rest := lap_durations (Some t) times).
  destruct (current_lap_start p) as [s|] eqn:Hs.
  - rewrite (update_lap_time_lap _ _ _ Hs).
    destruct (best_lap_time p) as [b|] eqn:Hb; simpl.
    + destruct (Rltb (t - s) b) eqn:Hlt; simpl.
      * apply Rltb_lt in Hlt. destruct m as [v|]; simpl; [|discriminate].
        intros [Hin Hmin]. split.
        { right. exact Hin. }
        intros x [Hx|Hx]; [|apply Hmin; exact Hx].
        subst x. specialize (Hmin (t - s) (or_introl eq_refl)). lra.
      * apply Rltb_ge in Hlt. destruct m as [v|]; simpl; [|discriminate].
        intros [Hin Hmin]. split.
        { destruct Hin as [Hin|Hin]; [left; exact Hin | right; right; exact Hin]. }
        intros x [Hx|[Hx|Hx]].
        { apply Hmin. left. exact Hx. }
        { subst x. specialize (Hmin b (or_introl eq_refl)). lra. }
        { apply Hmin. right. exact Hx. }
    + destruct m as [v|]; simpl; [|discriminate].
      intros [Hin Hmin]. split; assumption.
  - rewrite (update_lap_time_first _ _ Hs). intros H. exact H.
Qed.

Lemma crossings_least times : forall p,
  least_of (best_lap_time (crossings p times)) (recorded p times).
Proof.
  induction times as [|t times IH]; intros p.
  - unfold recorded. simpl. rewrite app_nil_r.
    destruct (best_lap_time p) as [b|]; simpl; [|reflexivity].
    split; [left; reflexivity|]. intros x [Hx|[]]. subst. lra.
  - apply recorded_cons. apply (IH (update_lap_time p t)).
Qed.

(** C10. [update_lap_time] never makes [best_lap_time] worse.  A call
    leaves it unchanged or replaces it by the duration of the lap just
    completed, which is then strictly smaller than the value it replaces;
    a best lap time that is set stays set and does not increase over any
    run of calls; and after any run of calls it is the least of the lap
    durations recorded (together with the value held before the run, if
    any), so for a new player it is the minimum lap duration so far.  The
    order of the timestamps plays no role. *)
Theorem best_lap_time_is_minimum (p : Player.t) (times : list R) :
  (forall t,
     best_lap_time (update_lap_time p t) = best_lap_time p \/
     exists s, current_lap_start p = Some s /\
               best_lap_time (update_lap_time p t) = Some (t - s) /\
               forall b, best_lap_time p = Some b -> t - s < b) /\
  (forall b, best_lap_time p = Some b ->
     exists b', best_lap_time (crossings p times) = Some b' /\ b' <= b) /\
  least_of (best_lap_time (crossings p times)) (recorded p times) /\
  (best_lap_time p = None -> current_lap_start p = None ->
   least_of (best_lap_time (crossings p times)) (lap_durations None times)).
Proof.
  split; [|split; [|split]].
  - intros t. apply update_lap_time_cases.
  - intros b. apply crossings_keeps.
  - apply crossings_least.
  - intros Hb Hs. pose proof (crossings_least times p) as H.
    unfold recorded in H. rewrite Hb, Hs in H. exact H.
Qed.

End LapTimes.

(** ** Distances and road factor (world_generator.py) *)

Section Distance.
Import WorldGenerator.

Lemma sum_squares_nonneg a b : 0 <= a * a + b * b.
Proof. nra. Qed.

Lemma sum_pow2_nonneg a b : 0 <= a ^ 2 + b ^ 2.
Proof. pose proof (pow2_ge_0 a). pose proof (pow2_ge_0 b). lra. Qed.

(** The value on the branch taken when the segment is a single point. *)
Lemma point_to_line_distance_point x z x1 z1 x2 z2 :
  (x2 - x1) * (x2 - x1) + (z2 - z1) * (z2 - z1) = 0 ->
  _point_to_line_distance x z x1 z1 x2 z2
  = Some (sqrt ((x - x1) * (x - x1) + (z - z1) * (z - z1))).
Proof.
  intros H. unfold _point_to_line_distance. cbv zeta.
  rewrite (Reqb_true _ _ H). apply py_sqrt_nonneg, sum_squares_nonneg.
Qed.

(** With exact squares no path of the function fails, and the result
    is a distance. *)
Lemma point_to_line_distance_some x z x1 z1 x2 z2 :
  exists d, _point_to_line_distance x z x1 z1 x2 z2 = Some d /\ 0 <= d.
Proof.
  unfold _point_to_line_distance. cbv zeta.
  set (dot := (x2 - x1) * (x2 - x1) + (z2 - z1) * (z2 - z1)).
  destruct (Reqb dot 0) eqn:Hdot.
  - rewrite py_sqrt_nonneg by apply sum_squares_nonneg.
    eexists. split; [reflexivity | apply sqrt_pos].
  - assert (dot <> 0) as Hne.
    { intros Heq. apply Reqb_eq in Heq. congruence. }
    rewrite (py_div_nonzero _ _ Hne). simpl.
    destruct (Rltb _ 0).
    { rewrite py_sqrt_nonneg by apply sum_squares_nonneg.
      eexists. split; [reflexivity | apply sqrt_pos]. }
    destruct (Rltb 1 _).
    { rewrite py_sqrt_nonneg by apply sum_pow2_nonneg.
      eexists. split; [reflexivity | apply sqrt_pos]. }
    rewrite py_sqrt_nonneg by apply sum_pow2_nonneg.
    eexists. split; [reflexivity | apply sqrt_pos].
Qed.

End Distance.

(** ** Normals (world_generator.py) *)

Section Normals.
Import WorldGenerator.

Lemma py_index_in_range {A} (l : list A) (i : Z) :
  (0 <= i < Z.of_nat (length l))%Z -> exists a, py_index l i = Some a.
Proof.
  intros [H0 H1]. unfold py_index.
  destruct (Z.leb_spec 0 i); [|lia].
  apply lookup_lt_is_Some_2. lia.
Qed.

Lemma sample_in_grid heightmap resolution z x :
  is_grid heightmap resolution ->
  (0 <= z <= resolution)%Z -> (0 <= x <= resolution)%Z ->
  exists h, sample heightmap z x = Some h.
Proof.
  intros [Hlen Hrows] Hz Hx. unfold sample.
  destruct (py_index_in_range heightmap z) as [row Hrow]; [lia|].
  rewrite Hrow. simpl.
  assert (Z.of_nat (length row) = (resolution + 1)%Z) as Hr.
  { unfold py_index in Hrow. destruct (Z.leb_spec 0 z); [|lia].
    rewrite Forall_forall in Hrows. apply Hrows.
    eapply list_elem_of_lookup_2. exact Hrow. }
  apply py_index_in_range. lia.
Qed.

Lemma normal_length_pos a b : 2 <= sqrt (a * a + 4 + b * b).
Proof.
  replace 2 with (sqrt 4) at 1.
  - apply sqrt_le_1_alt. nra.
  - replace 4 with (2 * 2) by lra. apply sqrt_square. lra.
Qed.

Lemma normalised_is_unit a b :
  let len := sqrt (a * a + 4 + b * b) in
  (a / len) ^ 2 + (2 / len) ^ 2 + (b / len) ^ 2 = 1 /\ 0 < 2 / len.
Proof.
  intros len. pose proof (normal_length_pos a b) as Hlen. fold len in Hlen.
  assert (len * len = a * a + 4 + b * b) as Hsq.
  { apply sqrt_sqrt. nra. }
  split.
  - replace ((a / len) ^ 2 + (2 / len) ^ 2 + (b / len) ^ 2)
      with ((a * a + 4 + b * b) / (len * len)) by (field; lra).
    rewrite <- Hsq. field. lra.
  - apply Rdiv_lt_0_compat; lra.
Qed.

(** The vector computed from the four samples. *)
Lemma calculate_normal_eq heightmap x z resolution h_up h_down h_left h_right :
  sample heightmap (if (z =? 0)%Z then z else (z - 1)%Z) x = Some h_up ->
  sample heightmap (if (z =? resolution)%Z then z else (z + 1)%Z) x = Some h_down ->
  sample heightmap z (if (x =? 0)%Z then x else (x - 1)%Z) = Some h_left ->
  sample heightmap z (if (x =? resolution)%Z then x else (x + 1)%Z) = Some h_right ->
  let nx := h_left - h_right in
  let nz := h_up - h_down in
  let len := sqrt (nx * nx + 4 + nz * nz) in
  _calculate_normal heightmap x z resolution = Some (mkVec3 (nx / len) (2 / len) (nz / len)).
Proof.
  intros Hu Hd Hl Hr nx nz len. unfold _calculate_normal. cbv zeta.
  unfold sample in Hu, Hd, Hl, Hr. rewrite Hu, Hd, Hl, Hr. simpl.
  fold nx nz. pose proof (normal_length_pos nx nz) as Hlen. fold len in Hlen.
  rewrite py_sqrt_nonneg by nra. simpl. fold len.
  rewrite !py_div_nonzero by lra. reflexivity.
Qed.

(** Whatever the heightmap, a normal that is returned is a unit vector
    that points upwards. *)
Lemma calculate_normal_unit heightmap x z resolution n :
  _calculate_normal heightmap x z resolution = Some n ->
  vx n ^ 2 + vy n ^ 2 + vz n ^ 2 = 1 /\ 0 < vy n.
Proof.
  intros H.
  destruct (sample heightmap (if (z =? 0)%Z then z else (z - 1)%Z) x) as [hu|] eqn:Hu;
  [ destruct (sample heightmap (if (z =? resolution)%Z then z else (z + 1)%Z) x)
      as [hd|] eqn:Hd;
    [ destruct (sample heightmap z (if (x =? 0)%Z then x else (x - 1)%Z)) as [hl|] eqn:Hl;
      [ destruct (sample heightmap z (if (x =? resolution)%Z then x else (x + 1)%Z))
          as [hr|] eqn:Hr | ] | ] | ].
  - rewrite (calculate_normal_eq _ _ _ _ _ _ _ _ Hu Hd Hl Hr) in H.
    injection H as <-. apply normalised_is_unit.
  - unfold _calculate_normal, sample in *. cbv zeta in H.
    rewrite Hu in H. cbn [mbind option_bind] in H.
    rewrite Hd in H. cbn [mbind option_bind] in H.
    rewrite Hl in H. cbn [mbind option_bind] in H.
    rewrite Hr in H. discriminate.
  - unfold _calculate_normal, sample in *. cbv zeta in H.
    rewrite Hu in H. cbn [mbind option_bind] in H.
    rewrite Hd in H. cbn [mbind option_bind] in H.
    rewrite Hl in H. discriminate.
  - unfold _calculate_normal, sample in *. cbv zeta in H.
    rewrite Hu in H. cbn [mbind option_bind] in H.
    rewrite Hd in H. discriminate.
  - unfold _calculate_normal, sample in *. cbv zeta in H.
    rewrite Hu in H. discriminate.
Qed.

Lemma clamp_prev_eq k : (0 <= k)%Z -> (if (k =? 0)%Z then k else (k - 1)%Z) = clamp_prev k.
Proof. intros H. unfold clamp_prev. destruct (Z.eqb_spec k 0); lia. Qed.

Lemma clamp_next_eq k resolution :
  (k <= resolution)%Z ->
  (if (k =? resolution)%Z then k else (k + 1)%Z) = clamp_next k resolution.
Proof. intros H. unfold clamp_next. destruct (Z.eqb_spec k resolution); lia. Qed.

(** On a grid, the normal at a vertex is the normalised central
    difference of the clamped neighbours. *)
Lemma calculate_normal_on_grid (heightmap : list (list R)) (x z resolution : Z) :
  is_grid heightmap resolution ->
  (0 <= x <= resolution)%Z -> (0 <= z <= resolution)%Z ->
  exists h_left h_right h_up h_down n,
    sample heightmap z (clamp_prev x) = Some h_left /\
    sample heightmap z (clamp_next x resolution) = Some h_right /\
    sample heightmap (clamp_prev z) x = Some h_up /\
    sample heightmap (clamp_next z resolution) x = Some h_down /\
    _calculate_normal heightmap x z resolution = Some n /\
    (let len := sqrt ((h_left - h_right) * (h_left - h_right) + 4
                      + (h_up - h_down) * (h_up - h_down)) in
     n = mkVec3 ((h_left - h_right) / len) (2 / len) ((h_up - h_down) / len)) /\
    vx n ^ 2 + vy n ^ 2 + vz n ^ 2 = 1 /\ 0 < vy n.
Proof.
  intros Hgrid Hx Hz.
  destruct (sample_in_grid heightmap resolution z (clamp_prev x) Hgrid) as [hl Hl];
    [lia | unfold clamp_prev; lia |].
  destruct (sample_in_grid heightmap resolution z (clamp_next x resolution) Hgrid) as [hr Hr];
    [lia | unfold clamp_next; lia |].
  destruct (sample_in_grid heightmap resolution (clamp_prev z) x Hgrid) as [hu Hu];
    [unfold clamp_prev; lia | lia |].
  destruct (sample_in_grid heightmap resolution (clamp_next z resolution) x Hgrid) as [hd Hd];
    [unfold clamp_next; lia | lia |].
  exists hl, hr, hu, hd. eexists.
  repeat (split; [eassumption|]).
  split.
  { apply calculate_normal_eq.
    - rewrite clamp_prev_eq by lia. exact Hu.
    - rewrite clamp_next_eq by lia. exact Hd.
    - rewrite clamp_prev_eq by lia. exact Hl.
    - rewrite clamp_next_eq by lia. exact Hr. }
  split; [reflexivity|].
  apply (normalised_is_unit (hl - hr) (hu - hd)).
Qed.

End Normals.

(** ** Road factor and terrain height (world_generator.py) *)

Section RoadFactor.
Import WorldGenerator.
Context {E : Externals}.

(** [segments] lists the pairs [road[i], road[i + 1]] by index. *)
Lemma segments_lookup (road : Road) : forall (i : nat) p1 p2,
  segments road !! i = Some (p1, p2) <-> road !! i = Some p1 /\ road !! S i = Some p2.
Proof.
  induction road as [|a road IH]; intros i p1 p2.
  - simpl. split; [discriminate | intros [H _]; discriminate].
  - destruct road as [|b rest].
    + simpl. split; [discriminate|]. intros [_ H]. discriminate.
    + change (segments (a :: b :: rest)) with ((a, b) :: segments (b :: rest)).
      destruct i as [|i].
      * simpl. split.
        { intros [= -> ->]. split; reflexivity. }
        { intros [[= ->] [= ->]]. reflexivity. }
      * change (((a, b) :: segments (b :: rest)) !! S i) with (segments (b :: rest) !! i).
        rewrite IH. reflexivity.
Qed.

Lemma min_over_roads_segments x z roads : forall m,
  min_over_roads x z roads m = min_over_segments x z (all_segments roads) m.
Proof.
  induction roads as [|road roads IH]; intros m; simpl; [reflexivity|].
  unfold all_segments. simpl. fold (all_segments roads).
  generalize (segments road) m. clear m.
  induction l as [|[p1 p2] l IHl]; intros m; simpl.
  - apply IH.
  - destruct (_point_to_line_distance _ _ _ _ _ _); simpl; [apply IHl | reflexivity].
Qed.

(** The loop started from a finite minimum. *)
Lemma min_over_segments_fin x z segs : forall d0,
  exists d, min_over_segments x z segs (Fin d0) = Some (Fin d) /\ d <= d0 /\
    (d = d0 \/ exists p1 p2, In (p1, p2) segs /\
        _point_to_line_distance x z (px p1) (pz p1) (px p2) (pz p2) = Some d) /\
    (forall p1 p2 d', In (p1, p2) segs ->
        _point_to_line_distance x z (px p1) (pz p1) (px p2) (pz p2) = Some d' -> d <= d').
Proof.
  induction segs as [|[p1 p2] segs IH]; intros d0; simpl.
  - exists d0. split; [reflexivity|]. split; [lra|]. split; [left; reflexivity|].
    intros ? ? ? [].
  - destruct (point_to_line_distance_some x z (px p1) (pz p1) (px p2) (pz p2))
      as (d1 & Hd1 & _).
    rewrite Hd1. simpl.
    destruct (Rltb d1 d0) eqn:Hlt.
    + apply Rltb_lt in Hlt.
      destruct (IH d1) as (d & Hd & Hle & Hat & Hmin).
      exists d. split; [exact Hd|]. split; [lra|]. split.
      * right. destruct Hat as [-> | (q1 & q2 & Hin & Hq)].
        { exists p1, p2. split; [left; reflexivity | exact Hd1]. }
        { exists q1, q2. split; [right; exact Hin | exact Hq]. }
      * intros q1 q2 d' [Heq | Hin] Hq.
        { injection Heq as -> ->. rewrite Hd1 in Hq. injection Hq as <-. exact Hle. }
        { eapply Hmin; eassumption. }
    + apply Rltb_ge in Hlt.
      destruct (IH d0) as (d & Hd & Hle & Hat & Hmin).
      exists d. split; [exact Hd|]. split; [lra|]. split.
      * destruct Hat as [-> | (q1 & q2 & Hin & Hq)]; [left; reflexivity|].
        right. exists q1, q2. split; [right; exact Hin | exact Hq].
      * intros q1 q2 d' [Heq | Hin] Hq.
        { injection Heq as -> ->. rewrite Hd1 in Hq. injection Hq as <-. lra. }
        { eapply Hmin; eassumption. }
Qed.

(** The loop of [_get_road_factor] finds the nearest segment. *)
Lemma min_over_segments_nearest x z segs :
  exists m, min_over_segments x z segs Inf = Some m /\ nearest x z segs m.
Proof.
  destruct segs as [|[p1 p2] segs]; simpl.
  - exists Inf. split; reflexivity.
  - destruct (point_to_line_distance_some x z (px p1) (pz p1) (px p2) (pz p2))
      as (d1 & Hd1 & _).
    rewrite Hd1. simpl.
    destruct (min_over_segments_fin x z segs d1) as (d & Hd & Hle & Hat & Hmin).
    exists (Fin d). split; [exact Hd|]. split.
    + destruct Hat as [-> | (q1 & q2 & Hin & Hq)].
      * exists p1, p2. split; [left; reflexivity | exact Hd1].
      * exists q1, q2. split; [right; exact Hin | exact Hq].
    + intros q1 q2 d' [Heq | Hin] Hq.
      * injection Heq as -> ->. rewrite Hd1 in Hq. injection Hq as <-. exact Hle.
      * eapply Hmin; eassumption.
Qed.

Lemma nearest_nonneg x z segs d : nearest x z segs (Fin d) -> 0 <= d.
Proof.
  intros [(p1 & p2 & _ & Hd) _].
  destruct (point_to_line_distance_some x z (px p1) (pz p1) (px p2) (pz p2))
    as (d' & Hd' & Hpos).
  congruence.
Qed.

(** [_get_road_factor] in terms of the nearest distance. *)
Lemma get_road_factor_eq (self : t) x z :
  road_width self = 15%Z ->
  exists m, min_over_roads x z (roads self) Inf = Some m /\
    nearest x z (all_segments (roads self)) m /\
    _get_road_factor self x z =
      Some (match m with Inf => 1 | Fin d => Rmin 1 (d / 15) end).
Proof.
  intros Hrw. unfold _get_road_factor.
  rewrite min_over_roads_segments.
  destruct (min_over_segments_nearest x z (all_segments (roads self))) as (m & Hm & Hnear).
  exists m. rewrite Hm. split; [reflexivity|]. split; [exact Hnear|]. simpl.
  destruct m as [|d]; [f_equal; lra|]. rewrite Hrw.
  destruct (Rltb 15 d) eqn:Hlt.
  - apply Rltb_lt in Hlt. rewrite Rmin_left; [f_equal; lra | lra].
  - apply Rltb_ge in Hlt. rewrite py_div_nonzero by lra.
    rewrite Rmin_right; [reflexivity | lra].
Qed.

Lemma get_road_factor_range (self : t) x z :
  road_width self = 15%Z ->
  exists f, _get_road_factor self x z = Some f /\ 0 <= f <= 1.
Proof.
  intros Hrw. destruct (get_road_factor_eq self x z Hrw) as (m & _ & Hnear & Hf).
  eexists. split; [exact Hf|].
  destruct m as [|d]; [lra|].
  apply nearest_nonneg in Hnear.
  unfold Rmin. destruct (Rle_dec 1 (d / 15)); lra.
Qed.

Lemma get_terrain_height_some (self : t) x z :
  road_width self = 15%Z -> is_Some (get_terrain_height self x z).
Proof.
  intros Hrw. destruct (get_road_factor_range self x z Hrw) as (f & Hf & _).
  unfold get_terrain_height. cbv zeta. rewrite Hf. simpl.
  destruct (Rltb f 1.0); eexists; reflexivity.
Qed.

Lemma noise_terrain_height_range `{!ExternalsOk E} (self : t) x z :
  terrain_height self = 100%Z -> 0 <= noise_terrain_height self x z <= 100.
Proof.
  intros Hth. unfold noise_terrain_height. cbv zeta. rewrite Hth.
  match goal with |- context [pnoise2 ?a ?b ?c ?d ?e ?f ?g ?h] =>
    pose proof (pnoise2_range a b c d e f g h) end.
  lra.
Qed.

(** [get_terrain_height] in terms of the blend factor. *)
Lemma get_terrain_height_eq (self : t) x z f :
  _get_road_factor self x z = Some f -> 0 <= f <= 1 ->
  get_terrain_height self x z =
    Some (noise_terrain_height self x z * f + _get_road_height self x z * (1 - f)).
Proof.
  intros Hf Hrange. unfold get_terrain_height. cbv zeta. rewrite Hf. simpl.
  destruct (Rltb f 1.0) eqn:Hlt; [reflexivity|].
  apply Rltb_ge in Hlt. assert (f = 1) as -> by lra. f_equal. lra.
Qed.

Lemma blend_between t r f :
  0 <= f <= 1 ->
  Rmin r t <= t * f + r * (1 - f) <= Rmax r t.
Proof.
  intros Hf. unfold Rmin, Rmax. destruct (Rle_dec r t); split; nra.
Qed.

Lemma blend_strictly_between t r f :
  0 < f < 1 -> r <> t ->
  Rmin r t < t * f + r * (1 - f) < Rmax r t.
Proof.
  intros Hf Hne. unfold Rmin, Rmax. destruct (Rle_dec r t); split; nra.
Qed.

End RoadFactor.

(** ** The road network (world_generator.py) *)

Section RoadNetwork.
Import WorldGenerator.
Context {E : Externals} `{!ExternalsOk E}.

Lemma for_each_cons {A S} (x : A) (l : list A) (body : A -> S -> M S) acc s :
  for_each (x :: l) body acc s =
  match body x acc s with
  | Some (acc', s') => for_each l body acc' s'
  | None => None
  end.
Proof. reflexivity. Qed.

(** A loop whose body keeps an invariant and never raises. *)
Lemma for_each_inv {A S} (P : S -> Prop) (l : list A) (body : A -> S -> M S) :
  (forall x acc s, In x l -> P acc ->
     exists acc' s', body x acc s = Some (acc', s') /\ P acc') ->
  forall acc s, P acc ->
  exists acc' s', for_each l body acc s = Some (acc', s') /\ P acc'.
Proof.
  induction l as [|x l IH]; intros Hbody acc s Hacc.
  - exists acc, s. split; [reflexivity | exact Hacc].
  - rewrite for_each_cons.
    destruct (Hbody x acc s (or_introl eq_refl) Hacc) as (acc1 & s1 & H1 & HP1).
    rewrite H1. apply IH; [|exact HP1].
    intros y a t Hy. apply Hbody. right. exact Hy.
Qed.

Lemma in_range2 a b k : In k (range2 a b) -> (a <= k < b)%Z.
Proof.
  unfold range2. rewrite in_map_iff. intros (n & <- & Hn).
  apply in_seq in Hn. lia.
Qed.

Lemma in_range n k : In k (range n) -> (0 <= k < n)%Z.
Proof. apply in_range2. Qed.

Lemma bind_some {A B} (m : M A) (k : A -> M B) s r :
  m s = Some r -> (m ≫= k) s = k r.1 r.2.
Proof. intros H. unfold mbind, M_bind. rewrite H. destruct r. reflexivity. Qed.

Lemma random_some s : random s = Some (rng_random s).
Proof. reflexivity. Qed.

Lemma randint_some a b s : randint a b s = Some (rng_randint a b s).
Proof. reflexivity. Qed.

Lemma circle_point_some ws i road s :
  exists p s', circle_point ws 36 i road s = Some (road ++ [p], s').
Proof.
  unfold circle_point. cbv zeta.
  destruct ((0 <? i)%Z && (i <? 36)%Z).
  - rewrite (bind_some _ _ _ _ (random_some s)); cbn [fst snd].
    rewrite (bind_some _ _ _ _ (random_some _)); cbn [fst snd].
    eexists _, _. reflexivity.
  - eexists _, _. reflexivity.
Qed.

Lemma circle_point_first s :
  circle_point 10000 36 0 [] s = Some ([main_road_start], s).
Proof.
  unfold circle_point, main_road_start. cbv zeta. simpl.
  replace (0 / 36 * 2 * PI) with 0 by lra.
  rewrite cos_0, sin_0. unfold mret, M_ret. do 3 f_equal.
  f_equal; lra.
Qed.

(** The main road starts at [main_road_start] and has a segment there. *)
Lemma circle_road_some s :
  exists p tl s', circle_road 10000 s = Some (main_road_start :: p :: tl, s').
Proof.
  unfold circle_road. cbv zeta.
  change (range (36 + 1)) with (0%Z :: 1%Z :: range2 2 37).
  rewrite for_each_cons, circle_point_first.
  rewrite for_each_cons.
  destruct (circle_point_some 10000 1 [main_road_start] s) as (p & s1 & H1).
  rewrite H1. simpl.
  destruct (for_each_inv (fun acc => exists tl, acc = main_road_start :: p :: tl)
              (range2 2 37) (circle_point 10000 36)) with (acc := [main_road_start; p]) (s := s1)
    as (acc' & s' & Hacc & (tl & ->)).
  - intros x acc t _ (tl & ->).
    destruct (circle_point_some 10000 x (main_road_start :: p :: tl) t) as (q & t' & Hq).
    exists ((main_road_start :: p :: tl) ++ [q]), t'. split; [exact Hq|].
    exists (tl ++ [q]). reflexivity.
  - exists []. reflexivity.
  - exists p, tl, s'. exact Hacc.
Qed.

Lemma IZR_nonzero k : (k <> 0)%Z -> IZR k <> 0.
Proof. intros H Hk. apply H. apply eq_IZR. exact Hk. Qed.

Lemma lift_div_some a k s :
  (k <> 0)%Z -> lift (py_div a (IZR k)) s = Some (a / IZR k, s).
Proof.
  intros Hk. unfold lift. rewrite py_div_nonzero; [reflexivity | apply IZR_nonzero, Hk].
Qed.

Lemma radial_point_some ws end_x end_z num_points j road s :
  (num_points <> 0)%Z ->
  exists p s', radial_point ws end_x end_z num_points j road s = Some (road ++ [p], s').
Proof.
  intros Hn. unfold radial_point. cbv zeta.
  rewrite (bind_some _ _ _ _ (lift_div_some _ _ s Hn)); cbn [fst snd].
  rewrite (bind_some _ _ _ _ (random_some _)); cbn [fst snd].
  rewrite (bind_some _ _ _ _ (random_some _)); cbn [fst snd].
  eexists _, _. reflexivity.
Qed.

Lemma radial_road_some ws num_radial i roads s :
  (num_radial <> 0)%Z ->
  exists r s', radial_road ws num_radial i roads s = Some (roads ++ [r], s').
Proof.
  intros Hn. unfold radial_road. cbv zeta.
  rewrite (bind_some _ _ _ _ (lift_div_some _ _ s Hn)); cbn [fst snd].
  rewrite (bind_some _ _ _ _ (randint_some 3 6 _)); cbn [fst snd].
  pose proof (randint_range 3 6 s ltac:(lia)) as Hpoints.
  destruct (rng_randint 3 6 s) as [num_points s1] eqn:Hdraw. cbn [fst snd] in *.
  match goal with |- context [for_each ?l ?body ?start] =>
    destruct (for_each_inv (fun _ => True) l body) with (acc := start) (s := s1)
      as (acc' & s' & Hacc & _)
  end.
  - intros x acc t _ _.
    destruct (radial_point_some ws
                (IZR ws * 0.5 + cos (IZR i / IZR num_radial * 2 * PI) * IZR ws * 0.5)
                (IZR ws * 0.5 + sin (IZR i / IZR num_radial * 2 * PI) * IZR ws * 0.5)
                num_points x acc t) as (q & t' & Hq); [lia|].
    eexists _, _. split; [exact Hq | exact I].
  - exact I.
  - rewrite (bind_some _ _ _ _ Hacc); cbn [fst snd]. eexists _, _. reflexivity.
Qed.

Lemma py_index_last {A} (l : list A) (a : A) : py_index (l ++ [a]) (-1) = Some a.
Proof.
  unfold py_index. simpl (0 <=? -1)%Z. cbv iota.
  rewrite length_app. simpl length.
  destruct (Z.leb_spec (- Z.of_nat (length l + 1)) (-1)) as [_|Hlt]; [|lia].
  replace (Z.to_nat (Z.of_nat (length l + 1) + -1)) with (length l) by lia.
  apply list_lookup_middle. reflexivity.
Qed.

Lemma random_step_some ws i angle road s :
  road <> [] ->
  exists angle' p s', random_step ws i (angle, road) s = Some ((angle', road ++ [p]), s').
Proof.
  intros Hne. unfold random_step.
  rewrite (bind_some _ _ _ _ (random_some _)); cbn [fst snd].
  rewrite (bind_some _ _ _ _ (randint_some 100 300 _)); cbn [fst snd].
  destruct (exists_last Hne) as (front & last & ->).
  erewrite (bind_some (lift _)); [|unfold lift; rewrite py_index_last; reflexivity].
  eexists _, _, _. reflexivity.
Qed.

Lemma random_road_some ws i roads s :
  exists r s', random_road ws i roads s = Some (roads ++ [r], s').
Proof.
  unfold random_road. cbv zeta.
  rewrite (bind_some _ _ _ _ (random_some _)); cbn [fst snd].
  rewrite (bind_some _ _ _ _ (random_some _)); cbn [fst snd].
  rewrite (bind_some _ _ _ _ (randint_some 3 8 _)); cbn [fst snd].
  rewrite (bind_some _ _ _ _ (random_some _)); cbn [fst snd].
  match goal with |- context [mbind _ (for_each ?l ?body ?start) ?s1] =>
    destruct (for_each_inv (fun st : R * Road => st.2 <> []) l body) with (acc := start) (s := s1)
      as (acc' & s' & Hacc & _)
  end.
  - intros x [angle road] t _ Hne. simpl in Hne.
    destruct (random_step_some ws x angle road t Hne) as (angle' & p & t' & Hp).
    eexists _, _. split; [exact Hp|]. simpl. intros Hnil.
    apply app_eq_nil in Hnil. destruct Hnil as [_ Hnil]. discriminate.
  - simpl. discriminate.
  - rewrite (bind_some _ _ _ _ Hacc); cbn [fst snd]. eexists _, _. reflexivity.
Qed.

(** The generation of the network never raises, and its first road is
    the main road. *)
Lemma road_network_some s :
  exists p tl others s',
    road_network 10000 s = Some ((main_road_start :: p :: tl) :: others, s').
Proof.
  unfold road_network. cbv zeta.
  destruct (circle_road_some s) as (p & tl & s1 & Hc).
  rewrite (bind_some _ _ _ _ Hc); cbn [fst snd].
  rewrite (bind_some _ _ _ _ (randint_some 4 8 _)); cbn [fst snd].
  pose proof (randint_range 4 8 s1 ltac:(lia)) as Hradial.
  destruct (rng_randint 4 8 s1) as [num_radial s2] eqn:Hdraw. cbn [fst snd] in *.
  set (c := main_road_start :: p :: tl).
  destruct (for_each_inv (fun roads => exists others, roads = c :: others)
              (range num_radial) (radial_road 10000 num_radial))
    with (acc := [] ++ [c]) (s := s2) as (roads1 & s3 & H1 & (o1 & ->)).
  { intros x acc t _ (o & ->).
    destruct (radial_road_some 10000 num_radial x (c :: o) t) as (r & t' & Hr); [lia|].
    eexists _, _. split; [exact Hr|]. exists (o ++ [r]). reflexivity. }
  { exists []. reflexivity. }
  rewrite (bind_some _ _ _ _ H1); cbn [fst snd].
  rewrite (bind_some _ _ _ _ (randint_some 5 10 _)); cbn [fst snd].
  destruct (rng_randint 5 10 s3) as [num_random s4]. cbn [fst snd].
  destruct (for_each_inv (fun roads => exists others, roads = c :: others)
              (range num_random) (random_road 10000))
    with (acc := c :: o1) (s := s4) as (roads2 & s5 & H2 & (o2 & ->)).
  { intros x acc t _ (o & ->).
    destruct (random_road_some 10000 x (c :: o) t) as (r & t' & Hr).
    eexists _, _. split; [exact Hr|]. exists (o ++ [r]). reflexivity. }
  { exists o1. reflexivity. }
  exists p, tl, o2, s5. exact H2.
Qed.

(** [WorldGenerator(seed)] succeeds for every seed. *)
Lemma init_some (seed0 : Z) :
  exists g p tl others,
    init seed0 = Some g /\ configured g /\ seed g = seed0 /\ chunks g = ∅ /\
    roads g = (main_road_start :: p :: tl) :: others.
Proof.
  unfold init, _generate_road_network.
  destruct (road_network_some (rng_seed seed0)) as (p & tl & others & s' & H).
  rewrite H. simpl.
  eexists _, p, tl, others. split; [reflexivity|].
  split; [|split; [|split]]; try reflexivity.
  unfold configured. simpl. repeat split; reflexivity.
Qed.

End RoadNetwork.

(** ** A reference environment *)

Lemma still_ok : WorldGenerator.ExternalsOk still.
Proof.
  split; simpl; intros; try lra; try lia.
Qed.

(** ** Terrain height (world_generator.py) *)

Section TerrainHeight.
Import WorldGenerator.
Context {E : Externals}.

Lemma one_road_configured : configured one_road.
Proof. unfold configured. simpl. repeat split; reflexivity. Qed.

Lemma point_to_line_distance_at_start x z x2 z2 :
  _point_to_line_distance x z x z x2 z2 = Some 0.
Proof.
  unfold _point_to_line_distance. cbv zeta.
  replace ((x - x) * (x - x) + (z - z) * (z - z)) with 0 by ring.
  replace ((x2 - x) * (x - x) + (z2 - z) * (z - z)) with 0 by ring.
  destruct (Reqb _ 0) eqn:Hdot.
  - rewrite py_sqrt_nonneg by lra. rewrite sqrt_0. reflexivity.
  - assert ((x2 - x) * (x2 - x) + (z2 - z) * (z2 - z) <> 0) as Hne.
    { intros Heq. apply Reqb_eq in Heq. congruence. }
    rewrite (py_div_nonzero _ _ Hne). simpl.
    replace (0 / ((x2 - x) * (x2 - x) + (z2 - z) * (z2 - z))) with 0 by (field; exact Hne).
    rewrite (Rltb_false 0 0) by lra. rewrite (Rltb_false 1 0) by lra.
    replace ((x - (x + 0 * (x2 - x))) * ((x - (x + 0 * (x2 - x))) * 1) +
             (z - (z + 0 * (z2 - z))) * ((z - (z + 0 * (z2 - z))) * 1)) with 0 by ring.
    rewrite py_sqrt_nonneg by lra. rewrite sqrt_0. reflexivity.
Qed.

Lemma min_over_segments_zero x z segs :
  min_over_segments x z segs (Fin 0) = Some (Fin 0).
Proof.
  destruct (min_over_segments_fin x z segs 0) as (d & Hd & Hle & Hat & _).
  rewrite Hd. destruct Hat as [-> | (p1 & p2 & _ & Hp)]; [reflexivity|].
  destruct (point_to_line_distance_some x z (px p1) (pz p1) (px p2) (pz p2))
    as (d' & Hd' & Hpos).
  assert (d = d') as <- by congruence.
  assert (d = 0) as -> by lra. reflexivity.
Qed.

(** A point where a road starts is at distance zero from the network,
    and the terrain there has exactly the height of the road bed. *)
Lemma terrain_height_at_road_start (self : t) p q tl others :
  road_width self = 15%Z ->
  roads self = (p :: q :: tl) :: others ->
  min_over_roads (px p) (pz p) (roads self) Inf = Some (Fin 0) /\
  _get_road_factor self (px p) (pz p) = Some 0 /\
  get_terrain_height self (px p) (pz p) = Some (_get_road_height self (px p) (pz p)).
Proof.
  intros Hrw Hroads.
  assert (min_over_roads (px p) (pz p) (roads self) Inf = Some (Fin 0)) as Hmin.
  { rewrite min_over_roads_segments, Hroads. unfold all_segments. simpl.
    rewrite point_to_line_distance_at_start. simpl. apply min_over_segments_zero. }
  assert (_get_road_factor self (px p) (pz p) = Some 0) as Hf.
  { unfold _get_road_factor. rewrite Hmin. simpl. rewrite Hrw.
    rewrite Rltb_false by lra. rewrite py_div_nonzero by lra. f_equal. lra. }
  split; [exact Hmin|]. split; [exact Hf|].
  rewrite (get_terrain_height_eq self _ _ 0 Hf) by lra. f_equal. lra.
Qed.

(** C4 (as amended).  For a generator with the parameters of
    [__init__] and every point, with [d] the distance to the nearest
    road segment: the road factor is [min(1, d / 15)]; when [d > 15] (or
    there is no road) the height is the noise terrain height, within
    [0, 100]; when [d <= 15] the height is the blend
    [t * f + r * (1 - f)] with [f = d / 15], which lies between the
    road-bed height [r] and the noise terrain height [t], both included,
    and strictly between them when [0 < d < 15] and [r <> t]. *)
Theorem terrain_height_blend `{!ExternalsOk E} (self : t) (x z : R) :
  configured self ->
  exists m f h,
    min_over_roads x z (roads self) Inf = Some m /\
    nearest x z (all_segments (roads self)) m /\
    _get_road_factor self x z = Some f /\
    f = match m with Inf => 1 | Fin d => Rmin 1 (d / 15) end /\
    get_terrain_height self x z = Some h /\
    let t := noise_terrain_height self x z in
    let r := _get_road_height self x z in
    match m with
    | Inf => h = t /\ 0 <= h <= 100
    | Fin d =>
        (15 < d -> h = t /\ 0 <= h <= 100) /\
        (d <= 15 ->
           h = t * (d / 15) + r * (1 - d / 15) /\
           Rmin r t <= h <= Rmax r t /\
           (0 < d < 15 -> r <> t -> Rmin r t < h < Rmax r t))
    end.
Proof.
  intros (_ & _ & _ & Hth & Hrw).
  destruct (get_road_factor_eq self x z Hrw) as (m & Hm & Hnear & Hf).
  destruct (get_road_factor_range self x z Hrw) as (f & Hf' & Hrange).
  rewrite Hf in Hf'. injection Hf' as Hfeq.
  pose proof (noise_terrain_height_range self x z Hth) as Ht.
  exists m, f. eexists. split; [exact Hm|]. split; [exact Hnear|].
  split; [rewrite Hf, Hfeq; reflexivity|]. split; [symmetry; exact Hfeq|].
  split; [apply get_terrain_height_eq; [rewrite Hf, Hfeq; reflexivity | exact Hrange]|].
  cbv zeta. destruct m as [|d].
  - subst f. split; lra.
  - pose proof (nearest_nonneg _ _ _ _ Hnear) as Hd. split.
    + intros Hfar. rewrite Rmin_left in Hfeq by lra. subst f. split; lra.
    + intros Hclose. rewrite Rmin_right in Hfeq by lra. subst f.
      split; [reflexivity|]. split.
      * apply blend_between. lra.
      * intros Hin Hne. apply blend_strictly_between; [lra | exact Hne].
Qed.

End TerrainHeight.

(** On the road of [one_road], in the reference environment. *)
Lemma terrain_height_blend_witness :
  exists h, WorldGenerator.get_terrain_height (E := still) one_road 5 0 = Some h.
Proof.
  destruct (terrain_height_blend (E := still) (ExternalsOk0 := still_ok) one_road 5 0
              one_road_configured) as (m & f & h & _ & _ & _ & _ & Hh & _).
  exists h. exact Hh.
Defined.

(** C4 as stated fails.  In the reference environment and for seed 42,
    the point [(8000, 5000)], where the main road starts, is at distance
    [0 <= 15] from the network, and the height returned there equals the
    road-bed height: it is not strictly between the road-bed height and
    the noise terrain height. *)
Lemma terrain_height_on_road_not_strict :
  exists g h,
    WorldGenerator.init (E := still) 42 = Some g /\
    WorldGenerator.min_over_roads 8000 5000 (WorldGenerator.roads g) WorldGenerator.Inf
      = Some (WorldGenerator.Fin 0) /\
    WorldGenerator.get_terrain_height (E := still) g 8000 5000 = Some h /\
    ~ (Rmin (WorldGenerator._get_road_height (E := still) g 8000 5000)
            (WorldGenerator.noise_terrain_height (E := still) g 8000 5000) < h <
       Rmax (WorldGenerator._get_road_height (E := still) g 8000 5000)
            (WorldGenerator.noise_terrain_height (E := still) g 8000 5000)).
Proof.
  destruct (init_some (E := still) (ExternalsOk0 := still_ok) 42)
    as (g & p & tl & others & Hinit & Hconf & _ & _ & Hroads).
  destruct Hconf as (_ & _ & _ & _ & Hrw).
  destruct (terrain_height_at_road_start (E := still) g main_road_start p tl others Hrw Hroads)
    as (Hmin & _ & Hh).
  unfold main_road_start in Hmin, Hh.
  cbn [WorldGenerator.px WorldGenerator.pz] in Hmin, Hh.
  exists g. eexists. split; [exact Hinit|]. split; [exact Hmin|]. split; [exact Hh|].
  unfold Rmin, Rmax. destruct (Rle_dec _ _); lra.
Qed.

(** ** Scenery (world_generator.py) *)

Section Scenery.
Import WorldGenerator.
Context {E : Externals} `{!ExternalsOk E}.

(** A loop whose body appends at most one element, which satisfies [Q]. *)
Lemma for_each_grow {A B} (Q : B -> Prop) (l : list A) (body : A -> list B -> M (list B)) :
  (forall x acc s, exists s',
     body x acc s = Some (acc, s') \/
     exists b, body x acc s = Some (acc ++ [b], s') /\ Q b) ->
  forall acc s, exists added s',
    for_each l body acc s = Some (acc ++ added, s') /\
    (length added <= length l)%nat /\ Forall Q added.
Proof.
  intros Hbody. induction l as [|x l IH]; intros acc s.
  - exists [], s. rewrite app_nil_r. split; [reflexivity|]. split; [simpl; lia | constructor].
  - rewrite for_each_cons.
    destruct (Hbody x acc s) as (s1 & [H1 | (b & H1 & Hb)]); rewrite H1.
    + destruct (IH acc s1) as (added & s' & Hfor & Hlen & HQ).
      exists added, s'. split; [exact Hfor|]. split; [simpl; lia | exact HQ].
    + destruct (IH (acc ++ [b]) s1) as (added & s' & Hfor & Hlen & HQ).
      exists (b :: added), s'. split.
      * rewrite Hfor. rewrite <- app_assoc. reflexivity.
      * split; [simpl; lia | constructor; assumption].
Qed.

Lemma choice_some {A} (l : list A) s :
  l <> [] -> exists a, choice l s = Some (a, (rng_choice (length l) s).2).
Proof.
  intros Hne. unfold choice.
  pose proof (choice_range (length l) s) as Hr.
  destruct (rng_choice (length l) s) as [i s1]. simpl in *.
  destruct (lookup_lt_is_Some_2 l i) as [a Ha].
  { apply Hr. destruct l; [congruence | simpl; lia]. }
  rewrite Ha. exists a. reflexivity.
Qed.

Lemma lift_some {A} (o : option A) (a : A) s : o = Some a -> lift o s = Some (a, s).
Proof. intros ->. reflexivity. Qed.

Lemma place_tree_cases (self : t) world_x world_z i objects s :
  road_width self = 15%Z ->
  exists s',
    place_tree self world_x world_z i objects s = Some (objects, s') \/
    exists o, place_tree self world_x world_z i objects s = Some (objects ++ [o], s') /\
              tree_ok self o.
Proof.
  intros Hrw. unfold place_tree. cbv zeta.
  rewrite (bind_some _ _ _ _ (random_some _)); cbn [fst snd].
  rewrite (bind_some _ _ _ _ (random_some _)); cbn [fst snd].
  match goal with |- context [_get_road_factor self ?x ?z] =>
    destruct (get_road_factor_range self x z Hrw) as (f & Hf & _);
    destruct (get_terrain_height_some self x z Hrw) as (h & Hh)
  end.
  rewrite (bind_some _ _ _ _ (lift_some _ _ _ Hf)); cbn [fst snd].
  destruct (Rltb f 0.9) eqn:Hlt.
  { eexists. left. reflexivity. }
  apply Rltb_ge in Hlt.
  rewrite (bind_some _ _ _ _ (lift_some _ _ _ Hh)); cbn [fst snd].
  match goal with |- context [mbind _ (choice ?l) ?st] =>
    destruct (choice_some l st ltac:(discriminate)) as (ty & Hty)
  end.
  rewrite (bind_some _ _ _ _ Hty); cbn [fst snd].
  rewrite (bind_some _ _ _ _ (random_some _)); cbn [fst snd].
  rewrite (bind_some _ _ _ _ (random_some _)); cbn [fst snd].
  eexists. right. eexists. split; [reflexivity|].
  simpl. exists f. split; [exact Hf | exact Hlt].
Qed.

Lemma place_building_cases (self : t) world_x world_z i objects s :
  road_width self = 15%Z ->
  exists s',
    place_building self world_x world_z i objects s = Some (objects, s') \/
    exists o, place_building self world_x world_z i objects s = Some (objects ++ [o], s') /\
              building_ok self o.
Proof.
  intros Hrw. unfold place_building. cbv zeta.
  rewrite (bind_some _ _ _ _ (random_some _)); cbn [fst snd].
  rewrite (bind_some _ _ _ _ (random_some _)); cbn [fst snd].
  match goal with |- context [_get_road_factor self ?x ?z] =>
    destruct (get_road_factor_range self x z Hrw) as (f & Hf & _);
    destruct (get_terrain_height_some self x z Hrw) as (h & Hh)
  end.
  rewrite (bind_some _ _ _ _ (lift_some _ _ _ Hf)); cbn [fst snd].
  destruct (Rltb f 0.5) eqn:Hlo; [eexists; left; reflexivity|].
  destruct (Rltb 0.9 f) eqn:Hhi; [eexists; left; reflexivity|].
  apply Rltb_ge in Hlo. apply Rltb_ge in Hhi. cbn [orb].
  rewrite (bind_some _ _ _ _ (lift_some _ _ _ Hh)); cbn [fst snd].
  match goal with |- context [mbind _ (choice ?l) ?st] =>
    destruct (choice_some l st ltac:(discriminate)) as (ty & Hty)
  end.
  rewrite (bind_some _ _ _ _ Hty); cbn [fst snd].
  rewrite (bind_some _ _ _ _ (random_some _)); cbn [fst snd].
  rewrite (bind_some _ _ _ _ (randint_some 0 3 _)); cbn [fst snd].
  eexists. right. eexists. split; [reflexivity|].
  simpl. split.
  - exists f. split; [exact Hf | lra].
  - eexists. split; [|reflexivity]. apply randint_range. lia.
Qed.

Lemma length_range n : length (range n) = Z.to_nat n.
Proof. unfold range, range2. rewrite length_map, length_seq. f_equal. lia. Qed.

(** What [_generate_objects] returns: the trees that were accepted,
    then the buildings that were accepted. *)
Lemma generate_objects_some (self : t) chunk_x chunk_z heightmap :
  road_width self = 15%Z ->
  exists trees buildings,
    (5 <= drawn_trees self chunk_x chunk_z <= 20)%Z /\
    (0 <= drawn_buildings self chunk_x chunk_z <= 2)%Z /\
    _generate_objects self chunk_x chunk_z heightmap = Some (trees ++ buildings) /\
    (Z.of_nat (length trees) <= drawn_trees self chunk_x chunk_z)%Z /\
    (Z.of_nat (length buildings) <= drawn_buildings self chunk_x chunk_z)%Z /\
    Forall (tree_ok self) trees /\ Forall (building_ok self) buildings.
Proof.
  intros Hrw. unfold _generate_objects, objects_loop, drawn_trees, drawn_buildings. cbv zeta.
  set (s0 := rng_seed _).
  rewrite (bind_some _ _ _ _ (randint_some 5 20 _)); cbn [fst snd].
  rewrite (bind_some _ _ _ _ (randint_some 0 2 _)); cbn [fst snd].
  pose proof (randint_range 5 20 s0 ltac:(lia)) as Htrees.
  pose proof (randint_range 0 2 (rng_randint 5 20 s0).2 ltac:(lia)) as Hbuildings.
  set (num_trees := (rng_randint 5 20 s0).1) in *.
  set (num_buildings := (rng_randint 0 2 (rng_randint 5 20 s0).2).1) in *.
  set (s2 := (rng_randint 0 2 (rng_randint 5 20 s0).2).2).
  destruct (for_each_grow (tree_ok self) (range num_trees)
              (place_tree self (chunk_x * chunk_size self) (chunk_z * chunk_size self)))
    with (acc := @nil SceneObject) (s := s2) as (trees & s3 & Ht & Hlt & Hokt).
  { intros x acc s. apply place_tree_cases. exact Hrw. }
  rewrite (bind_some _ _ _ _ Ht); cbn [fst snd].
  destruct (for_each_grow (building_ok self) (range num_buildings)
              (place_building self (chunk_x * chunk_size self) (chunk_z * chunk_size self)))
    with (acc := [] ++ trees) (s := s3) as (buildings & s4 & Hb & Hlb & Hokb).
  { intros x acc s. apply place_building_cases. exact Hrw. }
  rewrite Hb. simpl.
  exists trees, buildings.
  rewrite length_range in Hlt, Hlb.
  repeat split; try assumption; lia.
Qed.

Lemma count_trees (self : t) trees buildings :
  Forall (tree_ok self) trees -> Forall (building_ok self) buildings ->
  length (List.filter is_tree (trees ++ buildings)) = length trees /\
  length (List.filter is_building (trees ++ buildings)) = length buildings.
Proof.
  intros Ht Hb. rewrite !List.filter_app, !length_app.
  assert (List.filter is_tree trees = trees /\ List.filter is_building trees = []) as [-> ->].
  { induction Ht as [|o l Ho _ [IH1 IH2]]; [split; reflexivity|].
    destruct o; [|destruct Ho]. simpl. rewrite IH1. split; [reflexivity | exact IH2]. }
  assert (List.filter is_tree buildings = [] /\
          List.filter is_building buildings = buildings) as [-> ->].
  { induction Hb as [|o l Ho _ [IH1 IH2]]; [split; reflexivity|].
    destruct o; [destruct Ho|]. simpl. rewrite IH2. split; [exact IH1 | reflexivity]. }
  simpl. lia.
Qed.

(** C5 (as amended).  For every chunk of a generator with the road
    width of [__init__], [_generate_objects] draws [num_trees] between 5
    and 20 and [num_buildings] between 0 and 2, and returns a list that
    holds at most [num_trees] trees and at most [num_buildings]
    buildings, the positions it rejects being skipped: so between 0 and
    20 trees and between 0 and 2 buildings.  Every tree stands where the
    road factor is at least 0.9, every building where it is within
    [0.5, 0.9], and the rotation of every building is [k * 90] for a [k]
    from 0 to 3. *)
Theorem objects_counts_and_placement (self : t) (chunk_x chunk_z : Z)
  (heightmap : list (list R)) :
  road_width self = 15%Z ->
  exists objects,
    _generate_objects self chunk_x chunk_z heightmap = Some objects /\
    (5 <= drawn_trees self chunk_x chunk_z <= 20)%Z /\
    (0 <= drawn_buildings self chunk_x chunk_z <= 2)%Z /\
    (Z.of_nat (length (List.filter is_tree objects)) <= drawn_trees self chunk_x chunk_z)%Z /\
    (Z.of_nat (length (List.filter is_building objects))
       <= drawn_buildings self chunk_x chunk_z)%Z /\
    (length (List.filter is_tree objects) <= 20)%nat /\
    (length (List.filter is_building objects) <= 2)%nat /\
    (forall o, In o objects -> is_tree o = true -> tree_ok self o) /\
    (forall o, In o objects -> is_building o = true -> building_ok self o).
Proof.
  intros Hrw.
  destruct (generate_objects_some self chunk_x chunk_z heightmap Hrw)
    as (trees & buildings & Hnt & Hnb & Hgen & Hlt & Hlb & Hokt & Hokb).
  exists (trees ++ buildings). split; [exact Hgen|].
  destruct (count_trees self trees buildings Hokt Hokb) as [-> ->].
  split; [exact Hnt|]. split; [exact Hnb|]. split; [exact Hlt|]. split; [exact Hlb|].
  split; [lia|]. split; [lia|].
  rewrite Forall_forall in Hokt, Hokb.
  split; intros o Hin Hkind; apply in_app_or in Hin; destruct Hin as [Hin | Hin].
  - apply Hokt. apply list_elem_of_In. exact Hin.
  - apply list_elem_of_In, Hokb in Hin. destruct o; [destruct Hin | discriminate].
  - apply list_elem_of_In, Hokt in Hin. destruct o; [discriminate | destruct Hin].
  - apply Hokb. apply list_elem_of_In. exact Hin.
Qed.

End Scenery.

(** ** Chunk keys *)

Section ChunkKeys.
Import WorldGenerator.

Lemma pretty_N_char_no_comma x : pretty_N_char x <> ","%char.
Proof. unfold pretty_N_char. repeat case_match; discriminate. Qed.

Lemma pretty_N_go_no_comma x : forall s, no_comma s -> no_comma (pretty_N_go x s).
Proof.
  induction (N.lt_wf_0 x) as [x _ IH]. intros s Hs.
  destruct (decide (x = 0)%N) as [-> | Hx].
  - rewrite pretty_N_go_0. exact Hs.
  - rewrite pretty_N_go_step by lia. apply IH.
    + apply N.div_lt; lia.
    + split; [apply pretty_N_char_no_comma | exact Hs].
Qed.

Lemma pretty_N_no_comma (x : N) : no_comma (pretty x).
Proof.
  unfold pretty, pretty_N. case_decide.
  - simpl. split; [discriminate | exact I].
  - apply pretty_N_go_no_comma. exact I.
Qed.

Lemma pretty_Z_no_comma (x : Z) : no_comma (pretty x).
Proof.
  destruct x as [|p|p]; unfold pretty, pretty_Z.
  - simpl. split; [discriminate | exact I].
  - apply pretty_N_no_comma.
  - simpl. split; [discriminate | apply pretty_N_no_comma].
Qed.

(** The text before the first comma determines both parts. *)
Lemma split_at_comma s1 : forall t1 s2 t2,
  no_comma s1 -> no_comma t1 ->
  s1 +:+ "," +:+ s2 = t1 +:+ "," +:+ t2 -> s1 = t1 /\ s2 = t2.
Proof.
  induction s1 as [|c s1 IH]; intros [|d t1] s2 t2 Hs Ht Heq.
  - cbn in Heq. injection Heq as Heq. split; [reflexivity | exact Heq].
  - cbn in Heq. injection Heq as Hc _. destruct Ht as [Hd _]. congruence.
  - cbn in Heq. injection Heq as Hc _. destruct Hs as [Hd _]. congruence.
  - cbn in Heq. injection Heq as Hc Heq. destruct Hs as [_ Hs]. destruct Ht as [_ Ht].
    destruct (IH t1 s2 t2 Hs Ht Heq) as [H1 H2]. split; congruence.
Qed.

(** Two chunks have the same key only when they are the same chunk. *)
Lemma chunk_key_inj cx cz cx' cz' :
  chunk_key cx cz = chunk_key cx' cz' -> cx = cx' /\ cz = cz'.
Proof.
  unfold chunk_key. intros Heq.
  apply split_at_comma in Heq; [|apply pretty_Z_no_comma..].
  destruct Heq as [Hx Hz].
  split; eapply (inj pretty); eassumption.
Qed.

End ChunkKeys.

(** ** Chunks and their cache (world_generator.py) *)

Section Chunks.
Import WorldGenerator.
Context {E : Externals} `{!ExternalsOk E}.

Lemma mapM_total {A B} (f : A -> option B) (l : list A) :
  (forall x, In x l -> is_Some (f x)) ->
  exists k, mapM f l = Some k /\ length k = length l /\
            Forall2 (fun x y => f x = Some y) l k.
Proof.
  intros Hf. destruct (mapM_is_Some_2 f l) as [k Hk].
  { apply Forall_forall. intros x Hx. apply Hf. apply list_elem_of_In. exact Hx. }
  exists k. split; [exact Hk|]. split.
  - symmetry. eapply length_mapM. exact Hk.
  - apply mapM_Some_1. exact Hk.
Qed.

Lemma chunk_heightmap_grid (self : t) world_x world_z resolution :
  road_width self = 15%Z -> (0 <= resolution)%Z ->
  exists heightmap,
    chunk_heightmap self world_x world_z resolution = Some heightmap /\
    is_grid heightmap resolution.
Proof.
  intros Hrw Hres. unfold chunk_heightmap.
  match goal with |- context [mapM ?f ?l] =>
    destruct (mapM_total f l) as (hm & Hhm & Hlen & Hrows)
  end.
  { intros z _.
    match goal with |- is_Some (mapM ?f ?l) =>
      destruct (mapM_total f l) as (row & Hrow & _)
    end.
    - intros x _. apply get_terrain_height_some. exact Hrw.
    - eexists. exact Hrow. }
  exists hm. split; [exact Hhm|]. split.
  - rewrite Hlen, length_range. lia.
  - apply Forall_forall. intros row Hin.
    apply list_elem_of_lookup in Hin. destruct Hin as [i Hi].
    destruct (Forall2_lookup_r _ _ _ _ _ Hrows Hi) as (z & _ & Hz).
    apply length_mapM in Hz. rewrite <- Hz, length_range. lia.
Qed.

Lemma chunk_vertices_some (self : t) world_x world_z resolution heightmap :
  is_grid heightmap resolution ->
  is_Some (chunk_vertices self world_x world_z resolution heightmap).
Proof.
  intros Hgrid. unfold chunk_vertices.
  match goal with |- context [mapM ?f ?l] =>
    destruct (mapM_total f l) as (rows & Hrows & _)
  end.
  { intros z Hz. apply in_range in Hz.
    match goal with |- is_Some (mapM ?f ?l) =>
      destruct (mapM_total f l) as (row & Hrow & _)
    end.
    - intros x Hx. apply in_range in Hx. unfold chunk_vertex.
      destruct (sample_in_grid heightmap resolution z x Hgrid) as [h Hh]; [lia | lia |].
      unfold sample in Hh. rewrite Hh. simpl.
      destruct (calculate_normal_on_grid heightmap x z resolution Hgrid)
        as (_ & _ & _ & _ & n & _ & _ & _ & _ & Hn & _); [lia | lia |].
      rewrite Hn. simpl. eexists. reflexivity.
    - eexists. exact Hrow. }
  rewrite Hrows. simpl. eexists. reflexivity.
Qed.

(** With exact squares the generation of a chunk returns. *)
Lemma generate_chunk_some (self : t) chunk_x chunk_z :
  road_width self = 15%Z -> is_Some (_generate_chunk self chunk_x chunk_z).
Proof.
  intros Hrw. unfold _generate_chunk. cbv zeta.
  destruct (chunk_heightmap_grid self (chunk_x * chunk_size self) (chunk_z * chunk_size self)
              16 Hrw) as (hm & Hhm & Hgrid); [lia|].
  rewrite Hhm. simpl.
  destruct (chunk_vertices_some self (chunk_x * chunk_size self) (chunk_z * chunk_size self)
              16 hm Hgrid) as [vs Hvs].
  rewrite Hvs. simpl.
  destruct (generate_objects_some self chunk_x chunk_z hm Hrw)
    as (trees & buildings & _ & _ & Hobj & _).
  rewrite Hobj. simpl. eexists. reflexivity.
Qed.

(** The generation does not read the cache. *)
Lemma generate_chunk_set_chunks cache (g : t) cx cz :
  _generate_chunk (set_chunks cache g) cx cz = _generate_chunk g cx cz.
Proof. reflexivity. Qed.

Lemma set_chunks_id (g : t) : set_chunks (chunks g) g = g.
Proof. destruct g. reflexivity. Qed.

(** [get_chunk] on a sound cache returns the generated chunk and leaves
    a sound cache that holds it. *)
Lemma get_chunk_sound (g0 : t) cache cx cz chunk :
  cache_sound g0 cache ->
  _generate_chunk g0 cx cz = Some chunk ->
  exists cache',
    get_chunk (set_chunks cache g0) cx cz = Some (chunk, set_chunks cache' g0) /\
    cache_sound g0 cache' /\ cache' !! chunk_key cx cz = Some chunk.
Proof.
  intros Hsound Hgen. unfold get_chunk. cbv zeta.
  change (chunks (set_chunks cache g0)) with cache.
  destruct (cache !! chunk_key cx cz) as [cached|] eqn:Hlook.
  - pose proof (Hsound _ _ _ Hlook) as Hc. rewrite Hgen in Hc. injection Hc as <-.
    exists cache. split; [reflexivity|]. split; [exact Hsound | exact Hlook].
  - rewrite generate_chunk_set_chunks, Hgen. simpl.
    exists (<[chunk_key cx cz := chunk]> cache).
    split; [reflexivity|]. split; [|apply lookup_insert_eq].
    intros cx' cz' c' Hc'.
    destruct (decide (chunk_key cx cz = chunk_key cx' cz')) as [Hkey | Hkey].
    + rewrite Hkey, lookup_insert_eq in Hc'. injection Hc' as <-.
      apply chunk_key_inj in Hkey. destruct Hkey as [<- <-]. exact Hgen.
    + rewrite lookup_insert_ne in Hc' by exact Hkey. eapply Hsound. exact Hc'.
Qed.

(** Any history of requests succeeds and keeps the cache sound. *)
Lemma requests_sound (g0 : t) (history : list (Z * Z)) :
  road_width g0 = 15%Z ->
  forall cache, cache_sound g0 cache ->
  exists cache',
    requests (set_chunks cache g0) history = Some (set_chunks cache' g0) /\
    cache_sound g0 cache'.
Proof.
  intros Hrw. induction history as [|[cx cz] history IH]; intros cache Hsound.
  - exists cache. split; [reflexivity | exact Hsound].
  - destruct (generate_chunk_some g0 cx cz Hrw) as [chunk Hgen].
    destruct (get_chunk_sound g0 cache cx cz chunk Hsound Hgen) as (c1 & Hget & Hs1 & _).
    simpl. rewrite Hget. simpl. apply IH. exact Hs1.
Qed.

(** C1.  For every seed the generator can be built, and for every
    chunk coordinate pair there is one chunk, determined by the seed and
    the coordinates, such that after any history of earlier requests
    [get_chunk] returns that chunk, and a second call returns the same
    chunk again and leaves the generator as it is.  Two generators built
    from the same seed therefore return identical chunks for the same
    coordinates, whatever was requested from each of them before. *)
Theorem get_chunk_deterministic (seed0 cx cz : Z) :
  exists g0 chunk,
    init seed0 = Some g0 /\
    _generate_chunk g0 cx cz = Some chunk /\
    forall history : list (Z * Z),
      exists g g',
        requests g0 history = Some g /\
        get_chunk g cx cz = Some (chunk, g') /\
        get_chunk g' cx cz = Some (chunk, g').
Proof.
  destruct (init_some seed0) as (g0 & p & tl & others & Hinit & Hconf & _ & Hempty & _).
  destruct Hconf as (_ & _ & _ & _ & Hrw).
  destruct (generate_chunk_some g0 cx cz Hrw) as [chunk Hgen].
  exists g0, chunk. split; [exact Hinit|]. split; [exact Hgen|].
  intros history.
  assert (cache_sound g0 ∅) as Hsound0.
  { intros ? ? ? Hl. rewrite lookup_empty in Hl. discriminate. }
  destruct (requests_sound g0 history Hrw ∅ Hsound0) as (c1 & Hreq & Hs1).
  rewrite <- Hempty, set_chunks_id in Hreq.
  destruct (get_chunk_sound g0 c1 cx cz chunk Hs1 Hgen) as (c2 & Hget & Hs2 & Hin).
  exists (set_chunks c1 g0), (set_chunks c2 g0).
  split; [exact Hreq|]. split; [exact Hget|].
  unfold get_chunk. cbv zeta.
  change (chunks (set_chunks c2 g0)) with c2. rewrite Hin. reflexivity.
Qed.

End Chunks.

(** ** Normals of a generated chunk (world_generator.py) *)

Section ChunkNormals.
Import WorldGenerator.
Context {E : Externals}.

Lemma mapM_in {A B} (f : A -> option B) (l : list A) (k : list B) (y : B) :
  mapM f l = Some k -> In y k -> exists x, In x l /\ f x = Some y.
Proof.
  intros Hk Hy. apply mapM_Some_1 in Hk.
  induction Hk as [|x y' l k Hxy _ IH]; [destruct Hy|].
  destruct Hy as [<- | Hy].
  - exists x. split; [left; reflexivity | exact Hxy].
  - destruct (IH Hy) as (x' & Hin & Hx'). exists x'. split; [right; exact Hin | exact Hx'].
Qed.

(** The normal of every vertex of a chunk is a result of
    [_calculate_normal] on the heightmap of the chunk. *)
Lemma chunk_vertices_normals (self : t) world_x world_z resolution heightmap vertices v :
  chunk_vertices self world_x world_z resolution heightmap = Some vertices ->
  In v vertices ->
  exists x z, _calculate_normal heightmap x z resolution = Some (v_normal v).
Proof.
  unfold chunk_vertices. intros Hvs Hv.
  destruct (mapM _ (range (resolution + 1))) as [rows|] eqn:Hrows; [|discriminate].
  simpl in Hvs. injection Hvs as <-.
  apply in_concat in Hv. destruct Hv as (row & Hrow & Hv).
  destruct (mapM_in _ _ _ _ Hrows Hrow) as (z & _ & Hz).
  destruct (mapM_in _ _ _ _ Hz Hv) as (x & _ & Hx).
  exists x, z. unfold chunk_vertex in Hx.
  destruct (py_index heightmap z ≫= _) as [y|]; [|discriminate]. simpl in Hx.
  destruct (_calculate_normal heightmap x z resolution) as [n|]; [|discriminate].
  simpl in Hx. injection Hx as <-. reflexivity.
Qed.

Lemma generated_normals_unit (self : t) chunk_x chunk_z chunk v :
  _generate_chunk self chunk_x chunk_z = Some chunk -> In v (c_vertices chunk) ->
  vx (v_normal v) ^ 2 + vy (v_normal v) ^ 2 + vz (v_normal v) ^ 2 = 1 /\ 0 < vy (v_normal v).
Proof.
  unfold _generate_chunk. cbv zeta. intros Hchunk Hv.
  destruct (chunk_heightmap _ _ _ _) as [hm|]; [|discriminate]. simpl in Hchunk.
  destruct (chunk_vertices _ _ _ _ _) as [vs|] eqn:Hvs; [|discriminate]. simpl in Hchunk.
  destruct (_generate_objects _ _ _ _) as [objs|]; [|discriminate]. simpl in Hchunk.
  injection Hchunk as <-. simpl in Hv.
  destruct (chunk_vertices_normals _ _ _ _ _ _ _ Hvs Hv) as (x & z & Hn).
  eapply calculate_normal_unit. exact Hn.
Qed.

End ChunkNormals.

(** The reference environment, seed 42, chunk [(0, 0)]. *)
Lemma get_chunk_deterministic_witness :
  exists g chunk g',
    WorldGenerator.init (E := still) 42 = Some g /\
    WorldGenerator.get_chunk (E := still) g 0 0 = Some (chunk, g') /\
    WorldGenerator.get_chunk (E := still) g' 0 0 = Some (chunk, g').
Proof.
  destruct (get_chunk_deterministic (E := still) (ExternalsOk0 := still_ok) 42 0 0)
    as (g0 & chunk & Hinit & _ & Hall).
  destruct (Hall []) as (g & g' & Hreq & H1 & H2).
  simpl in Hreq. injection Hreq as <-.
  exists g0, chunk, g'. split; [exact Hinit|]. split; [exact H1 | exact H2].
Defined.

(** ** A chunk without trees *)

Section NoTrees.
Import WorldGenerator.

(** In the reference environment every position drawn for chunk
    [(16, 10)] is the corner [(8000, 5000)] of the chunk, where the main
    road starts: the tree loop rejects it. *)
Lemma place_tree_rejected (g : t) i objects s :
  chunk_size g = 500%Z ->
  _get_road_factor g 8000 5000 = Some 0 ->
  place_tree (E := still) g (16 * chunk_size g) (10 * chunk_size g) i objects s
  = Some (objects, s).
Proof.
  intros Hcs Hf. unfold place_tree. cbv zeta. rewrite Hcs.
  rewrite (bind_some (E := still) _ _ _ _ (random_some (E := still) _)); cbn [fst snd].
  rewrite (bind_some (E := still) _ _ _ _ (random_some (E := still) _)); cbn [fst snd].
  simpl (rng_random _).
  cbn [fst snd].
  change (16 * 500)%Z with 8000%Z. change (10 * 500)%Z with 5000%Z.
  replace (8000 + 0 * 500) with 8000 by lra.
  replace (5000 + 0 * 500) with 5000 by lra.
  rewrite (bind_some (E := still) _ _ _ _ (lift_some (E := still) _ _ _ Hf)); cbn [fst snd].
  rewrite Rltb_true by lra. destruct s. reflexivity.
Qed.

Lemma tree_loop_rejects_all (g : t) (l : list Z) objects s :
  chunk_size g = 500%Z ->
  _get_road_factor g 8000 5000 = Some 0 ->
  for_each (E := still) l (place_tree g (16 * chunk_size g) (10 * chunk_size g)) objects s
  = Some (objects, s).
Proof.
  intros Hcs Hf. induction l as [|i l IH]; [reflexivity|].
  rewrite (for_each_cons (E := still)), (place_tree_rejected g _ _ _ Hcs Hf). exact IH.
Qed.

Lemma generate_objects_empty (g : t) heightmap :
  chunk_size g = 500%Z ->
  _get_road_factor g 8000 5000 = Some 0 ->
  _generate_objects (E := still) g 16 10 heightmap = Some [].
Proof.
  intros Hcs Hf. unfold _generate_objects, objects_loop. cbv zeta.
  rewrite (bind_some (E := still) _ _ _ _ (randint_some (E := still) 5 20 _)); cbn [fst snd].
  rewrite (bind_some (E := still) _ _ _ _ (randint_some (E := still) 0 2 _)); cbn [fst snd].
  simpl (rng_randint _ _ _). cbn [fst snd].
  rewrite (bind_some (E := still) _ _ _ _ (tree_loop_rejects_all g _ _ _ Hcs Hf)).
  reflexivity.
Qed.

End NoTrees.

(** Its hypotheses hold for [one_road] in the reference environment. *)
Lemma objects_counts_and_placement_witness :
  exists objects,
    WorldGenerator._generate_objects (E := still) one_road 0 0 [] = Some objects /\
    (length (List.filter is_tree objects) <= 20)%nat.
Proof.
  destruct (objects_counts_and_placement (E := still) (ExternalsOk0 := still_ok)
              one_road 0 0 [] eq_refl)
    as (objects & Hgen & _ & _ & _ & _ & Htrees & _).
  exists objects. split; [exact Hgen | exact Htrees].
Defined.

(** C5 as stated fails.  In the reference environment and for seed 42,
    the object list of chunk [(16, 10)] is empty: it holds no tree, not
    between 5 and 20 of them, because every position drawn lies on the
    main road and the tree loop skips it. *)
Lemma chunk_with_fewer_than_five_trees :
  exists g chunk,
    WorldGenerator.init (E := still) 42 = Some g /\
    WorldGenerator._generate_chunk (E := still) g 16 10 = Some chunk /\
    WorldGenerator.c_objects chunk = [] /\
    ~ (5 <= length (List.filter is_tree (WorldGenerator.c_objects chunk)) <= 20)%nat.
Proof.
  destruct (init_some (E := still) (ExternalsOk0 := still_ok) 42)
    as (g & p & tl & others & Hinit & Hconf & _ & _ & Hroads).
  destruct Hconf as (_ & Hcs & _ & _ & Hrw).
  destruct (terrain_height_at_road_start (E := still) g main_road_start p tl others Hrw Hroads)
    as (_ & Hf & _).
  unfold main_road_start in Hf. cbn [WorldGenerator.px WorldGenerator.pz] in Hf.
  destruct (generate_chunk_some (E := still) (ExternalsOk0 := still_ok) g 16 10 Hrw)
    as [chunk Hchunk].
  assert (WorldGenerator.c_objects chunk = []) as Hobjects.
  { unfold WorldGenerator._generate_chunk in Hchunk. cbv zeta in Hchunk.
    destruct (WorldGenerator.chunk_heightmap _ _ _ _) as [hm|]; [|discriminate].
    simpl in Hchunk.
    destruct (WorldGenerator.chunk_vertices _ _ _ _ _) as [vs|]; [|discriminate].
    simpl in Hchunk.
    rewrite (generate_objects_empty g hm Hcs Hf) in Hchunk. simpl in Hchunk.
    injection Hchunk as <-. reflexivity. }
  exists g, chunk. split; [exact Hinit|]. split; [exact Hchunk|]. split; [exact Hobjects|].
  rewrite Hobjects. simpl. lia.
Qed.

(** ** Dictionaries *)

Section Dictionaries.
Context {V : Type}.
Implicit Types (d : Dict.t V) (k : string) (v : V).

Lemma eqb_refl_true k : String.eqb k k = true.
Proof. apply String.eqb_refl. Qed.

Lemma eqb_false_ne k k' : String.eqb k k' = false <-> k <> k'.
Proof. apply String.eqb_neq. Qed.

Lemma mem_in_keys k d : Dict.mem k d = true <-> In k (Dict.keys d).
Proof.
  induction d as [|[k' v] d IH]; simpl.
  - split; [discriminate | intros []].
  - destruct (String.eqb_spec k k') as [-> | Hne]; simpl.
    + split; [left; reflexivity | reflexivity].
    + rewrite IH. split; [right; assumption | intros [Heq | Hin]; [congruence | exact Hin]].
Qed.

Lemma keys_del k d :
  Dict.keys (Dict.del k d) = List.filter (fun k' => negb (String.eqb k k')) (Dict.keys d).
Proof.
  induction d as [|[k' v] d IH]; simpl; [reflexivity|].
  destruct (String.eqb k k'); simpl; rewrite IH; reflexivity.
Qed.

Lemma in_del k d kv : In kv (Dict.del k d) <-> In kv d /\ kv.1 <> k.
Proof.
  unfold Dict.del. rewrite List.filter_In.
  destruct (String.eqb_spec k kv.1) as [Heq | Hne]; simpl.
  - split; [intros [_ H]; discriminate | intros [_ H]; congruence].
  - split; [intros [H _]; split; [exact H | congruence] | intros [H _]; split; [exact H | reflexivity]].
Qed.

Lemma mem_del k d : Dict.mem k (Dict.del k d) = false.
Proof.
  destruct (Dict.mem k (Dict.del k d)) eqn:H; [|reflexivity].
  apply mem_in_keys in H. rewrite keys_del in H. apply List.filter_In in H.
  destruct H as [_ H]. rewrite eqb_refl_true in H. discriminate.
Qed.

Lemma get_in k v d : Dict.get k d = Some v -> In (k, v) d.
Proof.
  induction d as [|[k' v'] d IH]; simpl; [discriminate|].
  destruct (String.eqb_spec k k') as [-> | Hne].
  - intros [= ->]. left. reflexivity.
  - intros H. right. apply IH. exact H.
Qed.

Lemma in_get k v d : Dict.wf d -> In (k, v) d -> Dict.get k d = Some v.
Proof.
  unfold Dict.wf. induction d as [|[k' v'] d IH]; simpl; [intros _ []|].
  intros Hnd [Heq | Hin].
  - injection Heq as -> ->. rewrite eqb_refl_true. reflexivity.
  - apply NoDup_cons in Hnd. destruct Hnd as [Hnotin Hnd].
    destruct (String.eqb_spec k k') as [-> | Hne].
    + exfalso. apply Hnotin. apply list_elem_of_In.
      change k' with (fst (k', v)). apply in_map. exact Hin.
    + apply IH; assumption.
Qed.

Lemma wf_del k d : Dict.wf d -> Dict.wf (Dict.del k d).
Proof.
  unfold Dict.wf. rewrite keys_del. intros H.
  apply NoDup_ListNoDup. apply List.NoDup_filter. apply NoDup_ListNoDup. exact H.
Qed.

(** In a dict, a function that is empty off the key [k] sees one entry. *)
Lemma flat_map_off_key {B} k (g : string * V -> list B) d :
  ~ In k (Dict.keys d) ->
  flat_map (fun kv => if String.eqb kv.1 k then g kv else []) d = [].
Proof.
  induction d as [|[k' v'] d IH]; simpl; [reflexivity|]. intros Hnotin.
  destruct (String.eqb_spec k' k) as [-> | Hne].
  - exfalso. apply Hnotin. left. reflexivity.
  - simpl. apply IH. intros Hin. apply Hnotin. right. exact Hin.
Qed.

Lemma flat_map_at_key {B} k v (g : string * V -> list B) d :
  Dict.wf d -> Dict.get k d = Some v ->
  flat_map (fun kv => if String.eqb kv.1 k then g kv else []) d = g (k, v).
Proof.
  unfold Dict.wf. induction d as [|[k' v'] d IH]; simpl; [discriminate|].
  intros Hnd Hget. apply NoDup_cons in Hnd. destruct Hnd as [Hnotin Hnd].
  destruct (String.eqb_spec k k') as [<- | Hne].
  - injection Hget as ->. rewrite eqb_refl_true.
    rewrite flat_map_off_key; [apply app_nil_r|].
    intros Hin. apply Hnotin. apply list_elem_of_In. exact Hin.
  - destruct (String.eqb_spec k' k) as [Heq | _]; [congruence|]. simpl.
    apply IH; assumption.
Qed.

End Dictionaries.

(** ** The tick (game_state.py) *)

Section Tick.
Import GameState.

Lemma del_absent {V} k (d : Dict.t V) : Dict.mem k d = false -> Dict.del k d = d.
Proof.
  induction d as [|[k' v] d IH]; simpl; [reflexivity|].
  destruct (String.eqb k k'); simpl; [discriminate|].
  intros H. f_equal. apply IH. exact H.
Qed.

Lemma remove_player_players (self : t) k :
  players (remove_player self k) = Dict.del k (players self).
Proof.
  unfold remove_player. destruct (Dict.mem k (players self)) eqn:Hmem; [reflexivity|].
  symmetry. apply del_absent. exact Hmem.
Qed.

Lemma remove_player_rest (self : t) k :
  events (remove_player self k) = events self /\
  current_time (remove_player self k) = current_time self /\
  tick_count (remove_player self k) = tick_count self /\
  config (remove_player self k) = config self.
Proof.
  unfold remove_player. destruct (Dict.mem k (players self)); repeat split; reflexivity.
Qed.

Lemma remove_all_in (ids : list string) : forall (self : t) kv,
  In kv (players (fold_left remove_player ids self)) <->
  In kv (players self) /\ ~ In kv.1 ids.
Proof.
  induction ids as [|k ids IH]; intros self kv; simpl.
  - tauto.
  - rewrite IH, remove_player_players, in_del. split.
    + intros [[Hin Hne] Hnot]. split; [exact Hin|]. intros [Heq | Hin']; [congruence | tauto].
    + intros [Hin Hnot]. split; [split; [exact Hin|] |].
      * intros Heq. apply Hnot. left. symmetry. exact Heq.
      * intros Hin'. apply Hnot. right. exact Hin'.
Qed.

Lemma remove_all_rest (ids : list string) : forall (self : t),
  events (fold_left remove_player ids self) = events self /\
  current_time (fold_left remove_player ids self) = current_time self /\
  tick_count (fold_left remove_player ids self) = tick_count self /\
  config (fold_left remove_player ids self) = config self.
Proof.
  induction ids as [|k ids IH]; intros self; simpl; [repeat split; reflexivity|].
  destruct (IH (remove_player self k)) as (-> & -> & -> & ->).
  apply remove_player_rest.
Qed.

Lemma remove_all_wf (ids : list string) : forall (self : t),
  Dict.wf (players self) -> Dict.wf (players (fold_left remove_player ids self)).
Proof.
  induction ids as [|k ids IH]; intros self Hwf; simpl; [exact Hwf|].
  apply IH. rewrite remove_player_players. apply wf_del. exact Hwf.
Qed.

Lemma inactive_players_in (h : Store.t) (self : t) k :
  In k (inactive_players h self) <->
  exists a, In (k, a) (players self) /\ stale h self a.
Proof.
  unfold inactive_players. cbv zeta. rewrite in_map_iff. split.
  - intros ([k' a] & <- & Hin). apply List.filter_In in Hin. destruct Hin as [Hin Hlt].
    apply Rltb_lt in Hlt. exists a. split; [exact Hin | exact Hlt].
  - intros (a & Hin & Hst). exists (k, a). split; [reflexivity|].
    apply List.filter_In. split; [exact Hin|]. apply Rltb_lt. exact Hst.
Qed.

Lemma distance3_some p1 p2 :
  distance3 p1 p2 =
  Some (sqrt ((vx p1 - vx p2) ^ 2 + (vy p1 - vy p2) ^ 2 + (vz p1 - vz p2) ^ 2)).
Proof.
  unfold distance3. apply py_sqrt_nonneg.
  pose proof (pow2_ge_0 (vx p1 - vx p2)). pose proof (pow2_ge_0 (vy p1 - vy p2)).
  pose proof (pow2_ge_0 (vz p1 - vz p2)). lra.
Qed.

Lemma check_pair_eq h now a b evs :
  check_pair h now a b evs = Some (evs ++ pair_events h now a b).
Proof.
  unfold check_pair, pair_events, collides, collision_event, distance.
  destruct a as [ka pa], b as [kb pb]. simpl.
  destruct (String.eqb ka kb); simpl; [rewrite app_nil_r; reflexivity|].
  rewrite distance3_some. simpl.
  replace 2.0 with 2 by lra.
  destruct (Rltb _ 2); [reflexivity | rewrite app_nil_r; reflexivity].
Qed.

Lemma inner_loop_eq h now a (ps : Dict.t Store.addr) : forall evs,
  for_opt ps (check_pair h now a) evs = Some (evs ++ flat_map (pair_events h now a) ps).
Proof.
  induction ps as [|b ps IH]; intros evs; simpl.
  - rewrite app_nil_r. reflexivity.
  - rewrite check_pair_eq. simpl. rewrite IH, <- app_assoc. reflexivity.
Qed.

Lemma outer_loop_eq h now (all : Dict.t Store.addr) (ps : Dict.t Store.addr) : forall evs,
  for_opt ps (fun a evs => for_opt all (check_pair h now a) evs) evs
  = Some (evs ++ flat_map (fun a => flat_map (pair_events h now a) all) ps).
Proof.
  induction ps as [|a ps IH]; intros evs; simpl.
  - rewrite app_nil_r. reflexivity.
  - rewrite inner_loop_eq. simpl. rewrite IH, <- app_assoc. reflexivity.
Qed.

Lemma process_events_eq h (self : t) :
  _process_events h self =
  Some (set_events (events self ++ collisions h (current_time self) (players self)) self).
Proof.
  unfold _process_events. rewrite outer_loop_eq. reflexivity.
Qed.

(** With exact squares [update] returns on every state; this is the
    state it leaves. *)
Lemma update_eq h now (self : t) :
  exists self',
    update h now self = Some self' /\
    players self' = players (_cleanup_inactive_players h (set_clock now (tick_count self + 1) self)) /\
    events self' = events self ++ collisions h now (players self') /\
    current_time self' = now /\ tick_count self' = (tick_count self + 1)%Z.
Proof.
  unfold update. cbv zeta. rewrite process_events_eq.
  eexists. split; [reflexivity|].
  unfold _cleanup_inactive_players.
  destruct (remove_all_rest (inactive_players h (set_clock now (tick_count self + 1) self))
              (set_clock now (tick_count self + 1) self)) as (He & Ht & Hk & _).
  simpl. rewrite He, Ht, Hk. repeat split; reflexivity.
Qed.

End Tick.

(** ** Collision events (game_state.py) *)

Section Collisions.
Import GameState.

Lemma filter_flat_map {A B} (P : B -> bool) (f : A -> list B) (l : list A) :
  List.filter P (flat_map f l) = flat_map (fun x => List.filter P (f x)) l.
Proof.
  induction l as [|x l IH]; simpl; [reflexivity|].
  rewrite List.filter_app, IH. reflexivity.
Qed.

Lemma events_of_pair h now a b x y :
  events_of a b (pair_events h now x y) =
  if String.eqb x.1 a then (if String.eqb y.1 b then pair_events h now x y else []) else [].
Proof.
  unfold events_of, pair_events. destruct (collides h x y); simpl.
  - destruct (String.eqb x.1 a), (String.eqb y.1 b); reflexivity.
  - destruct (String.eqb x.1 a), (String.eqb y.1 b); reflexivity.
Qed.

(** With unique keys, the events of an ordered pair of players come
    from the one iteration that visits this pair. *)
Lemma events_of_collisions h now (ps : Dict.t Store.addr) a b pa pb :
  Dict.wf ps -> Dict.get a ps = Some pa -> Dict.get b ps = Some pb ->
  events_of a b (collisions h now ps) = pair_events h now (a, pa) (b, pb).
Proof.
  intros Hwf Ha Hb. unfold collisions, events_of.
  rewrite filter_flat_map.
  rewrite (flat_map_ext _ (fun x => if String.eqb x.1 a
                                    then pair_events h now x (b, pb) else [])).
  - apply (flat_map_at_key a pa (fun x => pair_events h now x (b, pb)) ps Hwf Ha).
  - intros x. rewrite filter_flat_map.
    rewrite (flat_map_ext _ (fun y => if String.eqb y.1 b
                                      then (if String.eqb x.1 a then pair_events h now x y else [])
                                      else [])).
    + rewrite (flat_map_at_key b pb
                 (fun y => if String.eqb x.1 a then pair_events h now x y else []) ps Hwf Hb).
      reflexivity.
    + intros y. fold (events_of a b (pair_events h now x y)). rewrite events_of_pair.
      destruct (String.eqb x.1 a), (String.eqb y.1 b); reflexivity.
Qed.

Lemma in_collisions h now (ps : Dict.t Store.addr) e :
  In e (collisions h now ps) ->
  exists x y, In x ps /\ In y ps /\ collides h x y = true /\ e = collision_event h now x y.
Proof.
  unfold collisions. rewrite in_flat_map. intros (x & Hx & Hin).
  rewrite in_flat_map in Hin. destruct Hin as (y & Hy & Hin).
  unfold pair_events in Hin. destruct (collides h x y) eqn:Hc; [|destruct Hin].
  destruct Hin as [<- | []]. exists x, y. repeat split; assumption.
Qed.

Lemma collides_spec h a b :
  collides h a b = true <-> a.1 <> b.1 /\ distance h a.2 b.2 < 2.
Proof.
  unfold collides. rewrite andb_true_iff, negb_true_iff, Rltb_lt.
  rewrite eqb_false_ne. reflexivity.
Qed.

(** The events a tick with exact squares appends: one for every
    ordered pair of distinct players in reach of each other, with the
    point halfway between them. *)
Lemma update_collisions (h : Store.t) (now : R) (self self' : t) :
  Dict.wf (players self) ->
  update h now self = Some self' ->
  exists new,
    events self' = events self ++ new /\
    (forall a b pa pb,
       Dict.get a (players self') = Some pa -> Dict.get b (players self') = Some pb ->
       (a <> b /\ distance h pa pb < 2 ->
        events_of a b new =
          [mkEvent now (a, b) (halfway (Player.position (Store.deref h pa))
                                       (Player.position (Store.deref h pb)))] /\
        events_of b a new =
          [mkEvent now (b, a) (halfway (Player.position (Store.deref h pb))
                                       (Player.position (Store.deref h pa)))]) /\
       (a = b \/ 2 <= distance h pa pb -> events_of a b new = [])) /\
    (forall e, In e new ->
       exists a b pa pb,
         Dict.get a (players self') = Some pa /\ Dict.get b (players self') = Some pb /\
         a <> b /\ distance h pa pb < 2 /\
         e = mkEvent now (a, b) (halfway (Player.position (Store.deref h pa))
                                         (Player.position (Store.deref h pb)))).
Proof.
  intros Hwf Hreturn.
  destruct (update_eq h now self) as (self0 & Hupd & Hps & Hev & _).
  assert (self0 = self') as -> by congruence.
  assert (Dict.wf (players self')) as Hwf'.
  { rewrite Hps. unfold _cleanup_inactive_players. apply remove_all_wf. exact Hwf. }
  exists (collisions h now (players self')).
  split; [exact Hev|]. split.
  - intros a b pa pb Ha Hb. split.
    + intros [Hne Hclose]. split.
      * rewrite (events_of_collisions h now _ a b pa pb Hwf' Ha Hb).
        unfold pair_events.
        rewrite (proj2 (collides_spec h (a, pa) (b, pb))); [reflexivity|].
        split; assumption.
      * rewrite (events_of_collisions h now _ b a pb pa Hwf' Hb Ha).
        unfold pair_events.
        rewrite (proj2 (collides_spec h (b, pb) (a, pa))); [reflexivity|].
        split; [simpl; congruence|]. simpl.
        unfold distance in *.
        replace ((vx (Player.position (Store.deref h pb)) - vx (Player.position (Store.deref h pa))) ^ 2)
          with ((vx (Player.position (Store.deref h pa)) - vx (Player.position (Store.deref h pb))) ^ 2)
          by ring.
        replace ((vy (Player.position (Store.deref h pb)) - vy (Player.position (Store.deref h pa))) ^ 2)
          with ((vy (Player.position (Store.deref h pa)) - vy (Player.position (Store.deref h pb))) ^ 2)
          by ring.
        replace ((vz (Player.position (Store.deref h pb)) - vz (Player.position (Store.deref h pa))) ^ 2)
          with ((vz (Player.position (Store.deref h pa)) - vz (Player.position (Store.deref h pb))) ^ 2)
          by ring.
        exact Hclose.
    + intros Hno. rewrite (events_of_collisions h now _ a b pa pb Hwf' Ha Hb).
      unfold pair_events. destruct (collides h (a, pa) (b, pb)) eqn:Hc; [|reflexivity].
      apply collides_spec in Hc. simpl in Hc. destruct Hc as [Hne Hclose].
      destruct Hno as [Heq | Hfar]; [congruence | lra].
  - intros e Hin. apply in_collisions in Hin.
    destruct Hin as ([a pa] & [b pb] & Ha & Hb & Hc & ->).
    apply collides_spec in Hc. simpl in Hc. destruct Hc as [Hne Hclose].
    exists a, b, pa, pb.
    split; [apply in_get; assumption|]. split; [apply in_get; assumption|].
    split; [exact Hne|]. split; [exact Hclose | reflexivity].
Qed.

End Collisions.

(** ** A lobby of two players *)

Lemma lobby_wf : Dict.wf (GameState.players (App.game_state lobby)).
Proof.
  unfold Dict.wf. simpl. apply (bool_decide_unpack _). vm_compute. reflexivity.
Qed.

(** ** The gateway (app.py) *)

Section Gateway.
Import App.

Lemma broadcast_loop_eq message exclude (table : Dict.t Store.addr) : forall w,
  fold_left
    (fun w kv =>
       if differs kv.1 exclude
       then send_json (Player.websocket (Store.deref (heap w) kv.2)) message w
       else w) table w
  = mkWorld (heap w) (connected_players w) (game_state w)
            (sent w ++ map (fun ws => (ws, message)) (recipients (heap w) table exclude)).
Proof.
  induction table as [|kv table IH]; intros w; simpl.
  - unfold recipients. simpl. rewrite app_nil_r. destruct w. reflexivity.
  - rewrite IH. unfold recipients. simpl.
    destruct (differs kv.1 exclude); simpl; [|reflexivity].
    rewrite <- app_assoc. reflexivity.
Qed.

(** [broadcast_message] calls [send_json] once for every recipient and
    changes nothing else. *)
Lemma broadcast_message_eq message exclude w :
  broadcast_message message exclude w
  = mkWorld (heap w) (connected_players w) (game_state w)
            (sent w ++ map (fun ws => (ws, message))
                           (recipients (heap w) (connected_players w) exclude)).
Proof. unfold broadcast_message. apply broadcast_loop_eq. Qed.

(** The tick changes the coordinator only. *)
Lemma game_loop_step_eq now w :
  exists g, GameState.update (heap w) now (game_state w) = Some g /\
            game_loop_step now w = Some (set_game_state g w).
Proof.
  destruct (update_eq (heap w) now (game_state w)) as (g & Hg & _).
  exists g. split; [exact Hg|]. unfold game_loop_step. rewrite Hg. reflexivity.
Qed.

(** C2 (as amended).  A player of the coordinator's map whose
    last-update timestamp is more than [playerTimeout] seconds older
    than the time of the tick is no longer in the map after the tick.
    The tick sends no message and leaves the connection table and the
    player objects as they are: no notification of the removal is
    emitted. *)
Theorem eviction_removes_without_notification
  (w : World) (now : R) (pid : string) (a : Store.addr) :
  GameState.playerTimeout (GameState.config (game_state w)) = 30%Z ->
  Dict.get pid (GameState.players (game_state w)) = Some a ->
  Player.last_update (Store.deref (heap w) a) < now - 30 ->
  exists w',
    game_loop_step now w = Some w' /\
    Dict.mem pid (GameState.players (game_state w')) = false /\
    sent w' = sent w /\
    connected_players w' = connected_players w /\
    heap w' = heap w.
Proof.
  intros Hcfg Hget Hstale.
  destruct (game_loop_step_eq now w) as (g & Hg & Hstep).
  exists (set_game_state g w). split; [exact Hstep|].
  split; [|repeat split; reflexivity].
  destruct (update_eq (heap w) now (game_state w)) as (g' & Hg' & Hps & _).
  rewrite Hg in Hg'. injection Hg' as <-. simpl.
  destruct (Dict.mem pid (GameState.players g)) eqn:Hmem; [exfalso | reflexivity].
  apply mem_in_keys in Hmem. unfold Dict.keys in Hmem. apply in_map_iff in Hmem.
  destruct Hmem as ([k a'] & Hk & Hin). simpl in Hk. subst k.
  rewrite Hps in Hin. unfold GameState._cleanup_inactive_players in Hin.
  apply remove_all_in in Hin. destruct Hin as [_ Hnot]. apply Hnot. simpl.
  apply inactive_players_in. exists a. split.
  - apply get_in. exact Hget.
  - unfold stale. simpl. rewrite Hcfg. exact Hstale.
Qed.

(** Alice, silent since time 0, at the tick of time 100. *)
Lemma eviction_removes_without_notification_witness :
  exists w',
    game_loop_step 100 lobby = Some w' /\
    Dict.mem "alice" (GameState.players (game_state w')) = false /\
    sent w' = sent lobby.
Proof.
  destruct (eviction_removes_without_notification lobby 100 "alice" 0%nat)
    as (w' & Hstep & Hgone & Hsent & _).
  - reflexivity.
  - reflexivity.
  - simpl. lra.
  - exists w'. repeat split; assumption.
Defined.

(** C2 as stated fails.  Alice has been silent for 100 seconds; the
    tick removes her from the coordinator's map, but not one
    [playerLeft] message is sent (the claim asks for exactly one), and
    the gateway still holds her connection. *)
Lemma eviction_fires_no_playerLeft :
  exists w',
    game_loop_step 100 lobby = Some w' /\
    Dict.mem "alice" (GameState.players (game_state w')) = false /\
    count_left "alice" (sent w') = 0%nat /\
    count_left "alice" (sent w') <> 1%nat /\
    Dict.mem "alice" (connected_players w') = true.
Proof.
  destruct (game_loop_step_eq 100 lobby) as (g & Hg & Hstep).
  destruct (update_eq (heap lobby) 100 (game_state lobby)) as (g' & Hg' & Hps & _).
  rewrite Hg in Hg'. injection Hg' as <-.
  exists (set_game_state g lobby). split; [exact Hstep|]. split.
  - simpl. destruct (Dict.mem "alice" (GameState.players g)) eqn:Hmem; [exfalso | reflexivity].
    apply mem_in_keys in Hmem. unfold Dict.keys in Hmem. apply in_map_iff in Hmem.
    destruct Hmem as ([k a'] & Hk & Hin). simpl in Hk. subst k.
    rewrite Hps in Hin. unfold GameState._cleanup_inactive_players in Hin.
    apply remove_all_in in Hin. destruct Hin as [_ Hnot]. apply Hnot. simpl.
    apply inactive_players_in. exists 0%nat. split; [left; reflexivity|].
    unfold stale. simpl. lra.
  - simpl. split; [reflexivity|]. split; [discriminate | reflexivity].
Qed.

End Gateway.

(** ** Position messages and teardown (app.py) *)

Section Connections.
Import App.

Lemma deref_lookup (h : Store.t) a p : h !! a = Some p -> Store.deref h a = p.
Proof. intros H. unfold Store.deref. rewrite H. reflexivity. Qed.

Lemma deref_update_same (h : Store.t) a f p :
  h !! a = Some p -> Store.deref (Store.update a f h) a = f p.
Proof.
  intros H. unfold Store.update, Store.deref.
  rewrite list_lookup_insert_eq; [|eapply lookup_lt_Some; exact H].
  rewrite H. reflexivity.
Qed.

Lemma deref_update_other (h : Store.t) a b f :
  a <> b -> Store.deref (Store.update a f h) b = Store.deref h b.
Proof.
  intros H. unfold Store.update, Store.deref.
  rewrite list_lookup_insert_ne by exact H. reflexivity.
Qed.

(** Writing fields other than the connection keeps every connection. *)
Lemma websocket_update (h : Store.t) a b f :
  (forall p, Player.websocket (f p) = Player.websocket p) ->
  Player.websocket (Store.deref (Store.update a f h) b) = Player.websocket (Store.deref h b).
Proof.
  intros Hf. destruct (decide (a = b)) as [<- | Hne].
  - destruct (h !! a) as [p|] eqn:Hp.
    + rewrite (deref_update_same _ _ _ _ Hp), Hf, (deref_lookup _ _ _ Hp). reflexivity.
    + unfold Store.update. rewrite list_insert_ge; [reflexivity|].
      apply lookup_ge_None. exact Hp.
  - rewrite deref_update_other by exact Hne. reflexivity.
Qed.

Lemma recipients_update (h : Store.t) a f table exclude :
  (forall p, Player.websocket (f p) = Player.websocket p) ->
  recipients (Store.update a f h) table exclude = recipients h table exclude.
Proof.
  intros Hf. unfold recipients. apply map_ext. intros kv. apply websocket_update. exact Hf.
Qed.

Lemma in_recipients (h : Store.t) table exclude ws :
  In ws (recipients h table exclude) <->
  exists q a, In (q, a) table /\ differs q exclude = true /\
              ws = Player.websocket (Store.deref h a).
Proof.
  unfold recipients. rewrite in_map_iff. split.
  - intros ([q a] & <- & Hin). apply List.filter_In in Hin. destruct Hin as [Hin Hd].
    exists q, a. repeat split; assumption.
  - intros (q & a & Hin & Hd & ->). exists (q, a). split; [reflexivity|].
    apply List.filter_In. split; assumption.
Qed.

Lemma differs_some q pid : differs q (Some pid) = true <-> q <> pid.
Proof. unfold differs. rewrite negb_true_iff. apply eqb_false_ne. Qed.

(** C8.  A [position] message of the connected player [pid], whose
    object is [p]: the position, rotation and velocity of the object
    become the fields of the message, a missing field keeping its old
    value; the liveness timestamp becomes the coordinator's current
    time; every other field of the object, the other objects, the
    connection table and the coordinator are unchanged; and the sends
    made are one [playerPosition] message, carrying the new values, for
    the connection of every entry of the table with an id other than
    [pid], and none through the entry of [pid]: so nothing is sent to
    the connection of [pid] itself, as long as no other entry shares
    it. *)
Theorem position_message_fans_out_to_others
  (w : World) (pid : string) (player : Store.addr) (websocket : nat)
  (message : Message) (p : Player.t) :
  m_type message = Some "position"%string ->
  heap w !! player = Some p ->
  exists w' p' new,
    loop_step pid player websocket (Text (Some message)) w = (w', true) /\
    heap w' !! player = Some p' /\
    Player.position p' = default (Player.position p) (m_position message) /\
    Player.rotation p' = default (Player.rotation p) (m_rotation message) /\
    Player.velocity p' = default (Player.velocity p) (m_velocity message) /\
    Player.last_update p' = GameState.current_time (game_state w) /\
    Player.id p' = Player.id p /\ Player.name p' = Player.name p /\
    Player.websocket p' = Player.websocket p /\
    (forall a, a <> player -> heap w' !! a = heap w !! a) /\
    connected_players w' = connected_players w /\
    game_state w' = game_state w /\
    sent w' = sent w ++ new /\
    new = map (fun ws => (ws, MsgPlayerPosition pid (Player.position p') (Player.rotation p')
                                                (Player.velocity p')))
              (recipients (heap w) (connected_players w) (Some pid)) /\
    (forall q a, In (q, a) (connected_players w) -> q <> pid ->
       In (Player.websocket (Store.deref (heap w) a),
           MsgPlayerPosition pid (Player.position p') (Player.rotation p') (Player.velocity p'))
          new) /\
    (forall ws m, In (ws, m) new ->
       exists q a, In (q, a) (connected_players w) /\ q <> pid /\
                   ws = Player.websocket (Store.deref (heap w) a)) /\
    ((forall q a, In (q, a) (connected_players w) -> q <> pid ->
        Player.websocket (Store.deref (heap w) a) <> Player.websocket p) ->
     forall m, ~ In (Player.websocket p, m) new).
Proof.
  intros Htype Hp.
  set (f := fun q : Player.t =>
              Player.set_kinematics
                (default (Player.position q) (m_position message))
                (default (Player.rotation q) (m_rotation message))
                (default (Player.velocity q) (m_velocity message))
                (GameState.current_time (game_state w)) q).
  assert (forall q, Player.websocket (f q) = Player.websocket q) as Hws by reflexivity.
  set (h' := Store.update player f (heap w)).
  set (msg := MsgPlayerPosition pid (Player.position (f p)) (Player.rotation (f p))
                                (Player.velocity (f p))).
  set (new := map (fun ws => (ws, msg)) (recipients (heap w) (connected_players w) (Some pid))).
  assert (loop_step pid player websocket (Text (Some message)) w
          = (mkWorld h' (connected_players w) (game_state w) (sent w ++ new), true)) as Hstep.
  { unfold loop_step, route. rewrite Htype. simpl default. cbv zeta.
    change (String.eqb "position" "position") with true. cbv iota.
    rewrite broadcast_message_eq. simpl heap. simpl connected_players.
    simpl game_state. simpl sent. fold f. fold h'.
    unfold h' at 2 3 4. rewrite (deref_update_same _ _ _ _ Hp).
    fold msg. unfold h'. rewrite (recipients_update _ _ _ _ _ Hws). reflexivity. }
  assert (h' !! player = Some (f p)) as Hp'.
  { unfold h', Store.update. rewrite (deref_lookup _ _ _ Hp).
    apply list_lookup_insert_eq. eapply lookup_lt_Some. exact Hp. }
  exists (mkWorld h' (connected_players w) (game_state w) (sent w ++ new)), (f p), new.
  split; [exact Hstep|]. split; [exact Hp'|].
  do 7 (split; [reflexivity|]).
  split.
  { intros a Ha. simpl. unfold h', Store.update. apply list_lookup_insert_ne. congruence. }
  do 4 (split; [reflexivity|]).
  assert (forall ws m, In (ws, m) new ->
            exists q a, In (q, a) (connected_players w) /\ q <> pid /\
                        ws = Player.websocket (Store.deref (heap w) a)) as Honly.
  { intros ws m Hin. unfold new in Hin. apply in_map_iff in Hin.
    destruct Hin as (ws' & Heq & Hin). injection Heq as -> _.
    apply in_recipients in Hin. destruct Hin as (q & a & Hin & Hd & ->).
    exists q, a. split; [exact Hin|]. split; [apply differs_some; exact Hd | reflexivity]. }
  split; [|split; [exact Honly|]].
  - intros q a Hin Hne. unfold new. apply in_map_iff.
    eexists. split; [reflexivity|]. apply in_recipients.
    exists q, a. split; [exact Hin|]. split; [apply differs_some; exact Hne | reflexivity].
  - intros Hdistinct m Hin. destruct (Honly _ _ Hin) as (q & a & Hqa & Hne & Heq).
    apply (Hdistinct q a Hqa Hne). symmetry. exact Heq.
Qed.

End Connections.

Lemma position_message_fans_out_to_others_witness :
  exists w' p' new,
    App.loop_step "alice" 0%nat 1%nat (App.Text (Some move)) lobby = (w', true) /\
    App.heap w' !! 0%nat = Some p' /\
    Player.position p' = mkVec3 1 2 3 /\
    Player.rotation p' = Player.rotation alice /\
    App.sent w' = App.sent lobby ++ new /\
    new = [(2%nat, App.MsgPlayerPosition "alice" (Player.position p') (Player.rotation p')
                                         (Player.velocity p'))].
Proof.
  destruct (position_message_fans_out_to_others lobby "alice" 0%nat 1%nat move alice
              eq_refl eq_refl)
    as (w' & p' & new & Hstep & Hp' & Hpos & Hrot & _ & _ & _ & _ & _ & _ & _ & _
        & Hsent & Hnew & _).
  exists w', p', new. split; [exact Hstep|]. split; [exact Hp'|].
  split; [exact Hpos|]. split; [exact Hrot|]. split; [exact Hsent|].
  rewrite Hnew. reflexivity.
Defined.

(** ** Teardown (app.py) *)

Section Teardown.
Import App.

(** What the [except WebSocketDisconnect] clause does for a player with
    a non-empty id: removal from both tables, then one [playerLeft] for
    every connection that remains. *)
Lemma disconnect_teardown (w : World) (pid : string) (player : Store.addr) (websocket : nat) :
  pid <> EmptyString ->
  exists w',
    loop_step pid player websocket Disconnected w = (w', false) /\
    Dict.mem pid (connected_players w') = false /\
    Dict.mem pid (GameState.players (game_state w')) = false /\
    connected_players w' = Dict.del pid (connected_players w) /\
    heap w' = heap w /\
    sent w' = sent w ++ map (fun ws => (ws, MsgPlayerLeft pid))
                            (recipients (heap w) (connected_players w') None).
Proof.
  intros Hne. unfold loop_step, handle, except_disconnect, truthy.
  rewrite (proj2 (eqb_false_ne pid EmptyString) Hne). simpl negb. cbv iota.
  rewrite broadcast_message_eq. eexists. split; [reflexivity|].
  assert (connected_players
            (if Dict.mem pid (connected_players w)
             then set_connected (Dict.del pid (connected_players w)) w else w)
          = Dict.del pid (connected_players w)) as Hconn.
  { destruct (Dict.mem pid (connected_players w)) eqn:Hmem; [reflexivity|].
    symmetry. apply del_absent. exact Hmem. }
  assert (heap (if Dict.mem pid (connected_players w)
                then set_connected (Dict.del pid (connected_players w)) w else w)
          = heap w) as Hheap.
  { destruct (Dict.mem pid (connected_players w)); reflexivity. }
  assert (sent (if Dict.mem pid (connected_players w)
                then set_connected (Dict.del pid (connected_players w)) w else w)
          = sent w) as Hsent.
  { destruct (Dict.mem pid (connected_players w)); reflexivity. }
  cbn [heap connected_players game_state sent set_game_state].
  rewrite Hconn, Hheap, Hsent.
  split; [apply mem_del|]. split.
  { rewrite remove_player_players. apply mem_del. }
  repeat split; reflexivity.
Qed.

(** What the [except Exception] clause does after a message that
    [json.loads] rejects: the same removal, but no message at all. *)
Lemma malformed_teardown (w : World) (pid : string) (player : Store.addr) (websocket : nat) :
  pid <> EmptyString -> Dict.mem pid (connected_players w) = true ->
  exists w',
    loop_step pid player websocket (Text None) w = (w', false) /\
    Dict.mem pid (connected_players w') = false /\
    Dict.mem pid (GameState.players (game_state w')) = false /\
    connected_players w' = Dict.del pid (connected_players w) /\
    heap w' = heap w /\
    sent w' = sent w.
Proof.
  intros Hne Hmem. unfold loop_step, handle, except_exception, truthy.
  rewrite (proj2 (eqb_false_ne pid EmptyString) Hne), Hmem. simpl.
  eexists. split; [reflexivity|]. simpl.
  split; [apply mem_del|]. split.
  { rewrite remove_player_players. apply mem_del. }
  repeat split; reflexivity.
Qed.

(** The handler ends with the iteration that raises: the frames after
    it are not read, so the teardown runs once. *)
Lemma main_loop_ends (w : World) (pid : string) (player : Store.addr) (websocket : nat)
  (r : Recv Message) (rest : list (Recv Message)) :
  (loop_step pid player websocket r w).2 = false ->
  main_loop pid player websocket (r :: rest) w = (loop_step pid player websocket r w).1.
Proof.
  intros H. simpl. destruct (loop_step pid player websocket r w) as [w' go_on].
  simpl in H. subst go_on. reflexivity.
Qed.

(** C7, on the lobby.  When Alice's transport disconnects, she is
    removed from both tables and Bob's connection is sent one
    [playerLeft] with her id.  When instead a malformed message of hers
    arrives, she is removed from both tables all the same, but nothing is
    sent: Bob is not told that she left. *)
Theorem malformed_message_sends_no_playerLeft :
  (exists w',
     loop_step "alice" 0%nat 1%nat Disconnected lobby = (w', false) /\
     Dict.mem "alice" (connected_players w') = false /\
     Dict.mem "alice" (GameState.players (game_state w')) = false /\
     sent w' = [(2%nat, MsgPlayerLeft "alice")]) /\
  (exists w',
     loop_step "alice" 0%nat 1%nat (Text None) lobby = (w', false) /\
     Dict.mem "alice" (connected_players w') = false /\
     Dict.mem "alice" (GameState.players (game_state w')) = false /\
     sent w' = [] /\
     count_left "alice" (sent w') = 0%nat).
Proof.
  split.
  - destruct (disconnect_teardown lobby "alice" 0%nat 1%nat ltac:(discriminate))
      as (w' & Hstep & Hc & Hg & Hconn & _ & Hsent).
    exists w'. split; [exact Hstep|]. split; [exact Hc|]. split; [exact Hg|].
    rewrite Hsent, Hconn. reflexivity.
  - destruct (malformed_teardown lobby "alice" 0%nat 1%nat ltac:(discriminate) eq_refl)
      as (w' & Hstep & Hc & Hg & _ & _ & Hsent).
    exists w'. split; [exact Hstep|]. split; [exact Hc|]. split; [exact Hg|].
    rewrite Hsent. split; reflexivity.
Qed.

End Teardown.

(** * Further properties *)

(** ** Checkpoints (player.py) *)

Section Checkpoints.
Import Player.

Lemma update_lap_time_checkpoints p t :
  checkpoints_passed (update_lap_time p t) = checkpoints_passed p /\
  current_checkpoint (update_lap_time p t) = current_checkpoint p.
Proof.
  unfold update_lap_time. destruct (current_lap_start p); [|split; reflexivity].
  destruct (is_new_best _ _); split; reflexivity.
Qed.

Lemma pass_checkpoint_known p c t :
  c ∈ checkpoints_passed p -> pass_checkpoint p c t = p.
Proof.
  intros H. unfold pass_checkpoint. rewrite bool_decide_eq_true_2 by exact H. reflexivity.
Qed.

Lemma pass_checkpoint_new p c t :
  c ∉ checkpoints_passed p ->
  checkpoints_passed (pass_checkpoint p c t) = checkpoints_passed p ++ [c] /\
  current_checkpoint (pass_checkpoint p c t) = c.
Proof.
  intros H. unfold pass_checkpoint. rewrite bool_decide_eq_false_2 by exact H.
  destruct (c =? 0)%Z; [|split; reflexivity].
  destruct (update_lap_time_checkpoints
              (set_checkpoints (checkpoints_passed p ++ [c]) c p) t) as [-> ->].
  split; reflexivity.
Qed.

Lemma pass_checkpoint_elem p c t c' :
  c' ∈ checkpoints_passed (pass_checkpoint p c t) <-> c' ∈ checkpoints_passed p \/ c' = c.
Proof.
  destruct (decide (c ∈ checkpoints_passed p)) as [Hin | Hnot].
  - rewrite (pass_checkpoint_known _ _ _ Hin). split; [left; assumption|].
    intros [H | ->]; assumption.
  - destruct (pass_checkpoint_new p c t Hnot) as [-> _].
    rewrite elem_of_app, list_elem_of_singleton. reflexivity.
Qed.

Lemma pass_checkpoint_nodup p c t :
  NoDup (checkpoints_passed p) -> NoDup (checkpoints_passed (pass_checkpoint p c t)).
Proof.
  intros Hnd. destruct (decide (c ∈ checkpoints_passed p)) as [Hin | Hnot].
  - rewrite (pass_checkpoint_known _ _ _ Hin). exact Hnd.
  - destruct (pass_checkpoint_new p c t Hnot) as [-> _].
    apply NoDup_app. split; [exact Hnd|]. split.
    + intros x Hx Hx'. apply list_elem_of_singleton in Hx'. subst x. contradiction.
    + apply NoDup_singleton.
Qed.

(** X1.  Over any run of [pass_checkpoint] calls the list of passed
    checkpoints stays free of duplicates, and it holds exactly the
    checkpoints it held before and those of the calls. *)
Theorem checkpoints_recorded_once (p : Player.t) (calls : list (Z * R)) :
  NoDup (checkpoints_passed p) ->
  NoDup (checkpoints_passed (passes p calls)) /\
  (forall c, c ∈ checkpoints_passed (passes p calls) <->
             c ∈ checkpoints_passed p \/ c ∈ map fst calls).
Proof.
  revert p. induction calls as [|[c t] calls IH]; intros p Hnd; simpl.
  - split; [exact Hnd|]. intros c. rewrite elem_of_nil. tauto.
  - destruct (IH (pass_checkpoint p c t) (pass_checkpoint_nodup p c t Hnd)) as [Hnd' Hiff].
    split; [exact Hnd'|]. intros c'. unfold passes in Hiff. rewrite Hiff.
    rewrite pass_checkpoint_elem, elem_of_cons. tauto.
Qed.

(** A new player passing checkpoints 1, 2, 1 and 0. *)
Lemma checkpoints_recorded_once_witness :
  NoDup (checkpoints_passed
           (passes (Player.init "alice" "Alice" "default" 1 0)
                   [(1%Z, 1); (2%Z, 2); (1%Z, 3); (0%Z, 4)])).
Proof.
  apply (checkpoints_recorded_once (Player.init "alice" "Alice" "default" 1 0)).
  simpl. apply NoDup_nil_2.
Defined.

(** X2.  Passing a checkpoint that is already in the list changes
    nothing, and a checkpoint that was passed is in the list: so a second
    pass of the same checkpoint, the finish line included, is ignored
    until [reset_checkpoints].  A checkpoint that is not in the list is
    appended to it and becomes the current checkpoint.
    [reset_checkpoints] empties the list, sets the current checkpoint to
    0 and leaves the lap times as they are; after it the checkpoint can
    be passed again. *)
Theorem pass_checkpoint_twice (p : Player.t) (c : Z) (t t' : R) :
  (c ∈ checkpoints_passed p -> pass_checkpoint p c t = p) /\
  c ∈ checkpoints_passed (pass_checkpoint p c t) /\
  pass_checkpoint (pass_checkpoint p c t) c t' = pass_checkpoint p c t /\
  (c ∉ checkpoints_passed (reset_checkpoints (pass_checkpoint p c t))) /\
  (c ∉ checkpoints_passed p ->
   checkpoints_passed (pass_checkpoint p c t) = checkpoints_passed p ++ [c] /\
   current_checkpoint (pass_checkpoint p c t) = c) /\
  checkpoints_passed (reset_checkpoints p) = [] /\
  current_checkpoint (reset_checkpoints p) = 0%Z /\
  best_lap_time (reset_checkpoints p) = best_lap_time p /\
  current_lap_start (reset_checkpoints p) = current_lap_start p /\
  checkpoints_passed (pass_checkpoint (reset_checkpoints (pass_checkpoint p c t)) c t') = [c] /\
  current_checkpoint (pass_checkpoint (reset_checkpoints (pass_checkpoint p c t)) c t') = c.
Proof.
  assert (c ∈ checkpoints_passed (pass_checkpoint p c t)) as Hin.
  { apply pass_checkpoint_elem. right. reflexivity. }
  assert (c ∉ checkpoints_passed (reset_checkpoints (pass_checkpoint p c t))) as Hout.
  { simpl. apply not_elem_of_nil. }
  split; [apply pass_checkpoint_known|]. split; [exact Hin|]. split.
  { apply pass_checkpoint_known. exact Hin. }
  split; [exact Hout|]. split; [apply pass_checkpoint_new|].
  split; [reflexivity|]. split; [reflexivity|]. split; [reflexivity|].
  split; [reflexivity|].
  destruct (pass_checkpoint_new _ c t' Hout) as [Hlist Hcur].
  split; [rewrite Hlist; reflexivity | exact Hcur].
Qed.

Lemma ascending_durations times : forall start,
  ascending start times -> Forall (fun d => 0 <= d) (lap_durations start times).
Proof.
  induction times as [|t times IH]; intros start Hasc; simpl; [constructor|].
  destruct Hasc as [Hle Hrest]. destruct start as [s|].
  - constructor; [lra | apply IH; exact Hrest].
  - apply IH. exact Hrest.
Qed.

(** X3.  When the timestamps of the crossings do not decrease (and the
    best lap time held before, if any, is not negative), no lap duration
    is negative and neither is the best lap time after the run. *)
Theorem best_lap_time_nonnegative (p : Player.t) (times : list R) :
  ascending (current_lap_start p) times ->
  (forall b, best_lap_time p = Some b -> 0 <= b) ->
  Forall (fun d => 0 <= d) (lap_durations (current_lap_start p) times) /\
  (forall b, best_lap_time (crossings p times) = Some b -> 0 <= b).
Proof.
  intros Hasc Hbest.
  pose proof (ascending_durations times _ Hasc) as Hdur.
  split; [exact Hdur|]. intros b Hb.
  pose proof (crossings_least times p) as Hleast. rewrite Hb in Hleast.
  destruct Hleast as [Hin _]. unfold recorded in Hin. apply in_app_or in Hin.
  destruct Hin as [Hin | Hin].
  - destruct (best_lap_time p) as [b0|]; [|destruct Hin].
    destruct Hin as [<- | []]. apply Hbest. reflexivity.
  - rewrite Forall_forall in Hdur. apply Hdur. apply list_elem_of_In. exact Hin.
Qed.

(** A new player crossing the line at times 10, 25 and 37. *)
Lemma best_lap_time_nonnegative_witness :
  Forall (fun d => 0 <= d)
         (lap_durations (current_lap_start (Player.init "alice" "Alice" "default" 1 0))
                        [10; 25; 37]).
Proof.
  apply (best_lap_time_nonnegative (Player.init "alice" "Alice" "default" 1 0) [10; 25; 37]).
  - simpl. repeat split; lra.
  - simpl. discriminate.
Defined.

End Checkpoints.

(** ** More on dictionaries *)

Section DictionaryUpdates.
Context {V : Type}.
Implicit Types (d : Dict.t V) (k : string) (v : V).

Lemma get_set_same k v d : Dict.get k (Dict.set k v d) = Some v.
Proof.
  induction d as [|[k' v'] d IH]; simpl.
  - rewrite eqb_refl_true. reflexivity.
  - destruct (String.eqb_spec k k') as [-> | Hne]; simpl.
    + rewrite eqb_refl_true. reflexivity.
    + destruct (String.eqb_spec k k'); [contradiction | exact IH].
Qed.

Lemma get_set_other k k' v d : k <> k' -> Dict.get k' (Dict.set k v d) = Dict.get k' d.
Proof.
  intros Hne. induction d as [|[k0 v0] d IH]; simpl.
  - destruct (String.eqb_spec k' k); [congruence | reflexivity].
  - destruct (String.eqb_spec k k0) as [-> | Hne0]; simpl.
    + destruct (String.eqb_spec k' k0); [congruence | reflexivity].
    + destruct (String.eqb k' k0); [reflexivity | exact IH].
Qed.

Lemma keys_set k v d :
  Dict.keys (Dict.set k v d) = if Dict.mem k d then Dict.keys d else Dict.keys d ++ [k].
Proof.
  induction d as [|[k' v'] d IH]; simpl; [reflexivity|].
  destruct (String.eqb_spec k k') as [-> | Hne]; simpl; [reflexivity|].
  rewrite IH. destruct (Dict.mem k d); reflexivity.
Qed.

Lemma wf_set k v d : Dict.wf d -> Dict.wf (Dict.set k v d).
Proof.
  unfold Dict.wf. rewrite keys_set. intros Hwf.
  destruct (Dict.mem k d) eqn:Hmem; [exact Hwf|].
  apply NoDup_app. split; [exact Hwf|]. split; [|apply NoDup_singleton].
  intros x Hx Hx'. apply list_elem_of_singleton in Hx'. subst x.
  apply list_elem_of_In, mem_in_keys in Hx. congruence.
Qed.

Lemma set_fresh k v d : Dict.mem k d = false -> Dict.set k v d = d ++ [(k, v)].
Proof.
  induction d as [|[k' v'] d IH]; simpl; [reflexivity|].
  destruct (String.eqb k k'); simpl; [discriminate|].
  intros H. rewrite IH; [reflexivity | exact H].
Qed.

Lemma del_set_fresh k v d : Dict.mem k d = false -> Dict.del k (Dict.set k v d) = d.
Proof.
  intros Hmem. rewrite (set_fresh _ _ _ Hmem). unfold Dict.del.
  rewrite List.filter_app. simpl. rewrite eqb_refl_true. simpl. rewrite app_nil_r.
  apply del_absent. exact Hmem.
Qed.

Lemma length_set k v d :
  length (Dict.set k v d) = if Dict.mem k d then length d else S (length d).
Proof.
  induction d as [|[k' v'] d IH]; simpl; [reflexivity|].
  destruct (String.eqb k k'); simpl; [reflexivity|].
  rewrite IH. destruct (Dict.mem k d); reflexivity.
Qed.

Lemma mem_get k d : Dict.mem k d = true <-> is_Some (Dict.get k d).
Proof.
  induction d as [|[k' v'] d IH]; simpl.
  - split; [discriminate | intros [? ?]; discriminate].
  - destruct (String.eqb k k'); simpl; [|exact IH].
    split; [intros _; eexists; reflexivity | reflexivity].
Qed.

End DictionaryUpdates.

(** ** Joining and leaving the coordinator (game_state.py) *)

Section Spawn.
Import GameState.

(** X4.  [add_player] of an allocated player object: the object gets a
    spawn position at distance 20 from the vertical axis through the
    origin, at height 0.5, and faces outwards (rotation [(0, angle, 0)]
    for the angle of the position); its other fields and all other
    objects are unchanged; and the coordinator's map holds the object
    under the player's id, its other entries being as before. *)
Theorem add_player_spawn (h : Store.t) (self : t) (player : Store.addr) (u : R)
  (p : Player.t) :
  h !! player = Some p ->
  exists p',
    (add_player h self player u).1 !! player = Some p' /\
    Player.position p' = mkVec3 (cos (u * 2 * PI) * 20) 0.5 (sin (u * 2 * PI) * 20) /\
    vx (Player.position p') ^ 2 + vz (Player.position p') ^ 2 = 20 ^ 2 /\
    Player.rotation p' = mkVec3 0 (u * 2 * PI) 0 /\
    Player.id p' = Player.id p /\ Player.websocket p' = Player.websocket p /\
    Player.velocity p' = Player.velocity p /\
    Player.last_update p' = Player.last_update p /\
    (forall a, a <> player -> (add_player h self player u).1 !! a = h !! a) /\
    Dict.get (Player.id p) (players (add_player h self player u).2) = Some player /\
    (forall k, k <> Player.id p ->
       Dict.get k (players (add_player h self player u).2) = Dict.get k (players self)) /\
    (Dict.wf (players self) -> Dict.wf (players (add_player h self player u).2)).
Proof.
  intros Hp. unfold add_player. cbv zeta. cbn [fst snd].
  rewrite (deref_lookup _ _ _ Hp).
  eexists. split.
  { unfold Store.update. rewrite (deref_lookup _ _ _ Hp).
    apply list_lookup_insert_eq. eapply lookup_lt_Some. exact Hp. }
  split; [reflexivity|]. split.
  { simpl. pose proof (sin2_cos2 (u * 2 * PI)) as H. unfold Rsqr in H. nra. }
  do 5 (split; [reflexivity|]).
  split.
  { intros a Ha. unfold Store.update. apply list_lookup_insert_ne. congruence. }
  split; [apply get_set_same|]. split.
  - intros k Hk. apply get_set_other. congruence.
  - apply wf_set.
Qed.

(** Alice spawns a quarter of the way round the circle. *)
Lemma add_player_spawn_witness :
  exists p',
    (add_player [alice] (init 0 7) 0%nat 0.25).1 !! 0%nat = Some p' /\
    vx (Player.position p') ^ 2 + vz (Player.position p') ^ 2 = 20 ^ 2.
Proof.
  destruct (add_player_spawn [alice] (init 0 7) 0%nat 0.25 alice eq_refl)
    as (p' & Hp' & _ & Hdist & _).
  exists p'. split; [exact Hp' | exact Hdist].
Defined.

(** X5.  [remove_player] of an id that is not in the map changes
    nothing; [add_player] under a new id followed by [remove_player] of
    that id gives back the map as it was; and [add_player] under an id
    that is already in the map replaces that entry, so that the map keeps
    its size and its keys. *)
Theorem add_remove_player (h : Store.t) (self : t) (player : Store.addr) (u : R) :
  let id := Player.id (Store.deref h player) in
  (forall k, Dict.mem k (players self) = false -> remove_player self k = self) /\
  (Dict.mem id (players self) = false ->
   players (remove_player (add_player h self player u).2 id) = players self) /\
  (Dict.mem id (players self) = true ->
   Dict.keys (players (add_player h self player u).2) = Dict.keys (players self) /\
   Dict.get id (players (add_player h self player u).2) = Some player).
Proof.
  intros id. split; [|split].
  - intros k Hk. unfold remove_player. rewrite Hk. reflexivity.
  - intros Hmem. rewrite remove_player_players. unfold add_player. cbv zeta. cbn [snd].
    simpl players. apply del_set_fresh. exact Hmem.
  - intros Hmem. unfold add_player. cbv zeta. cbn [snd]. simpl players. split.
    + rewrite keys_set. fold id. rewrite Hmem. reflexivity.
    + apply get_set_same.
Qed.

End Spawn.

(** ** Eviction and the growth of the event log (game_state.py) *)

Section Eviction.
Import GameState.

Lemma remove_all_players (ids : list string) : forall (self : t),
  players (fold_left remove_player ids self)
  = List.filter (fun kv => negb (existsb (String.eqb kv.1) ids)) (players self).
Proof.
  induction ids as [|k ids IH]; intros self; simpl.
  - induction (players self) as [|kv l IHl]; simpl; [reflexivity | f_equal; exact IHl].
  - rewrite IH, remove_player_players. unfold Dict.del.
    induction (players self) as [|kv l IHl]; simpl; [reflexivity|].
    rewrite (String.eqb_sym kv.1 k).
    destruct (String.eqb k kv.1); simpl; [exact IHl|].
    destruct (existsb _ ids); simpl; [exact IHl | f_equal; exact IHl].
Qed.

Lemma existsb_eqb_in k (ids : list string) : existsb (String.eqb k) ids = true <-> In k ids.
Proof.
  rewrite existsb_exists. split.
  - intros (x & Hin & Heq). apply String.eqb_eq in Heq. subst x. exact Hin.
  - intros Hin. exists k. split; [exact Hin | apply String.eqb_refl].
Qed.

(** With unique keys, an id is collected for eviction exactly when the
    player under it is stale. *)
Lemma evicted_iff_stale (h : Store.t) (self : t) kv :
  Dict.wf (players self) -> In kv (players self) ->
  existsb (String.eqb kv.1) (inactive_players h self)
  = Rltb (Player.last_update (Store.deref h kv.2))
         (current_time self - IZR (playerTimeout (config self))).
Proof.
  intros Hwf Hin. destruct kv as [k a]. simpl.
  destruct (Rltb _ _) eqn:Hst.
  - apply existsb_eqb_in, inactive_players_in. exists a. split; [exact Hin|].
    apply Rltb_lt. exact Hst.
  - destruct (existsb _ _) eqn:Hex; [|reflexivity].
    apply existsb_eqb_in, inactive_players_in in Hex. destruct Hex as (a' & Hin' & Hst').
    assert (a' = a) as ->.
    { apply (in_get _ _ _ Hwf) in Hin. apply (in_get _ _ _ Hwf) in Hin'. congruence. }
    apply Rltb_lt in Hst'. unfold stale in Hst'. congruence.
Qed.

Lemma filter_ext_in_list {A} (f g : A -> bool) (l : list A) :
  (forall x, In x l -> f x = g x) -> List.filter f l = List.filter g l.
Proof.
  induction l as [|x l IH]; intros H; simpl; [reflexivity|].
  rewrite (H x (or_introl eq_refl)), IH; [reflexivity|].
  intros y Hy. apply H. right. exact Hy.
Qed.

(** The players [update] keeps. *)
Lemma update_players (h : Store.t) (now : R) (self : t) :
  Dict.wf (players self) ->
  exists self',
    update h now self = Some self' /\
    players self' =
      List.filter (fun kv => negb (Rltb (Player.last_update (Store.deref h kv.2))
                                        (now - IZR (playerTimeout (config self)))))
                  (players self) /\
    (forall k a, Dict.get k (players self) = Some a ->
       Player.last_update (Store.deref h a) = now - IZR (playerTimeout (config self)) ->
       Dict.get k (players self') = Some a) /\
    current_time self' = now /\ tick_count self' = (tick_count self + 1)%Z /\
    Dict.wf (players self').
Proof.
  intros Hwf.
  destruct (update_eq h now self) as (self' & Hupd & Hps & _ & Hnow & Htick).
  assert (players self' =
          List.filter (fun kv => negb (Rltb (Player.last_update (Store.deref h kv.2))
                                            (now - IZR (playerTimeout (config self)))))
                      (players self)) as Hfilter.
  { rewrite Hps. unfold _cleanup_inactive_players. rewrite remove_all_players.
    apply filter_ext_in_list. intros kv Hin. f_equal.
    apply (evicted_iff_stale h (set_clock now (tick_count self + 1) self) kv Hwf Hin). }
  assert (Dict.wf (players self')) as Hwf'.
  { rewrite Hps. unfold _cleanup_inactive_players. apply remove_all_wf. exact Hwf. }
  exists self'. split; [exact Hupd|]. split; [exact Hfilter|].
  split; [|split; [exact Hnow | split; [exact Htick | exact Hwf']]].
  intros k a Hget Hlast. apply (in_get _ _ _ Hwf').
  rewrite Hfilter. apply List.filter_In. split; [apply get_in; exact Hget|].
  simpl. rewrite Hlast. rewrite Rltb_false; [reflexivity | lra].
Qed.

Lemma length_flat_map_le {A B} (f : A -> list B) (l : list A) (m : nat) :
  (forall x, In x l -> (length (f x) <= m)%nat) ->
  (length (flat_map f l) <= length l * m)%nat.
Proof.
  induction l as [|x l IH]; intros H; simpl; [lia|].
  rewrite length_app.
  pose proof (H x (or_introl eq_refl)).
  assert (length (flat_map f l) <= length l * m)%nat.
  { apply IH. intros y Hy. apply H. right. exact Hy. }
  lia.
Qed.

Lemma length_pair_events h now a (ps : Dict.t Store.addr) :
  (length (flat_map (pair_events h now a) ps)
   <= length (List.filter (fun b => negb (String.eqb a.1 b.1)) ps))%nat.
Proof.
  induction ps as [|b ps IH]; simpl; [lia|].
  rewrite length_app. unfold pair_events at 1, collides.
  destruct (String.eqb a.1 b.1); simpl; [exact IH|].
  destruct (Rltb _ 2); simpl; lia.
Qed.

Lemma length_filter_others {A} (f : A -> bool) (l : list A) (x : A) :
  In x l -> f x = false -> (length (List.filter f l) < length l)%nat.
Proof.
  induction l as [|y l IH]; intros Hin Hf; [destruct Hin|]. simpl.
  pose proof (List.filter_length_le f l) as Hle.
  destruct Hin as [-> | Hin].
  - rewrite Hf. lia.
  - specialize (IH Hin Hf). destruct (f y); simpl; lia.
Qed.

Lemma length_collisions h now (ps : Dict.t Store.addr) :
  (length (collisions h now ps) <= length ps * (length ps - 1))%nat.
Proof.
  unfold collisions. apply length_flat_map_le. intros a Ha.
  pose proof (length_pair_events h now a ps) as H1.
  pose proof (length_filter_others (fun b => negb (String.eqb a.1 b.1)) ps a Ha) as H2.
  assert (negb (String.eqb a.1 a.1) = false) as Hself by (rewrite String.eqb_refl; reflexivity).
  specialize (H2 Hself). lia.
Qed.

(** X7.  One [update] only appends to the event log, and with [n]
    players in the map after its eviction step it appends at most
    [n * (n - 1)] events: none when fewer than two players remain. *)
Theorem event_log_growth (h : Store.t) (now : R) (self : t) :
  exists self' new,
    update h now self = Some self' /\
    events self' = events self ++ new /\
    (length new <= length (players self') * (length (players self') - 1))%nat /\
    ((length (players self') < 2)%nat -> new = []).
Proof.
  destruct (update_eq h now self) as (self' & Hupd & _ & Hev & _).
  exists self', (collisions h now (players self')).
  split; [exact Hupd|]. split; [exact Hev|].
  pose proof (length_collisions h now (players self')) as Hlen.
  split; [exact Hlen|]. intros Hfew.
  destruct (collisions h now (players self')) as [|e l]; [reflexivity|].
  simpl in Hlen. exfalso.
  destruct (length (players self')) as [|[|n]]; simpl in *; lia.
Qed.

End Eviction.

(** ** The range of heights (world_generator.py) *)

Section HeightRange.
Import WorldGenerator.
Context {E : Externals} `{!ExternalsOk E}.

Lemma road_height_range (self : t) x z :
  terrain_height self = 100%Z -> 0 <= _get_road_height self x z <= 20.
Proof.
  intros Hth. unfold _get_road_height. cbv zeta. rewrite Hth.
  match goal with |- context [pnoise2 ?a ?b ?c ?d ?e ?f ?g ?h] =>
    pose proof (pnoise2_range a b c d e f g h) end.
  lra.
Qed.

Lemma terrain_height_range (self : t) x z :
  configured self ->
  exists h, get_terrain_height self x z = Some h /\ 0 <= h <= 100.
Proof.
  intros (_ & _ & _ & Hth & Hrw).
  destruct (get_road_factor_range self x z Hrw) as (f & Hf & Hrange).
  rewrite (get_terrain_height_eq self x z f Hf Hrange).
  eexists. split; [reflexivity|].
  pose proof (noise_terrain_height_range self x z Hth) as Ht.
  pose proof (road_height_range self x z Hth) as Hr.
  pose proof (blend_between (noise_terrain_height self x z) (_get_road_height self x z) f Hrange)
    as Hb.
  unfold Rmin, Rmax in Hb. destruct (Rle_dec _ _); lra.
Qed.


End HeightRange.


(** ** The mesh of a chunk (world_generator.py) *)

Section Mesh.
Import WorldGenerator.
Context {E : Externals} `{!ExternalsOk E}.

Lemma length_concat_uniform {A} (rows : list (list A)) (m : nat) :
  Forall (fun row => length row = m) rows -> length (concat rows) = (length rows * m)%nat.
Proof.
  induction 1 as [|row rows Hrow _ IH]; simpl; [reflexivity|].
  rewrite length_app, IH, Hrow. reflexivity.
Qed.

Lemma lookup_concat_uniform {A} (rows : list (list A)) (m i j : nat) (row : list A) (a : A) :
  Forall (fun row => length row = m) rows ->
  rows !! i = Some row -> row !! j = Some a ->
  concat rows !! (i * m + j)%nat = Some a.
Proof.
  intros Hrows. revert i. induction Hrows as [|r rows Hr _ IH]; intros i Hi Hj.
  - discriminate.
  - destruct i as [|i]; simpl in *.
    + injection Hi as ->. rewrite lookup_app_l; [exact Hj|].
      eapply lookup_lt_Some. exact Hj.
    + rewrite lookup_app_r by lia.
      replace (m + i * m + j - length r)%nat with (i * m + j)%nat by lia.
      apply IH; assumption.
Qed.

Lemma py_index_nat {A} (l : list A) (i : nat) : py_index l (Z.of_nat i) = l !! i.
Proof.
  unfold py_index. destruct (Z.leb_spec 0 (Z.of_nat i)); [|lia].
  rewrite Nat2Z.id. reflexivity.
Qed.

Lemma lookup_range (n : Z) (i : nat) :
  (Z.of_nat i < n)%Z -> range n !! i = Some (Z.of_nat i).
Proof.
  intros Hi. unfold range, range2. rewrite list_lookup_fmap.
  rewrite lookup_seq_lt by lia. reflexivity.
Qed.

Lemma mapM_lookup {A B} (f : A -> option B) (l : list A) (k : list B) (i : nat) (a : A) :
  mapM f l = Some k -> l !! i = Some a -> exists b, k !! i = Some b /\ f a = Some b.
Proof.
  intros Hk Ha. apply mapM_Some_1 in Hk.
  destruct (Forall2_lookup_l _ _ _ _ _ Hk Ha) as (b & Hb & Hfb).
  exists b. split; assumption.
Qed.

Lemma mapM_rows_length {A B C} (f : A -> B -> option C) (zs : list A) (xs : list B) rows :
  mapM (fun z => mapM (f z) xs) zs = Some rows ->
  length rows = length zs /\ Forall (fun row => length row = length xs) rows.
Proof.
  intros Hrows. split; [symmetry; eapply length_mapM; exact Hrows|].
  apply Forall_forall. intros row Hin.
  apply list_elem_of_In in Hin.
  destruct (mapM_in _ _ _ _ Hrows Hin) as (z & _ & Hz).
  symmetry. eapply length_mapM. exact Hz.
Qed.

Lemma in_chunk_indices (resolution i : Z) :
  In i (chunk_indices resolution) -> (0 <= i < (resolution + 1) * (resolution + 1))%Z.
Proof.
  unfold chunk_indices. rewrite in_concat. intros (quads & Hq & Hi).
  apply in_map_iff in Hq. destruct Hq as (z & <- & Hz). apply in_range in Hz.
  rewrite in_concat in Hi. destruct Hi as (quad & Hq & Hi).
  apply in_map_iff in Hq. destruct Hq as (x & <- & Hx). apply in_range in Hx.
  unfold quad_indices in Hi. cbv zeta in Hi. simpl in Hi.
  destruct Hi as [<- | [<- | [<- | [<- | [<- | [<- | []]]]]]]; nia.
Qed.

Lemma length_chunk_indices (resolution : Z) :
  length (chunk_indices resolution)
  = (Z.to_nat resolution * Z.to_nat resolution * 6)%nat.
Proof.
  unfold chunk_indices.
  rewrite (length_concat_uniform _ (Z.to_nat resolution * 6)).
  - rewrite length_map, length_range. lia.
  - apply Forall_forall. intros quads Hq. apply list_elem_of_In, in_map_iff in Hq.
    destruct Hq as (z & <- & _).
    rewrite (length_concat_uniform _ 6).
    + rewrite length_map, length_range. reflexivity.
    + apply Forall_forall. intros quad Hquad. apply list_elem_of_In, in_map_iff in Hquad.
      destruct Hquad as (x & <- & _). reflexivity.
Qed.

(** The shape of what [_generate_chunk] builds. *)
Lemma generate_chunk_shape (self : t) chunk_x chunk_z :
  road_width self = 15%Z ->
  exists chunk heightmap rows,
    _generate_chunk self chunk_x chunk_z = Some chunk /\
    c_heightmap chunk = heightmap /\
    chunk_heightmap self (chunk_x * chunk_size self) (chunk_z * chunk_size self) 16
      = Some heightmap /\
    mapM (fun z => mapM (chunk_vertex self (chunk_x * chunk_size self)
                                      (chunk_z * chunk_size self) 16 heightmap z)
                        (range (16 + 1))) (range (16 + 1)) = Some rows /\
    c_vertices chunk = concat rows /\
    c_indices chunk = chunk_indices 16 /\
    c_roads chunk = chunk_roads self (chunk_x * chunk_size self) (chunk_z * chunk_size self) /\
    c_position chunk = ((chunk_x * chunk_size self)%Z, (chunk_z * chunk_size self)%Z) /\
    c_size chunk = chunk_size self /\ c_resolution chunk = 16%Z.
Proof.
  intros Hrw. unfold _generate_chunk. cbv zeta.
  destruct (chunk_heightmap_grid self (chunk_x * chunk_size self) (chunk_z * chunk_size self)
              16 Hrw) as (hm & Hhm & Hgrid); [lia|].
  rewrite Hhm. simpl.
  destruct (chunk_vertices_some self (chunk_x * chunk_size self) (chunk_z * chunk_size self)
              16 hm Hgrid) as [vs Hvs].
  rewrite Hvs. simpl.
  destruct (generate_objects_some self chunk_x chunk_z hm Hrw)
    as (trees & buildings & _ & _ & Hobj & _).
  rewrite Hobj. simpl.
  unfold chunk_vertices in Hvs.
  destruct (mapM _ (range (16 + 1))) as [rows|] eqn:Hrows; [|discriminate].
  simpl in Hvs. injection Hvs as <-.
  eexists _, hm, rows. split; [reflexivity|]. cbn [c_heightmap c_vertices c_indices
    c_roads c_position c_size c_resolution].
  repeat split; first [reflexivity | exact Hhm | exact Hrows].
Qed.

(** X9.  Every generated chunk has a heightmap of 17 rows of 17
    heights, 289 vertices and 1536 indices, and every index is the
    position of a vertex in the vertex list. *)
Theorem chunk_mesh_shape (self : t) (chunk_x chunk_z : Z) :
  road_width self = 15%Z ->
  exists chunk,
    _generate_chunk self chunk_x chunk_z = Some chunk /\
    length (c_heightmap chunk) = 17%nat /\
    Forall (fun row => length row = 17%nat) (c_heightmap chunk) /\
    length (c_vertices chunk) = 289%nat /\
    length (c_indices chunk) = 1536%nat /\
    (forall i, In i (c_indices chunk) ->
       (0 <= i)%Z /\ is_Some (c_vertices chunk !! Z.to_nat i)).
Proof.
  intros Hrw.
  destruct (generate_chunk_shape self chunk_x chunk_z Hrw)
    as (chunk & hm & rows & Hgen & Hhm & Hmap & Hrows & Hvs & Hidx & _).
  exists chunk. split; [exact Hgen|].
  unfold chunk_heightmap in Hmap.
  destruct (mapM_rows_length _ _ _ _ Hmap) as [Hlen Hall].
  destruct (mapM_rows_length _ _ _ _ Hrows) as [Hvlen Hvall].
  rewrite length_range in Hlen, Hvlen.
  assert (length (c_vertices chunk) = 289%nat) as Hcount.
  { rewrite Hvs, (length_concat_uniform _ _ Hvall), Hvlen, length_range. reflexivity. }
  rewrite Hhm. split; [exact Hlen|]. split.
  { eapply Forall_impl; [exact Hall|]. intros row Hrow. cbv beta in Hrow.
    rewrite Hrow, length_range. reflexivity. }
  split; [exact Hcount|]. split.
  { rewrite Hidx, length_chunk_indices. reflexivity. }
  intros i Hi. rewrite Hidx in Hi. apply in_chunk_indices in Hi.
  split; [lia|]. apply lookup_lt_is_Some_2. rewrite Hcount. lia.
Qed.

(** X10.  In every generated chunk the vertex at position
    [z * 17 + x] of the vertex list, for [x] and [z] from 0 to 16, lies
    at the grid point [(world_x + x / 16 * size, world_z + z / 16 * size)],
    has the heightmap sample [heightmap[z][x]] as its height, which is the
    terrain height at that point, and has the texture coordinates
    [(x / 16, z / 16)]. *)
Theorem chunk_vertex_layout (self : t) (chunk_x chunk_z : Z) (x z : nat) :
  road_width self = 15%Z -> (x <= 16)%nat -> (z <= 16)%nat ->
  exists chunk v height,
    _generate_chunk self chunk_x chunk_z = Some chunk /\
    c_vertices chunk !! (z * 17 + x)%nat = Some v /\
    sample (c_heightmap chunk) (Z.of_nat z) (Z.of_nat x) = Some height /\
    get_terrain_height self
      (grid_pos self (chunk_x * chunk_size self) (Z.of_nat x) 16)
      (grid_pos self (chunk_z * chunk_size self) (Z.of_nat z) 16) = Some height /\
    v_position v = mkVec3 (grid_pos self (chunk_x * chunk_size self) (Z.of_nat x) 16) height
                          (grid_pos self (chunk_z * chunk_size self) (Z.of_nat z) 16) /\
    v_u v = IZR (Z.of_nat x) / 16 /\ v_v v = IZR (Z.of_nat z) / 16.
Proof.
  intros Hrw Hx Hz.
  destruct (generate_chunk_shape self chunk_x chunk_z Hrw)
    as (chunk & hm & rows & Hgen & Hhm & Hmap & Hrows & Hvs & _).
  assert (range (16 + 1) !! z = Some (Z.of_nat z)) as Hzr by (apply lookup_range; lia).
  assert (range (16 + 1) !! x = Some (Z.of_nat x)) as Hxr by (apply lookup_range; lia).
  unfold chunk_heightmap in Hmap.
  destruct (mapM_lookup _ _ _ _ _ Hmap Hzr) as (hrow & Hhrow & Hhz).
  destruct (mapM_lookup _ _ _ _ _ Hhz Hxr) as (height & Hheight & Hth).
  destruct (mapM_lookup _ _ _ _ _ Hrows Hzr) as (vrow & Hvrow & Hvz).
  destruct (mapM_lookup _ _ _ _ _ Hvz Hxr) as (v & Hv & Hvertex).
  destruct (mapM_rows_length _ _ _ _ Hrows) as [_ Hvall].
  rewrite length_range in Hvall.
  assert (sample hm (Z.of_nat z) (Z.of_nat x) = Some height) as Hsample.
  { unfold sample. rewrite py_index_nat, Hhrow. simpl. rewrite py_index_nat. exact Hheight. }
  exists chunk, v, height. split; [exact Hgen|]. split.
  { rewrite Hvs. apply (lookup_concat_uniform rows 17 z x vrow v Hvall Hvrow Hv). }
  rewrite Hhm. split; [exact Hsample|]. split; [exact Hth|].
  unfold chunk_vertex in Hvertex. unfold sample in Hsample. rewrite Hsample in Hvertex.
  simpl in Hvertex.
  destruct (_calculate_normal hm (Z.of_nat x) (Z.of_nat z) 16); [|discriminate].
  simpl in Hvertex. injection Hvertex as <-. simpl. repeat split; reflexivity.
Qed.

End Mesh.

(** The chunk at the origin of [one_road], in the reference environment. *)
Lemma chunk_mesh_shape_witness :
  exists chunk,
    WorldGenerator._generate_chunk (E := still) one_road 0 0 = Some chunk /\
    length (WorldGenerator.c_vertices chunk) = 289%nat /\
    length (WorldGenerator.c_indices chunk) = 1536%nat.
Proof.
  destruct (chunk_mesh_shape (E := still) (ExternalsOk0 := still_ok) one_road 0 0 eq_refl)
    as (chunk & Hgen & _ & _ & Hv & Hi & _).
  exists chunk. repeat split; assumption.
Defined.

(** Its last vertex. *)
Lemma chunk_vertex_layout_witness :
  exists chunk v,
    WorldGenerator._generate_chunk (E := still) one_road 0 0 = Some chunk /\
    WorldGenerator.c_vertices chunk !! 288%nat = Some v /\
    WorldGenerator.v_u v = 16 / 16.
Proof.
  destruct (chunk_vertex_layout (E := still) (ExternalsOk0 := still_ok) one_road 0 0
              16%nat 16%nat eq_refl ltac:(lia) ltac:(lia))
    as (chunk & v & height & Hgen & Hv & _ & _ & _ & Hu & _).
  exists chunk, v. split; [exact Hgen|]. split; [exact Hv | exact Hu].
Defined.

(** ** The normals of the mesh (world_generator.py) *)

Section MeshNormals.
Import WorldGenerator.
Context {E : Externals}.

(** What a generated chunk is made of. *)
Lemma generate_chunk_inv (self : t) chunk_x chunk_z chunk :
  _generate_chunk self chunk_x chunk_z = Some chunk ->
  exists rows,
    chunk_heightmap self (chunk_x * chunk_size self) (chunk_z * chunk_size self) 16
      = Some (c_heightmap chunk) /\
    mapM (fun z => mapM (chunk_vertex self (chunk_x * chunk_size self)
                                      (chunk_z * chunk_size self) 16 (c_heightmap chunk) z)
                        (range (16 + 1))) (range (16 + 1)) = Some rows /\
    c_vertices chunk = concat rows.
Proof.
  unfold _generate_chunk. cbv zeta. intros Hchunk.
  destruct (chunk_heightmap _ _ _ _) as [hm|]; [|discriminate].
  cbn [mbind option_bind] in Hchunk.
  destruct (chunk_vertices _ _ _ _ _) as [vs|] eqn:Hvs; [|discriminate].
  cbn [mbind option_bind] in Hchunk.
  destruct (_generate_objects _ _ _ _) as [objs|]; [|discriminate].
  cbn [mbind option_bind] in Hchunk. injection Hchunk as <-.
  cbn [c_heightmap c_vertices].
  unfold chunk_vertices in Hvs.
  destruct (mapM _ (range (16 + 1))) as [rows|] eqn:Hrows; [|discriminate].
  injection Hvs as <-. exists rows. repeat split; reflexivity.
Qed.

(** The heightmap of a generated chunk is a grid of 17 by 17 samples. *)
Lemma generated_heightmap_grid (self : t) chunk_x chunk_z chunk :
  _generate_chunk self chunk_x chunk_z = Some chunk -> is_grid (c_heightmap chunk) 16.
Proof.
  intros Hchunk. destruct (generate_chunk_inv _ _ _ _ Hchunk) as (rows & Hhm & _).
  unfold chunk_heightmap in Hhm.
  destruct (mapM_rows_length _ _ _ _ Hhm) as [Hlen Hall].
  rewrite length_range in Hlen, Hall. split.
  - rewrite Hlen. reflexivity.
  - eapply Forall_impl; [exact Hall|]. intros row Hrow. cbv beta in Hrow.
    rewrite Hrow. reflexivity.
Qed.

(** The vertex of the grid point [(x, z)] carries the normal computed
    there. *)
Lemma generated_vertex_normal (self : t) chunk_x chunk_z chunk (x z : nat) :
  _generate_chunk self chunk_x chunk_z = Some chunk -> (x <= 16)%nat -> (z <= 16)%nat ->
  exists v,
    c_vertices chunk !! (z * 17 + x)%nat = Some v /\
    _calculate_normal (c_heightmap chunk) (Z.of_nat x) (Z.of_nat z) 16 = Some (v_normal v).
Proof.
  intros Hchunk Hx Hz.
  destruct (generate_chunk_inv _ _ _ _ Hchunk) as (rows & _ & Hrows & Hvs).
  assert (range (16 + 1) !! z = Some (Z.of_nat z)) as Hzr by (apply lookup_range; lia).
  assert (range (16 + 1) !! x = Some (Z.of_nat x)) as Hxr by (apply lookup_range; lia).
  destruct (mapM_lookup _ _ _ _ _ Hrows Hzr) as (vrow & Hvrow & Hvz).
  destruct (mapM_lookup _ _ _ _ _ Hvz Hxr) as (v & Hv & Hvertex).
  destruct (mapM_rows_length _ _ _ _ Hrows) as [_ Hvall].
  rewrite length_range in Hvall.
  exists v. split.
  { rewrite Hvs. apply (lookup_concat_uniform rows 17 z x vrow v Hvall Hvrow Hv). }
  unfold chunk_vertex in Hvertex.
  destruct (py_index (c_heightmap chunk) (Z.of_nat z) ≫= _) as [y|]; [|discriminate].
  cbn [mbind option_bind] in Hvertex.
  destruct (_calculate_normal (c_heightmap chunk) (Z.of_nat x) (Z.of_nat z) 16) as [n|];
    [|discriminate].
  cbn [mbind option_bind] in Hvertex. injection Hvertex as <-. reflexivity.
Qed.

(** C6.  On a heightmap of [resolution + 1] by [resolution + 1] samples
    and at a vertex [(x, z)] of the grid, [_calculate_normal] returns the
    normalised central difference of the four neighbouring samples, where
    a neighbour outside the grid is replaced by the boundary sample; the
    result is a unit vector with a strictly positive vertical component.
    The heightmap of a generated chunk is such a grid, for the
    resolution 16; the vertex at position [z * 17 + x] of its vertex
    list carries as its normal what [_calculate_normal] returns at
    [(x, z)] on that heightmap; and the normal of every vertex of the
    chunk is a unit vector that points upwards. *)
Theorem calculate_normal_unit_upward (heightmap : list (list R)) (x z resolution : Z) :
  is_grid heightmap resolution ->
  (0 <= x <= resolution)%Z -> (0 <= z <= resolution)%Z ->
  (exists h_left h_right h_up h_down n,
     sample heightmap z (clamp_prev x) = Some h_left /\
     sample heightmap z (clamp_next x resolution) = Some h_right /\
     sample heightmap (clamp_prev z) x = Some h_up /\
     sample heightmap (clamp_next z resolution) x = Some h_down /\
     _calculate_normal heightmap x z resolution = Some n /\
     (let len := sqrt ((h_left - h_right) * (h_left - h_right) + 4
                       + (h_up - h_down) * (h_up - h_down)) in
      n = mkVec3 ((h_left - h_right) / len) (2 / len) ((h_up - h_down) / len)) /\
     vx n ^ 2 + vy n ^ 2 + vz n ^ 2 = 1 /\ 0 < vy n) /\
  (forall (self : t) chunk_x chunk_z chunk,
     _generate_chunk self chunk_x chunk_z = Some chunk ->
     is_grid (c_heightmap chunk) 16 /\
     (forall i j : nat, (i <= 16)%nat -> (j <= 16)%nat ->
        exists v,
          c_vertices chunk !! (j * 17 + i)%nat = Some v /\
          _calculate_normal (c_heightmap chunk) (Z.of_nat i) (Z.of_nat j) 16
          = Some (v_normal v)) /\
     (forall v, In v (c_vertices chunk) ->
        vx (v_normal v) ^ 2 + vy (v_normal v) ^ 2 + vz (v_normal v) ^ 2 = 1 /\
        0 < vy (v_normal v))).
Proof.
  intros Hgrid Hx Hz. split.
  - apply calculate_normal_on_grid; assumption.
  - intros self chunk_x chunk_z chunk Hchunk.
    split; [exact (generated_heightmap_grid _ _ _ _ Hchunk)|]. split.
    + intros i j Hi Hj. exact (generated_vertex_normal _ _ _ _ i j Hchunk Hi Hj).
    + intros v Hv. exact (generated_normals_unit _ _ _ _ v Hchunk Hv).
Qed.

End MeshNormals.

(** A flat two by two heightmap, at its first vertex. *)
Lemma calculate_normal_unit_upward_witness :
  exists n, WorldGenerator._calculate_normal [[0; 0]; [0; 0]] 0 0 1 = Some n /\
            vx n ^ 2 + vy n ^ 2 + vz n ^ 2 = 1 /\ 0 < vy n.
Proof.
  destruct (calculate_normal_unit_upward (E := still) [[0; 0]; [0; 0]] 0 0 1) as [H _].
  - split; [reflexivity|]. repeat constructor.
  - lia.
  - lia.
  - destruct H as (hl & hr & hu & hd & n & _ & _ & _ & _ & Hn & _ & Hunit).
    exists n. split; [exact Hn | exact Hunit].
Defined.

(** ** The roads of a chunk and the cache (world_generator.py) *)

Section ChunkRoads.
Import WorldGenerator.
Context {E : Externals} `{!ExternalsOk E}.

Lemma Rleb_le a b : Rleb a b = true <-> a <= b.
Proof. unfold Rleb. destruct (Rle_dec a b); split; intros H; congruence || assumption. Qed.

Lemma in_chunk_bounds_spec min_x max_x min_z max_z p1 p2 :
  in_chunk_bounds min_x max_x min_z max_z p1 p2 = true <->
  touches_chunk min_x max_x min_z max_z p1 p2.
Proof.
  unfold in_chunk_bounds, touches_chunk.
  rewrite !andb_true_iff, !orb_true_iff, !andb_true_iff, !Rleb_le. reflexivity.
Qed.

Lemma in_chunk_roads (self : t) world_x world_z seg :
  In seg (chunk_roads self world_x world_z) <->
  In (seg_start seg, seg_end seg) (all_segments (roads self)) /\
  touches_chunk (IZR world_x) (IZR (world_x + chunk_size self))
                (IZR world_z) (IZR (world_z + chunk_size self))
                (seg_start seg) (seg_end seg).
Proof.
  unfold chunk_roads, all_segments. cbv zeta. rewrite !in_concat. split.
  - intros (l & Hl & Hseg). apply in_map_iff in Hl. destruct Hl as (road & <- & Hroad).
    rewrite in_concat in Hseg. destruct Hseg as (l' & Hl' & Hseg).
    apply in_map_iff in Hl'. destruct Hl' as ([p1 p2] & <- & Hpair).
    destruct (in_chunk_bounds _ _ _ _ p1 p2) eqn:Hb; [|destruct Hseg].
    destruct Hseg as [<- | []]. simpl. split.
    + exists (segments road). split; [apply in_map; exact Hroad | exact Hpair].
    + apply in_chunk_bounds_spec. exact Hb.
  - intros [(l & Hl & Hpair) Hb]. apply in_map_iff in Hl. destruct Hl as (road & <- & Hroad).
    eexists. split; [apply (in_map _ _ road); exact Hroad|].
    rewrite in_concat. eexists.
    split; [apply (in_map _ _ (seg_start seg, seg_end seg)); exact Hpair|].
    cbv beta iota. apply in_chunk_bounds_spec in Hb. rewrite Hb. destruct seg. left. reflexivity.
Qed.

(** X11.  The road list of a generated chunk holds exactly the
    segments of the network that pass the box test: an end point with its
    [x] within the chunk's [x] range and an end point, the same or the
    other one, with its [z] within the chunk's [z] range.  So a segment
    with an end point inside the chunk is always listed, and a segment
    that crosses the chunk with both end points beside its [x] range is
    not. *)
Theorem chunk_roads_box_test (self : t) (chunk_x chunk_z : Z) :
  road_width self = 15%Z ->
  exists chunk,
    _generate_chunk self chunk_x chunk_z = Some chunk /\
    let min_x := IZR (chunk_x * chunk_size self) in
    let max_x := IZR (chunk_x * chunk_size self + chunk_size self) in
    let min_z := IZR (chunk_z * chunk_size self) in
    let max_z := IZR (chunk_z * chunk_size self + chunk_size self) in
    (forall seg, In seg (c_roads chunk) <->
       In (seg_start seg, seg_end seg) (all_segments (roads self)) /\
       touches_chunk min_x max_x min_z max_z (seg_start seg) (seg_end seg)) /\
    (forall p1 p2, In (p1, p2) (all_segments (roads self)) ->
       min_x <= px p1 <= max_x -> min_z <= pz p1 <= max_z ->
       In (mkRoadSeg p1 p2) (c_roads chunk)) /\
    (forall p1 p2, px p1 < min_x -> max_x < px p2 -> ~ In (mkRoadSeg p1 p2) (c_roads chunk)).
Proof.
  intros Hrw.
  destruct (generate_chunk_shape self chunk_x chunk_z Hrw)
    as (chunk & hm & rows & Hgen & _ & _ & _ & _ & _ & Hroads & _).
  exists chunk. split; [exact Hgen|]. cbv zeta. rewrite Hroads.
  split; [intros seg; apply in_chunk_roads|]. split.
  - intros p1 p2 Hin Hx Hz. apply in_chunk_roads. simpl. split; [exact Hin|].
    split; left; assumption.
  - intros p1 p2 Hlow Hhigh Hin. apply in_chunk_roads in Hin. simpl in Hin.
    destruct Hin as [_ [[Hx | Hx] _]]; lra.
Qed.

(** X12.  [get_chunk] only adds to the cache: after a call the cache
    holds the returned chunk under the key of the request, every other
    key is as before, nothing that was cached is changed or dropped, and
    the seed and the roads of the generator are untouched; a request for
    a chunk that is cached leaves the generator as it is. *)
Theorem get_chunk_cache_grows (self : t) (chunk_x chunk_z : Z) :
  road_width self = 15%Z ->
  exists chunk self',
    get_chunk self chunk_x chunk_z = Some (chunk, self') /\
    chunks self' !! chunk_key chunk_x chunk_z = Some chunk /\
    (forall k, k <> chunk_key chunk_x chunk_z -> chunks self' !! k = chunks self !! k) /\
    chunks self ⊆ chunks self' /\
    seed self' = seed self /\ roads self' = roads self /\
    (is_Some (chunks self !! chunk_key chunk_x chunk_z) -> self' = self).
Proof.
  intros Hrw. unfold get_chunk. cbv zeta.
  destruct (chunks self !! chunk_key chunk_x chunk_z) as [cached|] eqn:Hlook.
  - exists cached, self. split; [reflexivity|]. split; [exact Hlook|].
    repeat split; try reflexivity.
  - destruct (generate_chunk_some self chunk_x chunk_z Hrw) as [chunk Hgen].
    rewrite Hgen. simpl. eexists _, _. split; [reflexivity|]. simpl.
    split; [apply lookup_insert_eq|]. split.
    { intros k Hk. apply lookup_insert_ne. congruence. }
    split; [apply insert_subseteq; exact Hlook|].
    split; [reflexivity|]. split; [reflexivity|].
    intros [? ?]. discriminate.
Qed.

(** X13.  Two requests use the same cache key exactly when they are
    for the same chunk coordinates, negative ones included. *)
Theorem chunk_keys_distinct (cx cz cx' cz' : Z) :
  chunk_key cx cz = chunk_key cx' cz' <-> cx = cx' /\ cz = cz'.
Proof.
  split; [apply chunk_key_inj|]. intros [-> ->]. reflexivity.
Qed.

End ChunkRoads.

(** The chunk at the origin of [one_road], whose road starts in it. *)
Lemma chunk_roads_box_test_witness :
  exists chunk,
    WorldGenerator._generate_chunk (E := still) one_road 0 0 = Some chunk /\
    In (WorldGenerator.mkRoadSeg (WorldGenerator.mkPoint2 0 0) (WorldGenerator.mkPoint2 10 0))
       (WorldGenerator.c_roads chunk).
Proof.
  destruct (chunk_roads_box_test (E := still) (ExternalsOk0 := still_ok) one_road 0 0 eq_refl)
    as (chunk & Hgen & _ & Hinside & _).
  exists chunk. split; [exact Hgen|]. apply Hinside.
  - left. reflexivity.
  - cbn [WorldGenerator.px WorldGenerator.chunk_size one_road].
    change (0 * 500 + 500)%Z with 500%Z. change (0 * 500)%Z with 0%Z. lra.
  - cbn [WorldGenerator.pz WorldGenerator.chunk_size one_road].
    change (0 * 500 + 500)%Z with 500%Z. change (0 * 500)%Z with 0%Z. lra.
Defined.

Lemma get_chunk_cache_grows_witness :
  exists chunk self',
    WorldGenerator.get_chunk (E := still) one_road 0 0 = Some (chunk, self') /\
    WorldGenerator.chunks self' !! WorldGenerator.chunk_key 0 0 = Some chunk.
Proof.
  destruct (get_chunk_cache_grows (E := still) (ExternalsOk0 := still_ok) one_road 0 0 eq_refl)
    as (chunk & self' & Hget & Hin & _).
  exists chunk, self'. split; [exact Hget | exact Hin].
Defined.

(** ** The shape of the road network (world_generator.py) *)

Section NetworkShape.
Import WorldGenerator.
Context {E : Externals} `{!ExternalsOk E}.

(** A loop whose body never raises and carries an invariant that
    counts the iterations. *)
Lemma for_each_count {A S} (P : nat -> S -> Prop) (l : list A) (body : A -> S -> M S) :
  (forall x n acc s, In x l -> P n acc ->
     exists acc' s', body x acc s = Some (acc', s') /\ P (Datatypes.S n) acc') ->
  forall n acc s, P n acc ->
  exists acc' s', for_each l body acc s = Some (acc', s') /\ P (n + length l)%nat acc'.
Proof.
  induction l as [|x l IH]; intros Hbody n acc s Hacc.
  - exists acc, s. split; [reflexivity|]. simpl. rewrite Nat.add_0_r. exact Hacc.
  - rewrite for_each_cons.
    destruct (Hbody x n acc s (or_introl eq_refl) Hacc) as (acc1 & s1 & H1 & HP1).
    rewrite H1.
    destruct (IH (fun y m a t Hy => Hbody y m a t (or_intror Hy)) (Datatypes.S n) acc1 s1 HP1)
      as (acc' & s' & Hfor & HP).
    exists acc', s'. split; [exact Hfor|].
    simpl. rewrite Nat.add_succ_r. exact HP.
Qed.

Lemma length_range2 a b : length (range2 a b) = Z.to_nat (b - a).
Proof. unfold range2. rewrite length_map, length_seq. reflexivity. Qed.

Lemma circle_point_in_world i road s :
  exists p s', circle_point 10000 36 i road s = Some (road ++ [p], s') /\ in_world p.
Proof.
  unfold circle_point. cbv zeta.
  pose proof (COS_bound (IZR i / 36 * 2 * PI)) as Hcos.
  pose proof (SIN_bound (IZR i / 36 * 2 * PI)) as Hsin.
  destruct ((0 <? i)%Z && (i <? 36)%Z).
  - rewrite (bind_some _ _ _ _ (random_some s)); cbn [fst snd].
    rewrite (bind_some _ _ _ _ (random_some _)); cbn [fst snd].
    pose proof (random_range s) as Hr1.
    pose proof (random_range (rng_random s).2) as Hr2.
    eexists _, _. split; [reflexivity|]. unfold in_world. cbn [px pz].
    set (c := cos _) in *. set (sn := sin _) in *.
    set (r1 := (rng_random s).1) in *. set (r2 := (rng_random _).1) in *.
    clearbody c sn r1 r2. lra.
  - eexists _, _. split; [reflexivity|]. unfold in_world. cbn [px pz].
    set (c := cos _) in *. set (sn := sin _) in *. clearbody c sn. lra.
Qed.

(** The main road: 37 vertices in the world, from [main_road_start]. *)
Lemma circle_road_shape s :
  exists c s',
    circle_road 10000 s = Some (c, s') /\ length c = 37%nat /\ Forall in_world c /\
    head c = Some main_road_start.
Proof.
  destruct (circle_road_some s) as (p & tl & s' & Hc).
  exists (main_road_start :: p :: tl), s'. split; [exact Hc|].
  unfold circle_road in Hc. cbv zeta in Hc.
  destruct (for_each_count (fun n acc => length acc = n /\ Forall in_world acc)
              (range (36 + 1)) (circle_point 10000 36))
    with (n := 0%nat) (acc := @nil Point2) (s := s)
    as (acc & s1 & Hfor & Hlen & Hall).
  { intros x n acc t _ [Hlen Hall].
    destruct (circle_point_in_world x acc t) as (q & t' & Hq & Hw).
    eexists _, _. split; [exact Hq|]. split.
    - rewrite length_app, Hlen. simpl. lia.
    - apply Forall_app. split; [exact Hall | constructor; [exact Hw | constructor]]. }
  { split; [reflexivity | constructor]. }
  assert (Some (acc, s1) = Some (main_road_start :: p :: tl, s')) as Heq.
  { rewrite <- Hfor. exact Hc. }
  injection Heq as Hc' _. rewrite <- Hc'.
  split; [|split].
  - rewrite Hlen, length_range. reflexivity.
  - exact Hall.
  - rewrite Hc'. reflexivity.
Qed.

Lemma quotient_inside j n : (1 <= j < n)%Z -> 0 < IZR j / IZR n < 1.
Proof.
  intros [Hj Hn].
  assert (0 < IZR j) as Hj' by (apply IZR_lt; lia).
  assert (IZR j < IZR n) as Hn' by (apply IZR_lt; lia).
  split.
  - apply Rdiv_lt_0_compat; lra.
  - apply Rmult_lt_reg_r with (IZR n); [lra|].
    unfold Rdiv. rewrite Rmult_assoc, Rinv_l by lra. lra.
Qed.

Lemma radial_point_in_world end_x end_z num_points j road s :
  (1 <= j < num_points)%Z -> 0 <= end_x <= 10000 -> 0 <= end_z <= 10000 ->
  exists p s',
    radial_point 10000 end_x end_z num_points j road s = Some (road ++ [p], s') /\
    in_world p.
Proof.
  intros Hj Hx Hz. unfold radial_point. cbv zeta.
  assert (num_points <> 0)%Z as Hn by lia.
  rewrite (bind_some _ _ _ _ (lift_div_some _ _ s Hn)); cbn [fst snd].
  rewrite (bind_some _ _ _ _ (random_some _)); cbn [fst snd].
  rewrite (bind_some _ _ _ _ (random_some _)); cbn [fst snd].
  pose proof (random_range s) as Hr1.
  pose proof (random_range (rng_random s).2) as Hr2.
  pose proof (quotient_inside j num_points Hj) as Ht.
  eexists _, _. split; [reflexivity|]. unfold in_world. cbn [px pz].
  set (t := IZR j / IZR num_points) in *.
  set (r1 := (rng_random s).1) in *. set (r2 := (rng_random (rng_random s).2).1) in *.
  clearbody t r1 r2.
  assert (0 <= end_x * t) by (apply Rmult_le_pos; lra).
  assert (0 <= (10000 - end_x) * t) by (apply Rmult_le_pos; lra).
  assert (0 <= end_z * t) by (apply Rmult_le_pos; lra).
  assert (0 <= (10000 - end_z) * t) by (apply Rmult_le_pos; lra).
  assert (0 <= r1 * (1 - t)) by (apply Rmult_le_pos; lra).
  assert (0 <= (1 - r1) * (1 - t)) by (apply Rmult_le_pos; lra).
  assert (0 <= r2 * (1 - t)) by (apply Rmult_le_pos; lra).
  assert (0 <= (1 - r2) * (1 - t)) by (apply Rmult_le_pos; lra).
  split; lra.
Qed.

Lemma radial_road_shape num_radial i roads s :
  (num_radial <> 0)%Z ->
  exists r s',
    radial_road 10000 num_radial i roads s = Some (roads ++ [r], s') /\
    (4 <= length r <= 7)%nat /\ Forall in_world r /\
    head r = Some (mkPoint2 5000 5000).
Proof.
  intros Hn. unfold radial_road. cbv zeta.
  rewrite (bind_some _ _ _ _ (lift_div_some _ _ s Hn)); cbn [fst snd].
  rewrite (bind_some _ _ _ _ (randint_some 3 6 _)); cbn [fst snd].
  pose proof (randint_range 3 6 s ltac:(lia)) as Hpoints.
  set (num_points := (rng_randint 3 6 s).1) in *.
  set (angle := IZR i / IZR num_radial * 2 * PI).
  pose proof (COS_bound angle) as Hcos. pose proof (SIN_bound angle) as Hsin.
  set (centre := mkPoint2 (10000 * 0.5) (10000 * 0.5)).
  destruct (for_each_count
              (fun n acc => length acc = Datatypes.S n /\ Forall in_world acc /\
                            head acc = Some centre)
              (range2 1 num_points)
              (radial_point 10000 (10000 * 0.5 + cos angle * 10000 * 0.5)
                            (10000 * 0.5 + sin angle * 10000 * 0.5) num_points))
    with (n := 0%nat) (acc := [centre]) (s := (rng_randint 3 6 s).2)
    as (acc & s1 & Hfor & Hlen & Hall & Hhead).
  { intros x n acc t Hx (Hlen & Hall & Hhead). apply in_range2 in Hx.
    destruct (radial_point_in_world (10000 * 0.5 + cos angle * 10000 * 0.5)
                (10000 * 0.5 + sin angle * 10000 * 0.5) num_points x acc t Hx)
      as (q & t' & Hq & Hw); [lra | lra |].
    eexists _, _. split; [exact Hq|]. split; [|split].
    - rewrite length_app, Hlen. simpl. lia.
    - apply Forall_app. split; [exact Hall | constructor; [exact Hw | constructor]].
    - destruct acc; [discriminate | exact Hhead]. }
  { split; [reflexivity|]. split; [|reflexivity].
    constructor; [|constructor]. unfold in_world, centre. simpl. lra. }
  fold centre. rewrite (bind_some _ _ _ _ Hfor); cbn [fst snd].
  eexists _, _. split; [reflexivity|].
  rewrite length_range2 in Hlen. split; [|split].
  - rewrite length_app, Hlen. simpl. lia.
  - apply Forall_app. split; [exact Hall|]. constructor; [|constructor].
    unfold in_world. simpl. lra.
  - destruct acc; [discriminate|]. simpl in *. rewrite Hhead. unfold centre.
    do 2 f_equal; lra.
Qed.

Lemma clamp_in_world x : 0 <= Rmax 0 (Rmin x 10000) <= 10000.
Proof.
  unfold Rmax, Rmin. destruct (Rle_dec x 10000); destruct (Rle_dec 0 _); lra.
Qed.

Lemma random_step_in_world i angle road s :
  road <> [] ->
  exists angle' p s',
    random_step 10000 i (angle, road) s = Some ((angle', road ++ [p]), s') /\ in_world p.
Proof.
  intros Hne. unfold random_step.
  rewrite (bind_some _ _ _ _ (random_some _)); cbn [fst snd].
  rewrite (bind_some _ _ _ _ (randint_some 100 300 _)); cbn [fst snd].
  destruct (exists_last Hne) as (front & last & ->).
  erewrite (bind_some (lift _)); [|unfold lift; rewrite py_index_last; reflexivity].
  cbn [fst snd].
  eexists _, _, _. split; [reflexivity|].
  unfold in_world. cbn [px pz]. split; apply clamp_in_world.
Qed.

Lemma random_road_shape i roads s :
  exists r s',
    random_road 10000 i roads s = Some (roads ++ [r], s') /\
    (3 <= length r <= 8)%nat /\ Forall in_world r.
Proof.
  unfold random_road. cbv zeta.
  rewrite (bind_some _ _ _ _ (random_some _)); cbn [fst snd].
  rewrite (bind_some _ _ _ _ (random_some _)); cbn [fst snd].
  rewrite (bind_some _ _ _ _ (randint_some 3 8 _)); cbn [fst snd].
  rewrite (bind_some _ _ _ _ (random_some _)); cbn [fst snd].
  pose proof (random_range s) as Hr1.
  pose proof (random_range (rng_random s).2) as Hr2.
  pose proof (randint_range 3 8 (rng_random (rng_random s).2).2 ltac:(lia)) as Hlength.
  match goal with |- context [mbind _ (for_each ?l ?body ?start) ?s1] =>
    destruct (for_each_count
                (fun n (st : R * Road) => length st.2 = Datatypes.S n /\ Forall in_world st.2)
                l body) with (n := 0%nat) (acc := start) (s := s1)
      as (acc & s' & Hfor & Hlen & Hall)
  end.
  - intros x n [angle road] t _ [Hlen Hall]. simpl in Hlen, Hall.
    destruct (random_step_in_world x angle road t) as (angle' & p & t' & Hp & Hw).
    { destruct road; [discriminate | discriminate]. }
    eexists _, _. split; [exact Hp|]. cbn [snd]. split.
    + rewrite length_app, Hlen. simpl. lia.
    + apply Forall_app. split; [exact Hall | constructor; [exact Hw | constructor]].
  - cbn [snd]. split; [reflexivity|]. constructor; [|constructor].
    unfold in_world. cbn [px pz]. lra.
  - rewrite (bind_some _ _ _ _ Hfor); cbn [fst snd].
    eexists _, _. split; [reflexivity|].
    rewrite length_range2 in Hlen. split; [lia | exact Hall].
Qed.

(** The network: the main road, then the radial roads, then the
    freeform roads. *)
Lemma road_network_shape s :
  exists c rest s',
    road_network 10000 s = Some (c :: rest, s') /\
    length c = 37%nat /\ head c = Some main_road_start /\
    (9 <= length rest <= 18)%nat /\ Forall road_ok (c :: rest).
Proof.
  unfold road_network. cbv zeta.
  destruct (circle_road_shape s) as (c & s1 & Hc & Hclen & Hcall & Hchead).
  rewrite (bind_some _ _ _ _ Hc); cbn [fst snd].
  rewrite (bind_some _ _ _ _ (randint_some 4 8 _)); cbn [fst snd].
  pose proof (randint_range 4 8 s1 ltac:(lia)) as Hradial.
  set (num_radial := (rng_randint 4 8 s1).1) in *.
  assert (road_ok c) as Hcok by (split; [lia | exact Hcall]).
  destruct (for_each_count
              (fun n roads => exists rest, roads = c :: rest /\ length rest = n /\
                                           Forall road_ok roads)
              (range num_radial) (radial_road 10000 num_radial))
    with (n := 0%nat) (acc := [] ++ [c]) (s := (rng_randint 4 8 s1).2)
    as (roads1 & s3 & H1 & (rest1 & -> & Hlen1 & Hok1)).
  { intros x n acc t _ (rest & -> & Hlen & Hok).
    destruct (radial_road_shape num_radial x (c :: rest) t) as (r & t' & Hr & Hrlen & Hrall & _);
      [lia|].
    eexists _, _. split; [exact Hr|]. exists (rest ++ [r]). split; [reflexivity|]. split.
    - rewrite length_app, Hlen. simpl. lia.
    - change (c :: rest ++ [r]) with ((c :: rest) ++ [r]).
      apply Forall_app. split; [exact Hok|].
      constructor; [|constructor]. split; [lia | exact Hrall]. }
  { exists []. split; [reflexivity|]. split; [reflexivity|]. constructor; [exact Hcok | constructor]. }
  rewrite (bind_some _ _ _ _ H1); cbn [fst snd].
  rewrite (bind_some _ _ _ _ (randint_some 5 10 _)); cbn [fst snd].
  pose proof (randint_range 5 10 s3 ltac:(lia)) as Hrandom.
  set (num_random := (rng_randint 5 10 s3).1) in *.
  destruct (for_each_count
              (fun n roads => exists rest, roads = c :: rest /\
                                           length rest = (length rest1 + n)%nat /\
                                           Forall road_ok roads)
              (range num_random) (random_road 10000))
    with (n := 0%nat) (acc := c :: rest1) (s := (rng_randint 5 10 s3).2)
    as (roads2 & s5 & H2 & (rest2 & -> & Hlen2 & Hok2)).
  { intros x n acc t _ (rest & -> & Hlen & Hok).
    destruct (random_road_shape x (c :: rest) t) as (r & t' & Hr & Hrlen & Hrall).
    eexists _, _. split; [exact Hr|]. exists (rest ++ [r]). split; [reflexivity|]. split.
    - rewrite length_app, Hlen. simpl. lia.
    - change (c :: rest ++ [r]) with ((c :: rest) ++ [r]).
      apply Forall_app. split; [exact Hok|].
      constructor; [|constructor]. split; [lia | exact Hrall]. }
  { exists rest1. split; [reflexivity|]. split; [lia | exact Hok1]. }
  exists c, rest2, s5. split; [exact H2|].
  rewrite !length_range in *. simpl in Hlen1.
  repeat split; try assumption; lia.
Qed.

(** X14.  For every seed the road network of the generator has
    between 10 and 19 roads.  The first is the main road, of 37
    vertices, which starts at [(8000, 5000)]; every road has at least
    three vertices, hence at least two segments, and every vertex of
    every road lies in the world square from [(0, 0)] to
    [(10000, 10000)]. *)
Theorem road_network_in_world (seed0 : Z) :
  exists g c rest,
    init seed0 = Some g /\ roads g = c :: rest /\
    (10 <= length (roads g) <= 19)%nat /\
    length c = 37%nat /\ head c = Some main_road_start /\
    Forall road_ok (roads g) /\
    (forall road, In road (roads g) -> (2 <= length (segments road))%nat).
Proof.
  unfold init, _generate_road_network.
  destruct (road_network_shape (rng_seed seed0))
    as (c & rest & s' & H & Hlen & Hhead & Hrest & Hok).
  rewrite H. simpl. eexists _, c, rest. split; [reflexivity|]. simpl.
  split; [reflexivity|]. split; [lia|].
  split; [exact Hlen|]. split; [exact Hhead|]. split; [exact Hok|].
  intros road Hin. rewrite Forall_forall in Hok.
  assert (road_ok road) as [[Hl _] _].
  { apply Hok. apply list_elem_of_In. exact Hin. }
  destruct road as [|p1 [|p2 [|p3 tl]]]; simpl in Hl; try lia.
  simpl. lia.
Qed.

End NetworkShape.

(** Seed 42 in the reference environment. *)
Lemma road_network_in_world_witness :
  exists g,
    WorldGenerator.init (E := still) 42 = Some g /\
    (10 <= length (WorldGenerator.roads g) <= 19)%nat.
Proof.
  destruct (road_network_in_world (E := still) (ExternalsOk0 := still_ok) 42)
    as (g & c & rest & Hinit & _ & Hlen & _).
  exists g. split; [exact Hinit | exact Hlen].
Defined.

(** ** Where scenery is placed (world_generator.py) *)

Section Placement.
Import WorldGenerator.
Context {E : Externals} `{!ExternalsOk E}.

Lemma choice_some_in {A} (l : list A) s :
  l <> [] -> exists a, choice l s = Some (a, (rng_choice (length l) s).2) /\ In a l.
Proof.
  intros Hne. unfold choice.
  pose proof (choice_range (length l) s) as Hr.
  destruct (rng_choice (length l) s) as [i s1]. simpl in *.
  destruct (lookup_lt_is_Some_2 l i) as [a Ha].
  { apply Hr. destruct l; [congruence | simpl; lia]. }
  rewrite Ha. exists a. split; [reflexivity|].
  apply list_elem_of_In. eapply list_elem_of_lookup_2. exact Ha.
Qed.

Lemma place_tree_placed (self : t) world_x world_z i objects s :
  road_width self = 15%Z -> chunk_size self = 500%Z ->
  exists s',
    place_tree self world_x world_z i objects s = Some (objects, s') \/
    exists o, place_tree self world_x world_z i objects s = Some (objects ++ [o], s') /\
              tree_placed self world_x world_z o.
Proof.
  intros Hrw Hcs. unfold place_tree. cbv zeta. rewrite Hcs.
  rewrite (bind_some _ _ _ _ (random_some _)); cbn [fst snd].
  rewrite (bind_some _ _ _ _ (random_some _)); cbn [fst snd].
  pose proof (random_range s) as Hr1.
  pose proof (random_range (rng_random s).2) as Hr2.
  set (r1 := (rng_random s).1) in *. set (s1 := (rng_random s).2) in *.
  set (r2 := (rng_random s1).1) in *. set (s2 := (rng_random s1).2) in *.
  destruct (get_road_factor_range self (IZR world_x + r1 * 500) (IZR world_z + r2 * 500) Hrw)
    as (f & Hf & _).
  destruct (get_terrain_height_some self (IZR world_x + r1 * 500) (IZR world_z + r2 * 500) Hrw)
    as (h & Hh).
  rewrite (bind_some _ _ _ _ (lift_some _ _ _ Hf)); cbn [fst snd].
  destruct (Rltb f 0.9); [eexists; left; reflexivity|].
  rewrite (bind_some _ _ _ _ (lift_some _ _ _ Hh)); cbn [fst snd].
  match goal with |- context [mbind _ (choice ?l) ?st] =>
    destruct (choice_some_in l st ltac:(discriminate)) as (ty & Hty & Hin)
  end.
  rewrite (bind_some _ _ _ _ Hty); cbn [fst snd].
  rewrite (bind_some _ _ _ _ (random_some _)); cbn [fst snd].
  rewrite (bind_some _ _ _ _ (random_some _)); cbn [fst snd].
  match goal with |- context [rng_random (rng_choice ?n ?st).2] =>
    pose proof (random_range (rng_choice n st).2) as Hr3;
    pose proof (random_range (rng_random (rng_choice n st).2).2) as Hr4;
    set (r3 := (rng_random (rng_choice n st).2).1) in *;
    set (r4 := (rng_random (rng_random (rng_choice n st).2).2).1) in *
  end.
  eexists. right. eexists. split; [reflexivity|].
  unfold tree_placed. cbn [vx vy vz].
  split; [exact Hin|]. clearbody r1 r2 r3 r4.
  split; [lra|]. split; [lra|]. split; [exact Hh|]. split; lra.
Qed.

Lemma place_building_placed (self : t) world_x world_z i objects s :
  road_width self = 15%Z -> chunk_size self = 500%Z ->
  exists s',
    place_building self world_x world_z i objects s = Some (objects, s') \/
    exists o, place_building self world_x world_z i objects s = Some (objects ++ [o], s') /\
              building_placed self world_x world_z o.
Proof.
  intros Hrw Hcs. unfold place_building. cbv zeta. rewrite Hcs.
  rewrite (bind_some _ _ _ _ (random_some _)); cbn [fst snd].
  rewrite (bind_some _ _ _ _ (random_some _)); cbn [fst snd].
  pose proof (random_range s) as Hr1.
  pose proof (random_range (rng_random s).2) as Hr2.
  set (r1 := (rng_random s).1) in *. set (s1 := (rng_random s).2) in *.
  set (r2 := (rng_random s1).1) in *. set (s2 := (rng_random s1).2) in *.
  destruct (get_road_factor_range self (IZR world_x + r1 * 500) (IZR world_z + r2 * 500) Hrw)
    as (f & Hf & _).
  destruct (get_terrain_height_some self (IZR world_x + r1 * 500) (IZR world_z + r2 * 500) Hrw)
    as (h & Hh).
  rewrite (bind_some _ _ _ _ (lift_some _ _ _ Hf)); cbn [fst snd].
  destruct (Rltb f 0.5 || Rltb 0.9 f); [eexists; left; reflexivity|].
  rewrite (bind_some _ _ _ _ (lift_some _ _ _ Hh)); cbn [fst snd].
  match goal with |- context [mbind _ (choice ?l) ?st] =>
    destruct (choice_some_in l st ltac:(discriminate)) as (ty & Hty & Hin)
  end.
  rewrite (bind_some _ _ _ _ Hty); cbn [fst snd].
  rewrite (bind_some _ _ _ _ (random_some _)); cbn [fst snd].
  rewrite (bind_some _ _ _ _ (randint_some 0 3 _)); cbn [fst snd].
  match goal with |- context [rng_random (rng_choice ?n ?st).2] =>
    pose proof (random_range (rng_choice n st).2) as Hr3;
    set (r3 := (rng_random (rng_choice n st).2).1) in *
  end.
  eexists. right. eexists. split; [reflexivity|].
  unfold building_placed. cbn [vx vy vz].
  split; [exact Hin|]. clearbody r1 r2 r3.
  split; [lra|]. split; [lra|]. split; [exact Hh|]. lra.
Qed.

(** X15.  The object list of a chunk is the accepted trees followed by
    the accepted buildings.  Every object lies inside the square of its
    chunk, stands at the terrain height of its position and is of one of
    the three kinds of its sort; a tree has a rotation in [0, 360) and a
    scale in [0.8, 1.2), a building a scale in [1, 1.5). *)
Theorem objects_inside_their_chunk (self : t) (chunk_x chunk_z : Z)
  (heightmap : list (list R)) :
  configured self ->
  exists trees buildings,
    _generate_objects self chunk_x chunk_z heightmap = Some (trees ++ buildings) /\
    Forall (tree_placed self (chunk_x * 500) (chunk_z * 500)) trees /\
    Forall (building_placed self (chunk_x * 500) (chunk_z * 500)) buildings.
Proof.
  intros (_ & Hcs & _ & _ & Hrw). unfold _generate_objects, objects_loop. cbv zeta.
  rewrite (bind_some _ _ _ _ (randint_some 5 20 _)); cbn [fst snd].
  rewrite (bind_some _ _ _ _ (randint_some 0 2 _)); cbn [fst snd].
  rewrite Hcs.
  match goal with |- context [mbind _ (for_each ?l ?body ?start) ?s1] =>
    destruct (for_each_grow (tree_placed self (chunk_x * 500) (chunk_z * 500)) l body)
      with (acc := start) (s := s1) as (trees & s3 & Ht & _ & Hokt)
  end.
  { intros x acc s. apply place_tree_placed; assumption. }
  rewrite (bind_some _ _ _ _ Ht); cbn [fst snd].
  match goal with |- context [for_each ?l ?body ([] ++ trees) s3] =>
    destruct (for_each_grow (building_placed self (chunk_x * 500) (chunk_z * 500)) l body)
      with (acc := [] ++ trees) (s := s3) as (buildings & s4 & Hb & _ & Hokb)
  end.
  { intros x acc s. apply place_building_placed; assumption. }
  rewrite Hb. simpl. exists trees, buildings. repeat split; assumption.
Qed.

End Placement.

(** The chunk at the origin of [one_road], in the reference environment. *)
Lemma objects_inside_their_chunk_witness :
  exists trees buildings,
    WorldGenerator._generate_objects (E := still) one_road 0 0 [] = Some (trees ++ buildings).
Proof.
  destruct (objects_inside_their_chunk (E := still) (ExternalsOk0 := still_ok)
              one_road 0 0 [] one_road_configured) as (trees & buildings & Hgen & _).
  exists trees, buildings. exact Hgen.
Defined.

(** ** The handshake and the message routes (app.py) *)

Section Routes.
Import App.

(** Routing a message changes neither table and not the coordinator. *)
Lemma route_tables pid player websocket message w :
  connected_players (route pid player websocket message w) = connected_players w /\
  game_state (route pid player websocket message w) = game_state w.
Proof.
  unfold route. cbv zeta.
  destruct (String.eqb _ "position"); [rewrite broadcast_message_eq; split; reflexivity|].
  destruct (String.eqb _ "chat"); [rewrite broadcast_message_eq; split; reflexivity|].
  destruct (String.eqb _ "ping"); split; reflexivity.
Qed.

(** The state after a [position] message. *)
Lemma route_position pid player websocket message w p :
  m_type message = Some "position"%string -> heap w !! player = Some p ->
  let p' := Player.set_kinematics
              (default (Player.position p) (m_position message))
              (default (Player.rotation p) (m_rotation message))
              (default (Player.velocity p) (m_velocity message))
              (GameState.current_time (game_state w)) p in
  route pid player websocket message w
  = mkWorld (<[player := p']> (heap w)) (connected_players w) (game_state w)
            (sent w ++ map (fun ws => (ws, MsgPlayerPosition pid (Player.position p')
                                             (Player.rotation p') (Player.velocity p')))
                           (recipients (heap w) (connected_players w) (Some pid))).
Proof.
  intros Htype Hp p'. unfold route. rewrite Htype. simpl default. cbv zeta.
  change (String.eqb "position" "position") with true. cbv iota.
  rewrite broadcast_message_eq.
  cbn [heap connected_players game_state sent set_heap].
  rewrite (deref_update_same _ _ _ _ Hp). fold p'.
  rewrite recipients_update by reflexivity.
  unfold Store.update. rewrite (deref_lookup _ _ _ Hp). reflexivity.
Qed.

Lemma get_map_values {A B} (f : A -> B) k (d : Dict.t A) :
  Dict.get k (map (fun kv => (kv.1, f kv.2)) d) = f <$> Dict.get k d.
Proof.
  induction d as [|[k' v] d IH]; simpl; [reflexivity|].
  destruct (String.eqb k k'); [reflexivity | exact IH].
Qed.

(** X16.  A [chat] message of player [pid] is sent, with the player's
    id and name and the text of the message (empty when the message has
    none), to the connection of every entry of the table, the sender's
    included; it changes no player object, no table and not the
    coordinator, so it does not refresh the sender's liveness. *)
Theorem chat_reaches_everyone (w : World) (pid : string) (player : Store.addr)
  (websocket : nat) (message : Message) :
  m_type message = Some "chat"%string ->
  exists new,
    loop_step pid player websocket (Text (Some message)) w
    = (mkWorld (heap w) (connected_players w) (game_state w) (sent w ++ new), true) /\
    new = map (fun ws => (ws, MsgChat pid (Player.name (Store.deref (heap w) player))
                                      (default EmptyString (m_message message))))
              (recipients (heap w) (connected_players w) None) /\
    length new = length (connected_players w) /\
    (forall q a, In (q, a) (connected_players w) ->
       In (Player.websocket (Store.deref (heap w) a),
           MsgChat pid (Player.name (Store.deref (heap w) player))
                   (default EmptyString (m_message message))) new).
Proof.
  intros Htype. eexists. split.
  { unfold loop_step, route. rewrite Htype. simpl default. cbv zeta.
    change (String.eqb "chat" "position") with false.
    change (String.eqb "chat" "chat") with true. cbv iota.
    rewrite broadcast_message_eq. reflexivity. }
  split; [reflexivity|]. split.
  - rewrite length_map. unfold recipients. rewrite length_map. simpl differs.
    induction (connected_players w) as [|kv l IH]; simpl; [reflexivity | f_equal; exact IH].
  - intros q a Hin. apply in_map_iff. eexists. split; [reflexivity|].
    apply in_recipients. exists q, a. repeat split; assumption.
Qed.

(** Alice writes to the lobby. *)
Lemma chat_reaches_everyone_witness :
  exists new,
    loop_step "alice" 0%nat 1%nat
      (Text (Some (mkMessage (Some "chat"%string) None None None (Some "hi"%string) None)))
      lobby
    = (mkWorld (heap lobby) (connected_players lobby) (game_state lobby) (sent lobby ++ new),
       true) /\
    length new = 2%nat.
Proof.
  destruct (chat_reaches_everyone lobby "alice" 0%nat 1%nat
              (mkMessage (Some "chat"%string) None None None (Some "hi"%string) None) eq_refl)
    as (new & Hstep & _ & Hlen & _).
  exists new. split; [exact Hstep | exact Hlen].
Defined.

(** X17.  A [ping] message is answered by one [pong] with the
    timestamp of the message, sent to the connection of the handler and
    to no other.  A message of any other type than [position], [chat]
    and [ping], or without a type, is ignored: the state is unchanged
    and the handler goes on. *)
Theorem ping_and_unknown_messages (w : World) (pid : string) (player : Store.addr)
  (websocket : nat) (message : Message) :
  let ty := default EmptyString (m_type message) in
  (ty = "ping"%string ->
   loop_step pid player websocket (Text (Some message)) w
   = (mkWorld (heap w) (connected_players w) (game_state w)
              (sent w ++ [(websocket, MsgPong (m_timestamp message))]), true)) /\
  (ty <> "position"%string -> ty <> "chat"%string -> ty <> "ping"%string ->
   loop_step pid player websocket (Text (Some message)) w = (w, true)).
Proof.
  intros ty. unfold loop_step, route. cbv zeta. fold ty. split.
  - intros ->. reflexivity.
  - intros H1 H2 H3.
    destruct (String.eqb_spec ty "position"); [contradiction|].
    destruct (String.eqb_spec ty "chat"); [contradiction|].
    destruct (String.eqb_spec ty "ping"); [contradiction|]. reflexivity.
Qed.

(** X18.  The coordinator sees what a [position] message writes,
    because its map and the connection hold the same player object:
    after the message, the public state lists the player under its id
    with the new position and rotation. *)
Theorem position_is_seen_by_the_coordinator (w : World) (pid : string)
  (player : Store.addr) (websocket : nat) (message : Message) (p : Player.t) :
  m_type message = Some "position"%string ->
  heap w !! player = Some p ->
  Dict.get pid (GameState.players (game_state w)) = Some player ->
  let w' := (loop_step pid player websocket (Text (Some message)) w).1 in
  Dict.get pid (GameState.pub_players (GameState.get_public_state (heap w') (game_state w')))
  = Some (GameState.mkPublicPlayer
            (Player.id p) (Player.name p)
            (default (Player.position p) (m_position message))
            (default (Player.rotation p) (m_rotation message))
            (Player.vehicle_type p)).
Proof.
  intros Htype Hp Hget w'. unfold w', loop_step. cbn [fst].
  rewrite (route_position pid player websocket message w p Htype Hp).
  cbn [heap game_state]. unfold GameState.get_public_state. cbn [GameState.pub_players].
  rewrite (get_map_values
             (fun a => let q := Store.deref (<[player := _]> (heap w)) a in
                       GameState.mkPublicPlayer (Player.id q) (Player.name q)
                         (Player.position q) (Player.rotation q) (Player.vehicle_type q))).
  rewrite Hget. simpl. f_equal. unfold Store.deref.
  rewrite list_lookup_insert_eq by (eapply lookup_lt_Some; exact Hp). reflexivity.
Qed.

(** Alice moves, in the lobby. *)
Lemma position_is_seen_by_the_coordinator_witness :
  Dict.get "alice"
    (GameState.pub_players
       (GameState.get_public_state
          (heap (loop_step "alice" 0%nat 1%nat (Text (Some move)) lobby).1)
          (game_state (loop_step "alice" 0%nat 1%nat (Text (Some move)) lobby).1)))
  = Some (GameState.mkPublicPlayer "alice" "Alice" (mkVec3 1 2 3) Player.zero3 "default").
Proof.
  exact (position_is_seen_by_the_coordinator lobby "alice" 0%nat 1%nat move alice
           eq_refl eq_refl eq_refl).
Defined.

(** X19.  A [position] message keeps a player alive: when the player
    is in the coordinator's map and the next tick comes no more than the
    timeout after the coordinator's current time, that tick does not
    evict the player. *)
Theorem position_message_keeps_alive (w : World) (pid : string) (player : Store.addr)
  (websocket : nat) (message : Message) (p : Player.t) (now : R) :
  m_type message = Some "position"%string ->
  heap w !! player = Some p ->
  Dict.wf (GameState.players (game_state w)) ->
  Dict.get pid (GameState.players (game_state w)) = Some player ->
  now - GameState.current_time (game_state w)
    <= IZR (GameState.playerTimeout (GameState.config (game_state w))) ->
  exists w1 w2,
    loop_step pid player websocket (Text (Some message)) w = (w1, true) /\
    game_loop_step now w1 = Some w2 /\
    Dict.get pid (GameState.players (game_state w2)) = Some player.
Proof.
  intros Htype Hp Hwf Hget Hsoon. unfold loop_step.
  rewrite (route_position pid player websocket message w p Htype Hp).
  destruct (update_players (<[player := Player.set_kinematics
              (default (Player.position p) (m_position message))
              (default (Player.rotation p) (m_rotation message))
              (default (Player.velocity p) (m_velocity message))
              (GameState.current_time (game_state w)) p]> (heap w)) now (game_state w) Hwf)
    as (g & Hupd & Hfilter & _ & _ & _ & Hwf').
  eexists _, (set_game_state g _). split; [reflexivity|]. split.
  - unfold game_loop_step. cbn [heap game_state]. rewrite Hupd. reflexivity.
  - cbn [game_state set_game_state].
    apply (in_get _ _ _ Hwf'). rewrite Hfilter. apply List.filter_In.
    split; [apply get_in; exact Hget|]. cbn [snd]. unfold Store.deref.
    rewrite list_lookup_insert_eq by (eapply lookup_lt_Some; exact Hp).
    simpl. rewrite Rltb_false; [reflexivity | lra].
Qed.

(** Alice moves in the lobby and the tick comes 30 seconds later. *)
Lemma position_message_keeps_alive_witness :
  exists w1 w2,
    loop_step "alice" 0%nat 1%nat (Text (Some move)) lobby = (w1, true) /\
    game_loop_step 30 w1 = Some w2 /\
    Dict.get "alice" (GameState.players (game_state w2)) = Some 0%nat.
Proof.
  apply (position_message_keeps_alive lobby "alice" 0%nat 1%nat move alice 30).
  - reflexivity.
  - reflexivity.
  - exact lobby_wf.
  - reflexivity.
  - simpl. lra.
Defined.

End Routes.

Section Sessions.
Import App.

Lemma deref_alloc (h : Store.t) p : Store.deref (h ++ [p]) (length h) = p.
Proof.
  unfold Store.deref. rewrite lookup_app_r by lia.
  replace (length h - length h)%nat with 0%nat by lia. reflexivity.
Qed.

Lemma update_alloc (h : Store.t) p f :
  Store.update (length h) f (h ++ [p]) = h ++ [f p].
Proof.
  unfold Store.update. rewrite deref_alloc.
  rewrite insert_app_r_alt by lia.
  replace (length h - length h)%nat with 0%nat by lia. reflexivity.
Qed.

(** The state after a handshake. *)
Lemma connect_eq websocket hello now u w :
  let pid := joining_id hello w in
  let a := length (heap w) in
  let p := joined_player websocket hello now u w in
  let h' := heap w ++ [p] in
  let c' := Dict.set pid a (connected_players w) in
  let g' := GameState.set_players (Dict.set pid a (GameState.players (game_state w)))
                                  (game_state w) in
  connect websocket (Text (Some hello)) now u w
  = (mkWorld h' c' g'
       (sent w ++
        (websocket, MsgInit pid (GameState.get_public_state h' g')
                            (GameState.world_seed (game_state w)))
        :: map (fun ws => (ws, MsgPlayerJoined pid (joining_name hello w)
                                 (default "default"%string (h_vehicleType hello))
                                 (Player.position p) (Player.rotation p)))
               (recipients h' c' None)),
     Some (pid, a)).
Proof.
  intros pid a p h' c' g'. unfold connect. cbv zeta. unfold Store.alloc.
  fold pid. fold (joining_id hello w). fold (joining_name hello w). fold pid.
  subst a h' c' g'.
  cbn [set_heap set_connected heap connected_players game_state sent].
  unfold GameState.add_player. cbv zeta. rewrite update_alloc.
  rewrite deref_alloc. cbn [Player.id Player.init].
  rewrite broadcast_message_eq.
  cbn [set_heap set_connected set_game_state send_json heap connected_players game_state sent].
  rewrite deref_alloc. rewrite <- List.app_assoc. reflexivity.
Qed.

Lemma joining_id_nonempty hello w :
  h_playerId hello <> Some EmptyString -> joining_id hello w <> EmptyString.
Proof.
  unfold joining_id. destruct (h_playerId hello) as [s|]; simpl.
  - intros H Heq. apply H. rewrite Heq. reflexivity.
  - intros _. discriminate.
Qed.

(** What one iteration of the main loop can do to the tables and to
    the store. *)
Lemma loop_step_frame pid player websocket r w :
  let w' := (loop_step pid player websocket r w).1 in
  (connected_players w' = connected_players w \/
   connected_players w' = Dict.del pid (connected_players w)) /\
  (GameState.players (game_state w') = GameState.players (game_state w) \/
   GameState.players (game_state w') = Dict.del pid (GameState.players (game_state w))) /\
  length (heap w') = length (heap w) /\
  (forall a, a <> player -> heap w' !! a = heap w !! a).
Proof.
  destruct r as [|[message|]]; cbn [loop_step fst handle].
  - unfold except_disconnect. destruct (truthy (Some pid)).
    + cbv zeta. rewrite broadcast_message_eq.
      destruct (Dict.mem pid (connected_players w)) eqn:Hmem;
        cbn [set_connected set_game_state heap connected_players game_state];
        rewrite remove_player_players;
        (split; [|split; [right; reflexivity | split; [reflexivity | reflexivity]]]).
      * right. reflexivity.
      * left. reflexivity.
    + split; [left; reflexivity | split; [left; reflexivity | split; reflexivity]].
  - destruct (route_tables pid player websocket message w) as [Hc Hg].
    rewrite Hc, Hg. split; [left; reflexivity | split; [left; reflexivity |]].
    unfold route. cbv zeta.
    destruct (String.eqb _ "position").
    { rewrite broadcast_message_eq. cbn [heap set_heap]. unfold Store.update.
      split; [apply length_insert|]. intros a Ha.
      apply list_lookup_insert_ne. congruence. }
    destruct (String.eqb _ "chat"); [rewrite broadcast_message_eq; split; reflexivity|].
    destruct (String.eqb _ "ping"); split; reflexivity.
  - unfold except_exception.
    destruct (truthy (Some pid) && Dict.mem pid (connected_players w)).
    + cbn [set_connected set_game_state heap connected_players game_state].
      rewrite remove_player_players.
      split; [right; reflexivity | split; [right; reflexivity | split; reflexivity]].
    + split; [left; reflexivity | split; [left; reflexivity | split; reflexivity]].
Qed.

Lemma get_del_other {V} k q (d : Dict.t V) :
  q <> k -> Dict.get q (Dict.del k d) = Dict.get q d.
Proof.
  intros Hne. unfold Dict.del. induction d as [|[k' v] d IH]; simpl; [reflexivity|].
  destruct (String.eqb_spec k k') as [<- | Hk]; simpl.
  - destruct (String.eqb_spec q k); [contradiction | exact IH].
  - destruct (String.eqb q k'); [reflexivity | exact IH].
Qed.

(** What routing a message sends is no [playerLeft]. *)
Lemma route_sent pid player websocket message w :
  exists new, sent (route pid player websocket message w) = sent w ++ new /\
              Forall (fun m => forall q, m.2 <> MsgPlayerLeft q) new.
Proof.
  unfold route. cbv zeta.
  destruct (String.eqb _ "position").
  { rewrite broadcast_message_eq. eexists. split; [reflexivity|].
    apply Forall_forall. intros m Hm. apply list_elem_of_In, in_map_iff in Hm.
    destruct Hm as (ws & <- & _). discriminate. }
  destruct (String.eqb _ "chat").
  { rewrite broadcast_message_eq. eexists. split; [reflexivity|].
    apply Forall_forall. intros m Hm. apply list_elem_of_In, in_map_iff in Hm.
    destruct Hm as (ws & <- & _). discriminate. }
  destruct (String.eqb _ "ping").
  - eexists. split; [reflexivity|]. apply Forall_singleton. discriminate.
  - exists []. split; [symmetry; apply List.app_nil_r | apply Forall_nil_2].
Qed.

(** A session that meets a raising frame removes its player. *)
Lemma main_loop_raises pid player websocket frames w :
  pid <> EmptyString -> Dict.mem pid (connected_players w) = true ->
  Exists raises frames ->
  Dict.mem pid (connected_players (main_loop pid player websocket frames w)) = false /\
  Dict.mem pid (GameState.players (game_state (main_loop pid player websocket frames w)))
  = false.
Proof.
  intros Hpid. revert w. induction frames as [|r rest IH]; intros w Hmem Hex.
  { apply Exists_nil in Hex. contradiction. }
  destruct r as [|[message|]].
  - rewrite main_loop_ends.
    + destruct (disconnect_teardown w pid player websocket Hpid)
        as (w' & Hstep & Hc & Hg & _). rewrite Hstep. split; assumption.
    + reflexivity.
  - change (main_loop pid player websocket (Text (Some message) :: rest) w)
      with (main_loop pid player websocket rest (route pid player websocket message w)).
    apply IH.
    + rewrite (proj1 (route_tables pid player websocket message w)). exact Hmem.
    + apply Exists_cons in Hex. destruct Hex as [[] | Hex]. exact Hex.
  - rewrite main_loop_ends.
    + destruct (malformed_teardown w pid player websocket Hpid Hmem)
        as (w' & Hstep & Hc & Hg & _). rewrite Hstep. split; assumption.
    + reflexivity.
Qed.

(** A session none of whose frames raises leaves the tables alone. *)
Lemma main_loop_quiet pid player websocket frames w :
  ~ Exists raises frames ->
  connected_players (main_loop pid player websocket frames w) = connected_players w /\
  game_state (main_loop pid player websocket frames w) = game_state w.
Proof.
  revert w. induction frames as [|r rest IH]; intros w Hno; [split; reflexivity|].
  destruct r as [|[message|]].
  - exfalso. apply Hno. apply Exists_cons_hd. exact I.
  - change (main_loop pid player websocket (Text (Some message) :: rest) w)
      with (main_loop pid player websocket rest (route pid player websocket message w)).
    destruct (IH (route pid player websocket message w)) as [Hc Hg].
    { intros Hex. apply Hno. apply Exists_cons_tl. exact Hex. }
    rewrite Hc, Hg. apply route_tables.
  - exfalso. apply Hno. apply Exists_cons_hd. exact I.
Qed.

(** X20.  A handshake with a JSON object creates one new player
    object, under the id of the message or, without one, under
    [player_N] for N one more than the number of connections, and
    enters that one object into the connection table and into the
    coordinator's map; the entries of the other ids stay.  It sends
    [init] to the new connection and then [playerJoined] to every
    connection of the table, the new one included.  The public state
    of [init] already lists the new player at its spawn position.  A
    handshake that fails to deliver a JSON text changes nothing. *)
Theorem handshake_joins (w : World) (websocket : nat) (hello : Hello) (now u : R) :
  let pid := joining_id hello w in
  let a := length (heap w) in
  let p := joined_player websocket hello now u w in
  let joined := MsgPlayerJoined pid (joining_name hello w)
                  (default "default"%string (h_vehicleType hello))
                  (Player.position p) (Player.rotation p) in
  (exists w',
     connect websocket (Text (Some hello)) now u w = (w', Some (pid, a)) /\
     heap w' = heap w ++ [p] /\
     Dict.get pid (connected_players w') = Some a /\
     Dict.get pid (GameState.players (game_state w')) = Some a /\
     (forall q, q <> pid ->
        Dict.get q (connected_players w') = Dict.get q (connected_players w) /\
        Dict.get q (GameState.players (game_state w'))
        = Dict.get q (GameState.players (game_state w))) /\
     sent w' = sent w ++
               (websocket, MsgInit pid (GameState.get_public_state (heap w') (game_state w'))
                                   (GameState.world_seed (game_state w)))
               :: map (fun ws => (ws, joined))
                      (recipients (heap w') (connected_players w') None) /\
     In websocket (recipients (heap w') (connected_players w') None) /\
     Dict.get pid (GameState.pub_players
                     (GameState.get_public_state (heap w') (game_state w')))
     = Some (GameState.mkPublicPlayer pid (joining_name hello w)
               (mkVec3 (cos (u * 2 * PI) * 20) 0.5 (sin (u * 2 * PI) * 20))
               (mkVec3 0 (u * 2 * PI) 0)
               (default "default"%string (h_vehicleType hello)))) /\
  connect websocket Disconnected now u w = (w, None) /\
  connect websocket (Text None) now u w = (w, None).
Proof.
  intros pid a p joined. split; [|split; reflexivity].
  eexists. split; [apply connect_eq|].
  cbn [heap connected_players game_state sent GameState.players GameState.set_players].
  fold pid a p.
  split; [reflexivity|]. split; [apply get_set_same|]. split; [apply get_set_same|].
  split; [intros q Hq; split; apply get_set_other; congruence|].
  split; [reflexivity|]. split.
  - apply in_recipients. exists pid, a. split; [apply get_in, get_set_same|].
    split; [reflexivity|]. unfold a. rewrite deref_alloc. reflexivity.
  - unfold GameState.get_public_state. cbn [GameState.pub_players GameState.players].
    rewrite (get_map_values
               (fun b => let q := Store.deref (heap w ++ [p]) b in
                         GameState.mkPublicPlayer (Player.id q) (Player.name q)
                           (Player.position q) (Player.rotation q) (Player.vehicle_type q))).
    cbn [GameState.players GameState.set_players].
    rewrite get_set_same. simpl. unfold a. rewrite deref_alloc. reflexivity.
Qed.



(** X22.  Whatever frames a connection receives, its handler adds no
    entry to the connection table or to the coordinator's map, and
    removes at most the entry of its own id; it allocates no player
    object and writes to no object but its own. *)
Theorem session_changes_only_its_own (w : World) (pid : string) (player : Store.addr)
  (websocket : nat) (frames : list (Recv Message)) :
  let w' := main_loop pid player websocket frames w in
  (connected_players w' = connected_players w \/
   connected_players w' = Dict.del pid (connected_players w)) /\
  (GameState.players (game_state w') = GameState.players (game_state w) \/
   GameState.players (game_state w') = Dict.del pid (GameState.players (game_state w))) /\
  (forall q, q <> pid ->
     Dict.get q (connected_players w') = Dict.get q (connected_players w) /\
     Dict.get q (GameState.players (game_state w'))
     = Dict.get q (GameState.players (game_state w))) /\
  length (heap w') = length (heap w) /\
  (forall a, a <> player -> heap w' !! a = heap w !! a).
Proof.
  assert (forall w,
    let w' := main_loop pid player websocket frames w in
    (connected_players w' = connected_players w \/
     connected_players w' = Dict.del pid (connected_players w)) /\
    (GameState.players (game_state w') = GameState.players (game_state w) \/
     GameState.players (game_state w') = Dict.del pid (GameState.players (game_state w))) /\
    length (heap w') = length (heap w) /\
    (forall a, a <> player -> heap w' !! a = heap w !! a)) as Hframe.
  { clear w. induction frames as [|r rest IH]; intros w.
    { cbn [main_loop]. split; [left; reflexivity|]. split; [left; reflexivity|].
      split; reflexivity. }
    pose proof (loop_step_frame pid player websocket r w) as Hstep.
    destruct r as [|[message|]].
    - rewrite main_loop_ends by reflexivity. exact Hstep.
    - change (main_loop pid player websocket (Text (Some message) :: rest) w)
        with (main_loop pid player websocket rest (route pid player websocket message w)).
      cbn [loop_step fst] in Hstep. cbv zeta in Hstep.
      destruct Hstep as (_ & _ & Hlen & Hother).
      destruct (route_tables pid player websocket message w) as [Hc Hg].
      specialize (IH (route pid player websocket message w)). cbv zeta in IH.
      rewrite Hc, Hg, Hlen in IH. destruct IH as (IHc & IHg & IHlen & IHother).
      split; [exact IHc|]. split; [exact IHg|]. split; [exact IHlen|].
      intros a Ha. rewrite (IHother a Ha). apply Hother. exact Ha.
    - rewrite main_loop_ends by reflexivity. exact Hstep. }
  intros w'. destruct (Hframe w) as (Hc & Hg & Hlen & Hother). fold w' in Hc, Hg, Hlen, Hother.
  split; [exact Hc|]. split; [exact Hg|]. split; [|split; [exact Hlen | exact Hother]].
  intros q Hq. split.
  - destruct Hc as [-> | ->]; [reflexivity | apply get_del_other; exact Hq].
  - destruct Hg as [-> | ->]; [reflexivity | apply get_del_other; exact Hq].
Qed.

(** X23.  A player that joins with the empty string as its id is never
    removed by its handler: however its session ends, both tables
    still hold the player, and the session has sent no [playerLeft]. *)
Theorem empty_id_is_never_torn_down (w : World) (websocket : nat) (hello : Hello)
  (frames : list (Recv Message)) (now u : R) :
  h_playerId hello = Some EmptyString ->
  let w' := websocket_endpoint websocket (Text (Some hello)) frames now u w in
  Dict.get EmptyString (connected_players w') = Some (length (heap w)) /\
  Dict.get EmptyString (GameState.players (game_state w')) = Some (length (heap w)) /\
  count_left EmptyString (sent w') = count_left EmptyString (sent w).
Proof.
  intros Hid w'.
  assert (joining_id hello w = EmptyString) as Hjoin
    by (unfold joining_id; rewrite Hid; reflexivity).
  assert (forall player w0,
    let w1 := main_loop EmptyString player websocket frames w0 in
    connected_players w1 = connected_players w0 /\
    game_state w1 = game_state w0 /\
    count_left EmptyString (sent w1) = count_left EmptyString (sent w0)) as Hloop.
  { intros player. induction frames as [|r rest IH]; intros w0.
    { cbn [main_loop]. split; [reflexivity | split; reflexivity]. }
    destruct r as [|[message|]].
    - rewrite main_loop_ends by reflexivity. cbn. split; [reflexivity | split; reflexivity].
    - change (main_loop EmptyString player websocket (Text (Some message) :: rest) w0)
        with (main_loop EmptyString player websocket rest
                (route EmptyString player websocket message w0)).
      specialize (IH (route EmptyString player websocket message w0)). cbv zeta in IH.
      destruct IH as (Hc & Hg & Hs).
      destruct (route_tables EmptyString player websocket message w0) as [Hc0 Hg0].
      cbv zeta. rewrite Hc, Hg, Hs. split; [exact Hc0|]. split; [exact Hg0|].
      destruct (route_sent EmptyString player websocket message w0) as (new & -> & Hnew).
      unfold count_left. rewrite List.filter_app, length_app.
      replace (List.filter _ new) with (@nil (nat * Outbound)); [simpl; lia|].
      symmetry. clear -Hnew. induction Hnew as [|m l Hm _ IHl]; [reflexivity|].
      simpl. destruct m as [ws [ | | | | |q]]; simpl; try exact IHl.
      exfalso. apply (Hm q). reflexivity.
    - rewrite main_loop_ends by reflexivity. cbn. split; [reflexivity | split; reflexivity]. }
  unfold w', websocket_endpoint. rewrite connect_eq. rewrite Hjoin.
  destruct (Hloop (length (heap w))
              (mkWorld (heap w ++ [joined_player websocket hello now u w])
                 (Dict.set EmptyString (length (heap w)) (connected_players w))
                 (GameState.set_players
                    (Dict.set EmptyString (length (heap w))
                       (GameState.players (game_state w))) (game_state w))
                 (sent w ++
                  (websocket,
                   MsgInit EmptyString
                     (GameState.get_public_state
                        (heap w ++ [joined_player websocket hello now u w])
                        (GameState.set_players
                           (Dict.set EmptyString (length (heap w))
                              (GameState.players (game_state w))) (game_state w)))
                     (GameState.world_seed (game_state w)))
                  :: map (fun ws => (ws, MsgPlayerJoined EmptyString (joining_name hello w)
                                           (default "default"%string (h_vehicleType hello))
                                           (Player.position (joined_player websocket hello now u w))
                                           (Player.rotation (joined_player websocket hello now u w))))
                         (recipients (heap w ++ [joined_player websocket hello now u w])
                            (Dict.set EmptyString (length (heap w)) (connected_players w))
                            None))))
    as (Hc & Hg & Hs).
  cbv zeta in Hc, Hg, Hs. rewrite Hc, Hg, Hs.
  cbn [connected_players game_state sent GameState.players GameState.set_players].
  split; [apply get_set_same|]. split; [apply get_set_same|].
  unfold count_left. rewrite List.filter_app, length_app.
  cbn [List.filter snd]. 
  replace (List.filter _ (map _ _)) with (@nil (nat * Outbound)); [simpl; lia|].
  symmetry. clear Hc Hg Hs Hloop.
  induction (recipients _ _ None) as [|ws l IHl]; [reflexivity | exact IHl].
Qed.

(** A client joins the lobby with an empty id and disconnects. *)
Lemma empty_id_is_never_torn_down_witness :
  Dict.get EmptyString
    (connected_players
       (websocket_endpoint 3%nat (Text (Some (mkHello (Some EmptyString) None None)))
          [Disconnected] 5 0 lobby))
  = Some 2%nat.
Proof.
  exact (proj1 (empty_id_is_never_torn_down lobby 3%nat (mkHello (Some EmptyString) None None)
                  [Disconnected] 5 0 eq_refl)).
Defined.



End Sessions.

(** ** The distance to a segment, again (world_generator.py) *)

Section LeastDistance.
Import WorldGenerator.

(** X25.  [_point_to_line_distance] computes the distance from the
    query point to the segment: the result is the distance to one point
    [p1 + t (p2 - p1)] of the segment, with [t] between 0 and 1, and no
    point of the segment is nearer. *)
Theorem point_to_line_distance_is_least (x z x1 z1 x2 z2 : R) :
  exists d,
    _point_to_line_distance x z x1 z1 x2 z2 = Some d /\
    (exists t, 0 <= t <= 1 /\
       d = sqrt ((x - (x1 + t * (x2 - x1))) ^ 2 + (z - (z1 + t * (z2 - z1))) ^ 2)) /\
    (forall t, 0 <= t <= 1 ->
       d <= sqrt ((x - (x1 + t * (x2 - x1))) ^ 2 + (z - (z1 + t * (z2 - z1))) ^ 2)).
Proof.
  unfold _point_to_line_distance. cbv zeta.
  set (A := x2 - x1). set (B := z2 - z1). set (C := x - x1). set (D := z - z1).
  set (dot := A * A + B * B). set (S := A * C + B * D).
  assert (forall t, (x - (x1 + t * A)) ^ 2 + (z - (z1 + t * B)) ^ 2
                    = C * C + D * D - 2 * t * S + t * t * dot) as Hat.
  { intros t. unfold dot, S, A, B, C, D. ring. }
  assert (0 <= dot) as Hdot0 by (unfold dot; nra).
  destruct (Reqb dot 0) eqn:Hdot.
  - apply Reqb_eq in Hdot.
    assert (A = 0 /\ B = 0) as [HA HB] by (unfold dot in Hdot; split; nra).
    rewrite py_sqrt_nonneg by apply sum_squares_nonneg.
    eexists. split; [reflexivity|]. split.
    + exists 0. split; [lra|]. f_equal. rewrite Hat. ring.
    + intros t _. apply sqrt_le_1_alt. rewrite Hat. unfold S. rewrite HA, HB, Hdot. lra.
  - assert (dot <> 0) as Hne by (intros Heq; apply Reqb_eq in Heq; congruence).
    assert (0 < dot) as Hpos by lra.
    fold S. rewrite (py_div_nonzero _ _ Hne). cbn [mbind option_bind].
    destruct (Rltb (S / dot) 0) eqn:Hneg.
    + apply Rltb_lt in Hneg.
      assert (S < 0) as HS.
      { replace S with (S / dot * dot) by (field; exact Hne). nra. }
      rewrite py_sqrt_nonneg by apply sum_squares_nonneg.
      eexists. split; [reflexivity|]. split.
      * exists 0. split; [lra|]. f_equal. rewrite Hat. ring.
      * intros t [Ht0 Ht1]. apply sqrt_le_1_alt. rewrite Hat.
        assert (0 <= t * - S) by (apply Rmult_le_pos; lra).
        assert (0 <= t * t * dot) by (apply Rmult_le_pos; [nra | lra]).
        lra.
    + apply Rltb_ge in Hneg.
      destruct (Rltb 1 (S / dot)) eqn:Hbeyond.
      * apply Rltb_lt in Hbeyond.
        assert (dot < S) as HS.
        { replace S with (S / dot * dot) by (field; exact Hne). nra. }
        rewrite py_sqrt_nonneg by apply sum_pow2_nonneg.
        eexists. split; [reflexivity|]. split.
        { exists 1. split; [lra|]. f_equal. unfold A, B. ring. }
        intros t [Ht0 Ht1]. apply sqrt_le_1_alt. rewrite Hat.
        replace ((x - x2) ^ 2 + (z - z2) ^ 2) with (C * C + D * D - 2 * S + dot)
          by (unfold dot, S, A, B, C, D; ring).
        assert (0 <= (1 - t) * (2 * S - dot * (1 + t))).
        { apply Rmult_le_pos; [lra|].
          assert (dot * (1 + t) <= dot * 2) by (apply Rmult_le_compat_l; lra). lra. }
        lra.
      * apply Rltb_ge in Hbeyond.
        rewrite py_sqrt_nonneg by apply sum_pow2_nonneg.
        eexists. split; [reflexivity|]. split.
        { exists (S / dot). split; [lra | reflexivity]. }
        intros t _. apply sqrt_le_1_alt. rewrite !Hat.
        assert (C * C + D * D - 2 * t * S + t * t * dot
                - (C * C + D * D - 2 * (S / dot) * S + S / dot * (S / dot) * dot)
                = dot * ((t - S / dot) * (t - S / dot))) as Hdiff by (field; exact Hne).
        assert (0 <= dot * ((t - S / dot) * (t - S / dot)))
          by (apply Rmult_le_pos; [lra | apply (Rle_0_sqr (t - S / dot))]).
        lra.
Qed.

End LeastDistance.

(** ** The domain of the normal computation (world_generator.py) *)

Section NormalDomain.
Import WorldGenerator.

(** The indices Python accepts for a list. *)
Lemma py_index_is_Some {A} (l : list A) (i : Z) :
  is_Some (py_index l i) <-> (- Z.of_nat (length l) <= i < Z.of_nat (length l))%Z.
Proof.
  unfold py_index. destruct (Z.leb_spec 0 i) as [Hi | Hi].
  - rewrite lookup_lt_is_Some. lia.
  - destruct (Z.leb_spec (- Z.of_nat (length l)) i) as [Hlow | Hlow].
    + rewrite lookup_lt_is_Some. lia.
    + split; [intros [a Ha]; discriminate | lia].
Qed.

Lemma py_index_elem {A} (l : list A) (i : Z) a : py_index l i = Some a -> a ∈ l.
Proof.
  unfold py_index. destruct (0 <=? i)%Z.
  - apply list_elem_of_lookup_2.
  - destruct (_ <=? i)%Z; [apply list_elem_of_lookup_2 | discriminate].
Qed.

Lemma sample_is_Some heightmap resolution z x :
  is_grid heightmap resolution ->
  is_Some (sample heightmap z x) <->
  (- (resolution + 1) <= z <= resolution)%Z /\ (- (resolution + 1) <= x <= resolution)%Z.
Proof.
  intros [Hlen Hrows]. unfold sample. split.
  - intros [h Hh]. destruct (py_index heightmap z) as [row|] eqn:Hrow; [|discriminate].
    cbn [mbind option_bind] in Hh.
    assert (is_Some (py_index heightmap z)) as Hz by (rewrite Hrow; eexists; reflexivity).
    assert (is_Some (py_index row x)) as Hx by (rewrite Hh; eexists; reflexivity).
    apply py_index_is_Some in Hz. apply py_index_is_Some in Hx.
    rewrite Forall_forall in Hrows. rewrite (Hrows row (py_index_elem _ _ _ Hrow)) in Hx.
    lia.
  - intros [Hz Hx].
    destruct (proj2 (py_index_is_Some heightmap z)) as [row Hrow]; [lia|].
    rewrite Hrow. cbn [mbind option_bind]. apply py_index_is_Some.
    rewrite Forall_forall in Hrows. rewrite (Hrows row (py_index_elem _ _ _ Hrow)). lia.
Qed.

(** The function returns exactly when its four reads succeed. *)
Lemma calculate_normal_is_Some heightmap x z resolution :
  is_Some (_calculate_normal heightmap x z resolution) <->
  is_Some (sample heightmap (if (z =? 0)%Z then z else (z - 1)%Z) x) /\
  is_Some (sample heightmap (if (z =? resolution)%Z then z else (z + 1)%Z) x) /\
  is_Some (sample heightmap z (if (x =? 0)%Z then x else (x - 1)%Z)) /\
  is_Some (sample heightmap z (if (x =? resolution)%Z then x else (x + 1)%Z)).
Proof.
  split.
  - intros [n Hn]. unfold _calculate_normal in Hn. cbv zeta in Hn. unfold sample.
    destruct (py_index heightmap (if (z =? 0)%Z then z else (z - 1)%Z)
                ≫= (fun row => py_index row x)) as [hu|]; [|discriminate].
    cbn [mbind option_bind] in Hn.
    destruct (py_index heightmap (if (z =? resolution)%Z then z else (z + 1)%Z)
                ≫= (fun row => py_index row x)) as [hd|]; [|discriminate].
    cbn [mbind option_bind] in Hn.
    destruct (py_index heightmap z
                ≫= (fun row => py_index row (if (x =? 0)%Z then x else (x - 1)%Z)))
      as [hl|]; [|discriminate].
    cbn [mbind option_bind] in Hn.
    destruct (py_index heightmap z
                ≫= (fun row => py_index row (if (x =? resolution)%Z then x else (x + 1)%Z)))
      as [hr|]; [|discriminate].
    repeat split; eexists; reflexivity.
  - intros ([hu Hu] & [hd Hd] & [hl Hl] & [hr Hr]).
    rewrite (calculate_normal_eq _ _ _ _ _ _ _ _ Hu Hd Hl Hr). eexists. reflexivity.
Qed.

(** X26.  On a heightmap of [resolution + 1] by [resolution + 1]
    samples, [_calculate_normal] returns exactly for the indices from
    [-resolution] to [resolution] in both directions: the negative ones
    are read from the end of the rows, as Python indexes, and every
    other index raises an IndexError. *)
Theorem calculate_normal_domain (heightmap : list (list R)) (x z resolution : Z) :
  is_grid heightmap resolution ->
  is_Some (_calculate_normal heightmap x z resolution) <->
  (- resolution <= x <= resolution)%Z /\ (- resolution <= z <= resolution)%Z.
Proof.
  intros Hgrid. rewrite calculate_normal_is_Some.
  rewrite !(sample_is_Some _ resolution _ _ Hgrid).
  destruct (Z.eqb_spec z 0), (Z.eqb_spec z resolution),
           (Z.eqb_spec x 0), (Z.eqb_spec x resolution); lia.
Qed.

(** The vertex left of a grid of two by two samples. *)
Lemma calculate_normal_domain_witness :
  is_Some (_calculate_normal [[0; 0]; [0; 0]] (-1) 0 1) /\
  _calculate_normal [[0; 0]; [0; 0]] 2 0 1 = None.
Proof.
  assert (is_grid [[0; 0]; [0; 0]] 1) as Hgrid
    by (split; [reflexivity | repeat constructor]).
  split.
  - apply (calculate_normal_domain [[0; 0]; [0; 0]] (-1) 0 1 Hgrid). lia.
  - destruct (_calculate_normal [[0; 0]; [0; 0]] 2 0 1) as [n|] eqn:Hn; [|reflexivity].
    assert (is_Some (_calculate_normal [[0; 0]; [0; 0]] 2 0 1)) as Hs
      by (rewrite Hn; eexists; reflexivity).
    apply (calculate_normal_domain [[0; 0]; [0; 0]] 2 0 1 Hgrid) in Hs. lia.
Defined.

(** X27.  On a heightmap whose samples are all equal the normal of
    every vertex is the vertical unit vector. *)
Theorem calculate_normal_flat (heightmap : list (list R)) (x z resolution : Z) (c : R) :
  is_grid heightmap resolution ->
  Forall (Forall (fun h => h = c)) heightmap ->
  (0 <= x <= resolution)%Z -> (0 <= z <= resolution)%Z ->
  _calculate_normal heightmap x z resolution = Some (mkVec3 0 1 0).
Proof.
  intros Hgrid Hflat Hx Hz.
  assert (forall z' x' h, sample heightmap z' x' = Some h -> h = c) as Hc.
  { intros z' x' h. unfold sample.
    destruct (py_index heightmap z') as [row|] eqn:Hrow; [|discriminate].
    cbn [mbind option_bind]. intros Hh.
    rewrite Forall_forall in Hflat. pose proof (Hflat row (py_index_elem _ _ _ Hrow)) as Hr.
    rewrite Forall_forall in Hr. apply Hr. eapply py_index_elem. exact Hh. }
  destruct (calculate_normal_on_grid heightmap x z resolution Hgrid Hx Hz)
    as (hl & hr & hu & hd & n & Hl & Hr & Hu & Hd & Hn & Heq & _).
  rewrite Hn. f_equal. cbv zeta in Heq. rewrite Heq.
  rewrite (Hc _ _ _ Hl), (Hc _ _ _ Hr), (Hc _ _ _ Hu), (Hc _ _ _ Hd).
  replace ((c - c) * (c - c) + 4 + (c - c) * (c - c)) with (2 * 2) by ring.
  rewrite sqrt_square by lra. f_equal; field.
Qed.

(** A level grid of two by two samples. *)
Lemma calculate_normal_flat_witness :
  _calculate_normal [[3; 3]; [3; 3]] 1 0 1 = Some (mkVec3 0 1 0).
Proof.
  apply (calculate_normal_flat [[3; 3]; [3; 3]] 1 0 1 3).
  - split; [reflexivity | repeat constructor].
  - repeat constructor.
  - lia.
  - lia.
Defined.

End NormalDomain.

(** ** Runs of the game loop (app.py, game_state.py) *)

Section Ticks.
Import App.

Lemma update_config h now (self self' : GameState.t) :
  GameState.update h now self = Some self' ->
  GameState.config self' = GameState.config self.
Proof.
  unfold GameState.update. cbv zeta. rewrite process_events_eq. intros [= <-].
  unfold GameState._cleanup_inactive_players.
  destruct (remove_all_rest
              (GameState.inactive_players h
                 (GameState.set_clock now (GameState.tick_count self + 1) self))
              (GameState.set_clock now (GameState.tick_count self + 1) self))
    as (_ & _ & _ & Hc).
  simpl. rewrite Hc. reflexivity.
Qed.

(** Runs of the game loop with exact squares. *)
Lemma game_loop_exact (clock : list R) (w : World) :
  Dict.wf (GameState.players (game_state w)) ->
  exists w',
    game_loop clock w = Some w' /\
    heap w' = heap w /\ connected_players w' = connected_players w /\ sent w' = sent w /\
    GameState.tick_count (game_state w')
    = (GameState.tick_count (game_state w) + Z.of_nat (length clock))%Z /\
    (forall k a, Dict.get k (GameState.players (game_state w')) = Some a ->
       Dict.get k (GameState.players (game_state w)) = Some a) /\
    (forall k a, Dict.get k (GameState.players (game_state w)) = Some a ->
       Forall (fun now => now - Player.last_update (Store.deref (heap w) a)
                          <= IZR (GameState.playerTimeout (GameState.config (game_state w))))
              clock ->
       Dict.get k (GameState.players (game_state w')) = Some a).
Proof.
  revert w. induction clock as [|now rest IH]; intros w Hwf.
  { exists w. cbn [game_loop length]. repeat split; try reflexivity; try lia.
    - intros k a H. exact H.
    - intros k a H _. exact H. }
  destruct (update_players (heap w) now (game_state w) Hwf)
    as (g & Hupd & Hfilter & _ & _ & Htick & Hwf').
  pose proof (update_config _ _ _ _ Hupd) as Hconfig.
  destruct (IH (set_game_state g w) Hwf')
    as (w' & Hrun & Hheap & Hconn & Hsent & Hticks & Hback & Hstay).
  cbn [heap connected_players game_state sent set_game_state] in *.
  exists w'. split.
  { cbn [game_loop]. unfold game_loop_step. rewrite Hupd. exact Hrun. }
  split; [exact Hheap|]. split; [exact Hconn|]. split; [exact Hsent|]. split.
  { rewrite Hticks, Htick. cbn [length]. lia. }
  split.
  - intros k a Hget. apply Hback in Hget. apply get_in in Hget. rewrite Hfilter in Hget.
    apply List.filter_In in Hget. apply (in_get _ _ _ Hwf). exact (proj1 Hget).
  - intros k a Hget Hall. apply Forall_cons in Hall. destruct Hall as [Hnow Hrest].
    apply Hstay.
    + apply (in_get _ _ _ Hwf'). rewrite Hfilter. apply List.filter_In.
      split; [apply get_in; exact Hget|]. cbn [snd].
      rewrite Rltb_false; [reflexivity | lra].
    + rewrite Hconfig. exact Hrest.
Qed.

End Ticks.

(** ** Vehicle statistics (player.py) *)

Section Vehicles.

(** X29.  [_get_vehicle_stats] knows three vehicle types and gives
    every other type, the empty one included, the statistics of
    [default].  Whatever the type, handling, braking and drag lie
    strictly between 0 and 1, and speed, acceleration and mass within
    the bounds set by the truck and the sports car. *)
Theorem vehicle_stats_fallback (vehicle_type : string) :
  let stats := Player._get_vehicle_stats vehicle_type in
  (vehicle_type <> "sports"%string -> vehicle_type <> "truck"%string ->
   stats = Player._get_vehicle_stats "default") /\
  (stats = Player.stats_default \/ stats = Player.stats_sports \/
   stats = Player.stats_truck) /\
  0 < Player.handling stats < 1 /\ 0 < Player.braking stats < 1 /\
  0 < Player.drag stats < 1 /\
  30 <= Player.maxSpeed stats <= 60 /\ 5 <= Player.acceleration_stat stats <= 15 /\
  1000 <= Player.mass stats <= 2500.
Proof.
  intros stats. unfold stats, Player._get_vehicle_stats.
  destruct (String.eqb_spec vehicle_type "default") as [-> | Hd].
  { simpl. repeat split; try lra; try (left; reflexivity). }
  destruct (String.eqb_spec vehicle_type "sports") as [-> | Hs].
  { simpl. repeat split; try lra; try (right; left; reflexivity). intros H. congruence. }
  destruct (String.eqb_spec vehicle_type "truck") as [-> | Ht].
  { simpl. repeat split; try lra; try (right; right; reflexivity). intros _ H. congruence. }
  simpl. repeat split; try lra; try (left; reflexivity).
Qed.

End Vehicles.

(** * Overflow

    The functions of [Checked] against those of the modules: a call
    that returns in [Checked] returns the same in the module, and it
    raises when a square leaves the range of the floats. *)

(** ** Checked arithmetic *)

Section CheckedArithmetic.

Lemma float_max_pos : 0 < Checked.float_max.
Proof. unfold Checked.float_max. apply IZR_lt. reflexivity. Qed.

Lemma py_pow_return a :
  a ^ 2 <= Checked.float_max -> Checked.py_pow a 2 = Checked.Return (a ^ 2).
Proof.
  intros H. unfold Checked.py_pow.
  rewrite Rabs_pos_eq by apply pow2_ge_0.
  rewrite Rltb_false; [reflexivity | exact H].
Qed.

Lemma py_pow_raise a :
  Checked.float_max < a ^ 2 -> Checked.py_pow a 2 = Checked.Raise Checked.OverflowError.
Proof.
  intros H. unfold Checked.py_pow.
  rewrite Rabs_pos_eq by apply pow2_ge_0.
  rewrite Rltb_true; [reflexivity | exact H].
Qed.

(** The two outcomes of a square. *)
Lemma py_pow_cases a :
  (a ^ 2 <= Checked.float_max /\ Checked.py_pow a 2 = Checked.Return (a ^ 2)) \/
  (Checked.float_max < a ^ 2 /\ Checked.py_pow a 2 = Checked.Raise Checked.OverflowError).
Proof.
  destruct (Rle_lt_dec (a ^ 2) Checked.float_max) as [H | H].
  - left. split; [exact H | apply py_pow_return; exact H].
  - right. split; [exact H | apply py_pow_raise; exact H].
Qed.

Lemma checked_sqrt_return a : 0 <= a -> Checked.py_sqrt a = Checked.Return (sqrt a).
Proof. intros H. unfold Checked.py_sqrt. rewrite Rltb_false; [reflexivity | exact H]. Qed.

Lemma checked_div_return a b : b <> 0 -> Checked.py_div a b = Checked.Return (a / b).
Proof. intros H. unfold Checked.py_div. rewrite Reqb_false; [reflexivity | exact H]. Qed.

End CheckedArithmetic.

(** ** The distance to a segment (world_generator.py) *)

Section CheckedDistance.
Import WorldGenerator.

(** [math.sqrt(a ** 2 + b ** 2)]: it returns when both squares are
    floats and raises OverflowError when one is not. *)
Lemma root_of_squares a b :
  (a ^ 2 <= Checked.float_max /\ b ^ 2 <= Checked.float_max /\
   (dx ← Checked.py_pow a 2; dz ← Checked.py_pow b 2; Checked.py_sqrt (dx + dz))
   = Checked.Return (sqrt (a ^ 2 + b ^ 2))) \/
  ((Checked.float_max < a ^ 2 \/ Checked.float_max < b ^ 2) /\
   (dx ← Checked.py_pow a 2; dz ← Checked.py_pow b 2; Checked.py_sqrt (dx + dz))
   = Checked.Raise Checked.OverflowError).
Proof.
  destruct (py_pow_cases a) as [[Ha Hpa] | [Ha Hpa]]; rewrite Hpa; simpl.
  - destruct (py_pow_cases b) as [[Hb Hpb] | [Hb Hpb]]; rewrite Hpb; simpl.
    + left. split; [exact Ha|]. split; [exact Hb|].
      apply checked_sqrt_return. apply sum_pow2_nonneg.
    + right. split; [right; exact Hb | reflexivity].
  - right. split; [left; exact Ha | reflexivity].
Qed.



End CheckedDistance.

(** ** The tick (game_state.py) *)

Section CheckedTick.
Import GameState.

Lemma comparable_dec p1 p2 : comparable p1 p2 \/ ~ comparable p1 p2.
Proof.
  unfold comparable, squarable.
  destruct (Rle_lt_dec ((vx p1 - vx p2) ^ 2) Checked.float_max);
    [|right; intros (H & _ & _); lra].
  destruct (Rle_lt_dec ((vy p1 - vy p2) ^ 2) Checked.float_max);
    [|right; intros (_ & H & _); lra].
  destruct (Rle_lt_dec ((vz p1 - vz p2) ^ 2) Checked.float_max);
    [|right; intros (_ & _ & H); lra].
  left. repeat split; assumption.
Qed.

(** The distance is computed when the positions are comparable, and
    the first square that is no float raises. *)
Lemma checked_distance3_cases p1 p2 :
  (comparable p1 p2 /\
   Checked.distance3 p1 p2
   = Checked.Return (sqrt ((vx p1 - vx p2) ^ 2 + (vy p1 - vy p2) ^ 2 + (vz p1 - vz p2) ^ 2))) \/
  (~ comparable p1 p2 /\ Checked.distance3 p1 p2 = Checked.Raise Checked.OverflowError).
Proof.
  unfold Checked.distance3, comparable, squarable.
  destruct (py_pow_cases (vx p1 - vx p2)) as [[Hx Hpx] | [Hx Hpx]]; rewrite Hpx; simpl;
    [|right; split; [intros (H & _ & _); lra | reflexivity]].
  destruct (py_pow_cases (vy p1 - vy p2)) as [[Hy Hpy] | [Hy Hpy]]; rewrite Hpy; simpl;
    [|right; split; [intros (_ & H & _); lra | reflexivity]].
  destruct (py_pow_cases (vz p1 - vz p2)) as [[Hz Hpz] | [Hz Hpz]]; rewrite Hpz; simpl;
    [|right; split; [intros (_ & _ & H); lra | reflexivity]].
  left. split; [repeat split; assumption|].
  apply checked_sqrt_return.
  pose proof (pow2_ge_0 (vx p1 - vx p2)). pose proof (pow2_ge_0 (vy p1 - vy p2)).
  pose proof (pow2_ge_0 (vz p1 - vz p2)). lra.
Qed.

Lemma checked_check_pair_cases h now a b evs :
  (pair_ok h a b /\
   Checked.check_pair h now a b evs = Checked.Return (evs ++ pair_events h now a b)) \/
  (~ pair_ok h a b /\
   Checked.check_pair h now a b evs = Checked.Raise Checked.OverflowError).
Proof.
  unfold Checked.check_pair, pair_events, collides, collision_event, distance, pair_ok.
  destruct a as [ka pa], b as [kb pb]. cbn [fst snd].
  destruct (String.eqb_spec ka kb) as [Heq | Hne]; cbn [negb andb].
  { left. split; [left; exact Heq | rewrite app_nil_r; reflexivity]. }
  destruct (checked_distance3_cases (Player.position (Store.deref h pa))
                                    (Player.position (Store.deref h pb)))
    as [[Hc ->] | [Hc ->]]; cbn [mbind Checked.Result_bind].
  - left. split; [right; exact Hc|].
    replace 2.0 with 2 by lra.
    destruct (Rltb _ 2); [reflexivity | rewrite app_nil_r; reflexivity].
  - right. split; [|reflexivity]. intros [Heq | Hc']; contradiction.
Qed.

Lemma checked_inner_loop_cases h now a (ps : Dict.t Store.addr) : forall evs,
  (Forall (pair_ok h a) ps /\
   Checked.for_res ps (Checked.check_pair h now a) evs
   = Checked.Return (evs ++ flat_map (pair_events h now a) ps)) \/
  (~ Forall (pair_ok h a) ps /\
   Checked.for_res ps (Checked.check_pair h now a) evs
   = Checked.Raise Checked.OverflowError).
Proof.
  induction ps as [|b ps IH]; intros evs; cbn [Checked.for_res flat_map].
  { left. split; [constructor | rewrite app_nil_r; reflexivity]. }
  destruct (checked_check_pair_cases h now a b evs) as [[Hok ->] | [Hbad ->]];
    cbn [mbind Checked.Result_bind].
  - destruct (IH (evs ++ pair_events h now a b)) as [[Hall ->] | [Hnot ->]].
    + left. split; [constructor; assumption | rewrite <- app_assoc; reflexivity].
    + right. split; [|reflexivity]. intros H. apply Forall_cons in H. tauto.
  - right. split; [|reflexivity]. intros H. apply Forall_cons in H. tauto.
Qed.

Lemma checked_outer_loop_cases h now (all ps : Dict.t Store.addr) : forall evs,
  (Forall (fun a => Forall (pair_ok h a) all) ps /\
   Checked.for_res ps (fun a evs => Checked.for_res all (Checked.check_pair h now a) evs) evs
   = Checked.Return (evs ++ flat_map (fun a => flat_map (pair_events h now a) all) ps)) \/
  (~ Forall (fun a => Forall (pair_ok h a) all) ps /\
   Checked.for_res ps (fun a evs => Checked.for_res all (Checked.check_pair h now a) evs) evs
   = Checked.Raise Checked.OverflowError).
Proof.
  induction ps as [|a ps IH]; intros evs; cbn [Checked.for_res flat_map].
  { left. split; [constructor | rewrite app_nil_r; reflexivity]. }
  destruct (checked_inner_loop_cases h now a all evs) as [[Hok ->] | [Hbad ->]];
    cbn [mbind Checked.Result_bind].
  - destruct (IH (evs ++ flat_map (pair_events h now a) all)) as [[Hall ->] | [Hnot ->]].
    + left. split; [constructor; assumption | rewrite <- app_assoc; reflexivity].
    + right. split; [|reflexivity]. intros H. apply Forall_cons in H. tauto.
  - right. split; [|reflexivity]. intros H. apply Forall_cons in H. tauto.
Qed.

(** The loops can be carried out exactly on a table within range. *)
Lemma within_range_pairs h (ps : Dict.t Store.addr) :
  within_range h ps <-> Forall (fun a => Forall (pair_ok h a) ps) ps.
Proof.
  unfold within_range, pair_ok. rewrite Forall_forall. split.
  - intros H [a pa] Ha. rewrite Forall_forall. intros [b pb] Hb. cbn [fst snd].
    destruct (String.eqb_spec a b) as [Heq | Hne]; [left; exact Heq | right].
    apply (H a b pa pb); [apply list_elem_of_In; exact Ha | apply list_elem_of_In; exact Hb
                         | exact Hne].
  - intros H a b pa pb Ha Hb Hne.
    apply list_elem_of_In in Ha. apply list_elem_of_In in Hb.
    pose proof (H (a, pa) Ha) as Hrow. rewrite Forall_forall in Hrow.
    destruct (Hrow (b, pb) Hb) as [Heq | Hc]; [contradiction | exact Hc].
Qed.

(** [_process_events] returns on a table within range, with the
    events computed with exact squares, and raises OverflowError on any
    other table. *)
Lemma checked_process_events_cases h (self : t) :
  (within_range h (players self) /\
   Checked._process_events h self
   = Checked.Return
       (set_events (events self ++ collisions h (current_time self) (players self)) self)) \/
  (~ within_range h (players self) /\
   Checked._process_events h self = Checked.Raise Checked.OverflowError).
Proof.
  unfold Checked._process_events. rewrite within_range_pairs.
  destruct (checked_outer_loop_cases h (current_time self) (players self) (players self)
              (events self)) as [[Hok ->] | [Hbad ->]]; cbn [mbind Checked.Result_bind].
  - left. split; [exact Hok | reflexivity].
  - right. split; [exact Hbad | reflexivity].
Qed.

(** The tick: with the table it keeps within range it returns what
    the tick with exact squares returns; otherwise it raises
    OverflowError. *)
Lemma checked_update_cases h now (self : t) :
  Dict.wf (players self) ->
  (within_range h (remaining h now self) /\
   exists self', Checked.update h now self = Checked.Return self' /\
                 update h now self = Some self') \/
  (~ within_range h (remaining h now self) /\
   Checked.update h now self = Checked.Raise Checked.OverflowError).
Proof.
  intros Hwf.
  destruct (update_players h now self Hwf) as (self' & Hupd & Hfilter & _).
  fold (remaining h now self) in Hfilter.
  destruct (update_eq h now self) as (self0 & Hupd0 & Hps & _).
  assert (self0 = self') as -> by congruence.
  rewrite <- Hfilter, Hps.
  unfold Checked.update. cbv zeta.
  unfold update in Hupd. cbv zeta in Hupd. rewrite process_events_eq in Hupd.
  destruct (checked_process_events_cases h
              (_cleanup_inactive_players h (set_clock now (tick_count self + 1) self)))
    as [[Hok ->] | [Hbad ->]].
  - left. split; [exact Hok|]. exists self'. split; [congruence | exact Hupd0].
  - right. split; [exact Hbad | reflexivity].
Qed.

(** A table within range stays so when players leave it. *)
Lemma within_range_sub h (ps qs : Dict.t Store.addr) :
  (forall kv, In kv qs -> In kv ps) -> within_range h ps -> within_range h qs.
Proof.
  intros Hsub H a b pa pb Ha Hb Hne. apply (H a b pa pb); auto.
Qed.

Lemma within_range_remaining h now (self : t) :
  within_range h (players self) -> within_range h (remaining h now self).
Proof.
  apply within_range_sub. intros kv Hin. unfold remaining in Hin.
  apply List.filter_In in Hin. exact (proj1 Hin).
Qed.

End CheckedTick.

(** ** Collision events and the players a tick keeps (game_state.py) *)

Section CheckedCollisions.
Import GameState.

(** A call that returns is a call of the tick with exact squares. *)
Lemma checked_update_refines h now (self self' : t) :
  Dict.wf (players self) ->
  Checked.update h now self = Checked.Return self' ->
  update h now self = Some self' /\ within_range h (remaining h now self).
Proof.
  intros Hwf Hret.
  destruct (checked_update_cases h now self Hwf) as [[Hok (self0 & H0 & Hupd)] | [_ Hraise]].
  - rewrite H0 in Hret. injection Hret as <-. split; [exact Hupd | exact Hok].
  - rewrite Hraise in Hret. discriminate.
Qed.

Lemma checked_update_returns h now (self : t) :
  Dict.wf (players self) -> within_range h (remaining h now self) ->
  exists self', Checked.update h now self = Checked.Return self'.
Proof.
  intros Hwf Hok.
  destruct (checked_update_cases h now self Hwf) as [[_ (self' & H & _)] | [Hbad _]].
  - exists self'. exact H.
  - contradiction.
Qed.

Lemma checked_update_raises h now (self : t) e :
  Dict.wf (players self) ->
  Checked.update h now self = Checked.Raise e -> e = Checked.OverflowError.
Proof.
  intros Hwf Hraise.
  destruct (checked_update_cases h now self Hwf) as [[_ (self' & H & _)] | [_ H]];
    rewrite H in Hraise; [discriminate | congruence].
Qed.



End CheckedCollisions.

Lemma lobby_within_range :
  within_range (App.heap lobby) (GameState.players (App.game_state lobby)).
Proof.
  assert (comparable Player.zero3 Player.zero3) as Hzero.
  { unfold comparable, squarable. simpl.
    pose proof float_max_pos. repeat split; (replace ((0 - 0) * ((0 - 0) * 1)) with 0 by ring); lra. }
  intros a b pa pb Ha Hb _. simpl in Ha, Hb.
  destruct Ha as [[= <- <-] | [[= <- <-] | []]];
    destruct Hb as [[= <- <-] | [[= <- <-] | []]]; exact Hzero.
Qed.



(** ** Runs of the game loop (app.py) *)

Section CheckedTicks.
Import App.

(** A run of the loop: what it does when it returns, the exception
    when it raises, and that it returns from a map within range. *)
Lemma checked_game_loop_cases (clock : list R) : forall (w : World),
  Dict.wf (GameState.players (game_state w)) ->
  (forall w', Checked.game_loop clock w = Checked.Return w' -> game_loop clock w = Some w') /\
  (forall e, Checked.game_loop clock w = Checked.Raise e -> e = Checked.OverflowError) /\
  (within_range (heap w) (GameState.players (game_state w)) ->
   exists w', Checked.game_loop clock w = Checked.Return w').
Proof.
  induction clock as [|now rest IH]; intros w Hwf; cbn [Checked.game_loop game_loop].
  { split; [intros w' [= <-]; reflexivity|]. split; [intros e He; discriminate|].
    intros _. exists w. reflexivity. }
  unfold Checked.game_loop_step, game_loop_step.
  destruct (update_players (heap w) now (game_state w) Hwf)
    as (g & Hupd & Hfilter & _ & _ & _ & Hwf').
  fold (remaining (heap w) now (game_state w)) in Hfilter.
  destruct (checked_update_cases (heap w) now (game_state w) Hwf)
    as [[Hok (g0 & Hret & Hupd0)] | [Hbad Hraise]].
  - assert (g0 = g) as -> by congruence.
    rewrite Hret, Hupd. cbn [mbind Checked.Result_bind option_bind].
    destruct (IH (set_game_state g w) Hwf') as (IHret & IHraise & IHrange).
    split; [exact IHret|]. split; [exact IHraise|].
    intros _. apply IHrange. cbn [heap game_state set_game_state].
    rewrite Hfilter. exact Hok.
  - rewrite Hraise. cbn [mbind Checked.Result_bind].
    split; [intros w' Hw'; discriminate|]. split; [intros e [= <-]; reflexivity|].
    intros Hrange. exfalso. apply Hbad. apply within_range_remaining. exact Hrange.
Qed.



End CheckedTicks.
